(** * momentum-stock-replay: decoders, timestamp synthesizer, aggregator, EMA

    A shallow embedding of
      - [src/app/src/utils/api.js]: [parseBinaryData] (TickCodec),
        [parseBinaryLevel2Data] (L2Codec), [preprocessTimestamps]
        (TimestampSynthesizer), and the methods of [api] built on them:
        [getSessions], [loadSessionData], [getSessionMetadata];
      - the chart component [ChartArea]: [aggregateLineData],
        [aggregateCandleData], [calculateEMAs] and the live-tick effect
        (Aggregator and EMAEngine), the timeframe effect and the reset
        effect.

    Part I gives the definitions: JavaScript numbers as rationals rounded to
    binary64, dates, exceptions, [DataView] reads, then the functions of the
    sources in their order, then test vectors.  Part II gives the statements
    and their proofs, component by component. *)

From Stdlib Require Import ZArith QArith Qround Qabs Qpower SpecFloat.
From Stdlib Require Import List String Ascii Bool Lia Lqa.
From Stdlib Require Import Permutation Sorted.
From Stdlib.Strings Require Import Byte.
Import ListNotations.

Local Open Scope Z_scope.

(* ====================================================================== *)
(** * Part I: definitions                                                  *)
(* ====================================================================== *)

(* ---------------------------------------------------------------------- *)
(** ** Arrays                                                               *)
(* ---------------------------------------------------------------------- *)

(** [data.push(x)] appends at the end of the array. *)
Definition push {A : Type} (data : list A) (x : A) : list A := data ++ [x].

(** [unsnoc data] splits off [data[data.length - 1]]; [None] when
    [data.length === 0]. *)
Fixpoint unsnoc {A : Type} (data : list A) : option (list A * A) :=
  match data with
  | [] => None
  | x :: rest =>
      match unsnoc rest with
      | None => Some ([], x)
      | Some (init, lst) => Some (x :: init, lst)
      end
  end.

(* ---------------------------------------------------------------------- *)
(** ** JavaScript numbers                                                   *)
(* ---------------------------------------------------------------------- *)

(** A finite JavaScript number is an IEEE 754 binary64 value, that is a
    rational [m * 2^e] with [|m| < 2^53].  Numbers are rationals in lowest
    terms, and every arithmetic operation rounds its exact result to the
    nearest such value, ties to even.  The exponent is not bounded: the
    values met here (zero, or [2^-30 <= |x| < 2^70]) are far from overflow and
    from the subnormal range, where binary64 would differ. *)

Definition pow2 (e : Z) : Q := Qpower (2#1) e.

(** The [e] with [2^e <= q < 2^(e+1)], for [q > 0]. *)
Definition binade (q : Q) : Z :=
  let e0 := Z.log2 (Qnum q) - Z.log2 (Zpos (Qden q)) in
  if Qle_bool (pow2 e0) q then e0 else e0 - 1.

(** Nearest integer, ties to even. *)
Definition rne (x : Q) : Z :=
  let f := Qfloor x in
  match Qcompare (x - inject_Z f) (1#2) with
  | Lt => f
  | Gt => f + 1
  | Eq => if Z.even f then f else f + 1
  end.

(** Rounding of a rational to binary64: 53 significant bits. *)
Definition fl (q : Q) : Q :=
  let q := Qred q in
  if Qeq_bool q 0 then 0%Q
  else
    let e := binade (Qabs q) in
    Qred (inject_Z (rne (q * pow2 (52 - e))) * pow2 (e - 52)).

Definition fl_exp (q : Q) : Z := binade (Qabs (Qred q)).

(** The rational denoted by a finite value of the Standard Library's
    specification of IEEE 754 arithmetic, to compare [fl] with it. *)
Definition SF2Q (f : spec_float) : option Q :=
  match f with
  | S754_zero _ => Some 0%Q
  | S754_finite s m e =>
      Some (Qred ((if s then - (1) else 1) * inject_Z (Zpos m) * pow2 e))%Q
  | _ => None
  end.

(** A positive integer as such a value. *)
Definition SF_of_pos (n : positive) : spec_float := S754_finite false n 0.

(** [a + b], [a - b], [a * b], [a / b] (for [b] other than zero). *)
Definition js_add (a b : Q) : Q := fl (a + b).
Definition js_sub (a b : Q) : Q := fl (a - b).
Definition js_mul (a b : Q) : Q := fl (a * b).
Definition js_div (a b : Q) : Q := fl (a / b).

(** [Number(n)] for a BigInt [n]. *)
Definition js_of_bigint (n : Z) : Q := fl (inject_Z n).

(** An integer of magnitude at most [2^53] as a number. *)
Definition js_int (n : Z) : Q := inject_Z n.

(** [Math.floor(x)], as the integer it denotes. *)
Definition math_floor_Z (x : Q) : Z := Qfloor x.

(** Truncation toward zero ([ToIntegerOrInfinity]). *)
Definition js_trunc (x : Q) : Z :=
  if Qle_bool 0 x then Qfloor x else Qceiling x.

(** *** Dates

    A [Date] holds a time value: an integral number of milliseconds of
    magnitude at most [8.64e15], or NaN ([None]).  An ISO string
    ([toISOString]) is a rendering of the time value that [new Date(string)]
    reads back unchanged, so a tick's [timestamp] string is represented by
    the time value it denotes. *)
Definition maxTimeValue : Z := 8640000000000000.

(** [new Date(t)] for a number [t]: [TimeClip]. *)
Definition newDate (t : Q) : option Z :=
  if Qle_bool (Qabs t) (inject_Z maxTimeValue) then Some (js_trunc t) else None.

(** *** Exceptions *)
Inductive RangeErrorMessage : Type :=
| OffsetOutOfBounds   (* a DataView or typed-array read outside the buffer *)
| InvalidTimeValue.   (* [toISOString] on an invalid date *)

Inductive JsError : Type :=
| RangeError (m : RangeErrorMessage)
| Error_InvalidFormat.   (* [throw new Error("Invalid binary format ...")] *)

Inductive Result (A : Type) : Type :=
| Return (a : A)
| Throw (e : JsError).
Arguments Return {A} a.
Arguments Throw {A} e.

Definition bind {A B : Type} (r : Result A) (k : A -> Result B) : Result B :=
  match r with
  | Return a => k a
  | Throw e => Throw e
  end.

Notation "x <- r ;; k" := (bind r (fun x => k))
  (at level 61, r at next level, right associativity).

(** [date.toISOString()] *)
Definition toISOString (d : option Z) : Result Z :=
  match d with
  | Some tv => Return tv
  | None => Throw (RangeError InvalidTimeValue)
  end.

(** *** [Number.prototype.toFixed]

    [toFixed_int x f] is the integer [n] for which [n / 10^f - |x|] is as
    close to zero as possible, the larger one if there are two. *)
Definition toFixed_int (x : Q) (f : nat) : Z :=
  Qfloor (Qabs x * inject_Z (10 ^ Z.of_nat f) + (1#2)).

Definition digit_char (d : Z) : ascii := ascii_of_nat (48 + Z.to_nat d).

(** Decimal digits of [n >= 0], most significant first, no leading zero
    ("0" for zero). *)
Fixpoint int_digits (fuel : nat) (n : Z) : string :=
  match fuel with
  | O => String (digit_char (n mod 10)) EmptyString
  | S fuel' =>
      if n <? 10 then String (digit_char n) EmptyString
      else (int_digits fuel' (n / 10) ++ String (digit_char (n mod 10)) EmptyString)%string
  end.

Definition string_of_int (n : Z) : string := int_digits (Z.to_nat (Z.log2 n)) n.

(** The [f] low decimal digits of [n >= 0], zero padded. *)
Fixpoint frac_digits (f : nat) (n : Z) : string :=
  match f with
  | O => EmptyString
  | S f' => (frac_digits f' (n / 10) ++ String (digit_char (n mod 10)) EmptyString)%string
  end.

(** [x.toFixed(f)] for [f > 0] and [|x| < 1e21]. *)
Definition toFixed (x : Q) (f : nat) : string :=
  let n := toFixed_int x f in
  let body := (string_of_int (n / 10 ^ Z.of_nat f) ++ "." ++ frac_digits f n)%string in
  if Qlt_le_dec x 0 then ("-" ++ body)%string else body.

(** [parseFloat(x.toFixed(f))]: the number nearest to the decimal printed. *)
Definition parseFloat_toFixed (x : Q) (f : nat) : Q :=
  let n := toFixed_int x f in
  let v := (inject_Z n / inject_Z (10 ^ Z.of_nat f))%Q in
  fl (if Qlt_le_dec x 0 then - v else v)%Q.

(** *** [DataView] *)

Definition byte_val (b : byte) : Z := Z.of_N (Byte.to_N b).

(** The [n] bytes at byte offset [off], if they lie inside the view. *)
Definition bytes_at (buf : list byte) (off : Z) (n : nat) : Result (list byte) :=
  if (0 <=? off) && (off + Z.of_nat n <=? Z.of_nat (List.length buf))
  then Return (firstn n (skipn (Z.to_nat off) buf))
  else Throw (RangeError OffsetOutOfBounds).

(** Little-endian value of a byte sequence. *)
Fixpoint le_value (bs : list byte) : Z :=
  match bs with
  | [] => 0
  | b :: rest => byte_val b + 256 * le_value rest
  end.

(** Two's complement reading of a [w]-bit value. *)
Definition to_signed (w : Z) (v : Z) : Z :=
  if v <? 2 ^ (w - 1) then v else v - 2 ^ w.

Definition getUint8 (buf : list byte) (off : Z) : Result Z :=
  bs <- bytes_at buf off 1 ;; Return (le_value bs).
Definition getUint32 (buf : list byte) (off : Z) : Result Z :=
  bs <- bytes_at buf off 4 ;; Return (le_value bs).
Definition getInt32 (buf : list byte) (off : Z) : Result Z :=
  bs <- bytes_at buf off 4 ;; Return (to_signed 32 (le_value bs)).
Definition getBigUint64 (buf : list byte) (off : Z) : Result Z :=
  bs <- bytes_at buf off 8 ;; Return (le_value bs).
Definition getBigInt64 (buf : list byte) (off : Z) : Result Z :=
  bs <- bytes_at buf off 8 ;; Return (to_signed 64 (le_value bs)).

(** A read of [n] bytes at [off] either succeeds, inside the buffer, or
    throws the out-of-bounds [RangeError]. *)
Definition read_spec (n : Z) (get : list byte -> Z -> Result Z) : Prop :=
  forall buf off,
    (0 <= off /\ off + n <= Z.of_nat (List.length buf) /\ exists v, get buf off = Return v) \/
    ((off < 0 \/ Z.of_nat (List.length buf) < off + n) /\
     get buf off = Throw (RangeError OffsetOutOfBounds)).

(* ---------------------------------------------------------------------- *)
(** ** TickCodec: [parseBinaryData]                                         *)
(* ---------------------------------------------------------------------- *)

Definition PRICE_SCALE : Z := 100000.
Definition SIZE_SCALE : Z := 100.
Definition TIME_UNIT : Z := 1000000.

(** The object pushed for each row.  [timestamp] and [time] hold the same
    ISO string, represented by its time value in milliseconds. *)
Record DecodedTick : Type := mkDecodedTick {
  timestamp : Z;
  tick_time : Z;
  priceBid : string;
  priceAsk : string;
  sizeBid : string;
  sizeAsk : string;
  bid_price : string;
  ask_price : string;
  bid_size : string;
  ask_size : string }.

(** ASCII "TICK".  [TextDecoder] maps four bytes to the string "TICK"
    exactly when they are these four. *)
Definition magic_TICK : list byte := [x54; x49; x43; x4b].

Fixpoint bytes_eqb (a b : list byte) : bool :=
  match a, b with
  | [], [] => true
  | x :: a', y :: b' => Byte.eqb x y && bytes_eqb a' b'
  | _, _ => false
  end.

Definition rowSize : Z := 24.

(** Body of the row loop, for the row starting at [rowOffset]. *)
Definition parseRow (buffer : list byte) (initialTimestampUs rowOffset : Z)
  : Result DecodedTick :=
  deltaTimeUs <- getBigInt64 buffer rowOffset ;;
  priceBidScaled <- getInt32 buffer (rowOffset + 8) ;;
  priceAskScaled <- getInt32 buffer (rowOffset + 12) ;;
  sizeBidScaled <- getInt32 buffer (rowOffset + 16) ;;
  sizeAskScaled <- getInt32 buffer (rowOffset + 20) ;;
  (* BigInt addition: exact *)
  let absoluteTimestampUs := initialTimestampUs + deltaTimeUs in
  let timestampMs := js_div (js_of_bigint absoluteTimestampUs) (js_int 1000) in
  ts <- toISOString (newDate timestampMs) ;;
  let priceBid := js_div (js_int priceBidScaled) (js_int PRICE_SCALE) in
  let priceAsk := js_div (js_int priceAskScaled) (js_int PRICE_SCALE) in
  let sizeBid := js_div (js_int sizeBidScaled) (js_int SIZE_SCALE) in
  let sizeAsk := js_div (js_int sizeAskScaled) (js_int SIZE_SCALE) in
  Return (mkDecodedTick ts ts
            (toFixed priceBid 5) (toFixed priceAsk 5)
            (toFixed sizeBid 2) (toFixed sizeAsk 2)
            (toFixed priceBid 5) (toFixed priceAsk 5)
            (toFixed sizeBid 2) (toFixed sizeAsk 2)).

(** [for (let i = ...; i < numRows; i++)], with [remaining = numRows - i]. *)
Fixpoint parseRows (buffer : list byte) (initialTimestampUs offset i : Z)
         (remaining : nat) (data : list DecodedTick) : Result (list DecodedTick) :=
  match remaining with
  | O => Return data
  | S remaining' =>
      tick <- parseRow buffer initialTimestampUs (offset + i * rowSize) ;;
      parseRows buffer initialTimestampUs offset (i + 1) remaining' (push data tick)
  end.

(** [buffer] lists the bytes of the decompressed array, which is taken to
    span the whole of its [ArrayBuffer] (the [DataView] is created on
    [buffer.buffer]). *)
Definition parseBinaryData (buffer : list byte) : Result (list DecodedTick) :=
  magicBytes <- bytes_at buffer 0 4 ;;
  version <- getUint8 buffer 4 ;;
  numRows <- getUint32 buffer 5 ;;
  initialTimestampUs <- getBigUint64 buffer 9 ;;
  if bytes_eqb magicBytes magic_TICK
  then parseRows buffer initialTimestampUs 17 0 (Z.to_nat numRows) []
  else Throw Error_InvalidFormat.

(** The header and row fields as the decoder reads them ([None] outside the
    buffer); used to state what a decoded tick holds. *)
Definition header_numRows (buffer : list byte) : option Z :=
  match getUint32 buffer 5 with Return n => Some n | Throw _ => None end.
Definition header_initialTimestampUs (buffer : list byte) : option Z :=
  match getBigUint64 buffer 9 with Return n => Some n | Throw _ => None end.
Definition row_deltaTimeUs (buffer : list byte) (i : Z) : option Z :=
  match getBigInt64 buffer (17 + i * rowSize) with Return n => Some n | Throw _ => None end.
Definition row_int32 (buffer : list byte) (i : Z) (field : Z) : option Z :=
  match getInt32 buffer (17 + i * rowSize + field) with Return n => Some n | Throw _ => None end.

(** Time value of the ISO string built for an absolute timestamp in
    microseconds; [None] when [toISOString] throws. *)
Definition timeValueOfUs (us : Z) : option Z :=
  newDate (js_div (js_of_bigint us) (js_int 1000)).

(** Sum of the delta-time fields of the rows [0 .. k-1]. *)
Fixpoint sum_deltaTimeUs (buffer : list byte) (k : nat) : Z :=
  match k with
  | O => 0
  | S k' =>
      sum_deltaTimeUs buffer k'
      + match row_deltaTimeUs buffer (Z.of_nat k') with Some d => d | None => 0 end
  end.

(** "The timestamp of the k-th tick is the header's initial timestamp plus
    the sum of the first k deltas" (ticks counted from 1). *)
Definition timestamps_cumulative (buffer : list byte) : Prop :=
  forall ticks initial,
    parseBinaryData buffer = Return ticks ->
    header_initialTimestampUs buffer = Some initial ->
    forall k tick,
      nth_error ticks k = Some tick ->
      timeValueOfUs (initial + sum_deltaTimeUs buffer (S k)) = Some (timestamp tick).

(** "A buffer that has the magic and fewer than [17 + 24 * N] bytes fails
    with the truncation error", the error of a read past the end of the
    buffer being the out-of-bounds [RangeError] of the [DataView]. *)
Definition truncated_fails_out_of_bounds (buffer : list byte) : Prop :=
  firstn 4 buffer = magic_TICK ->
  forall N,
    header_numRows buffer = Some N ->
    Z.of_nat (List.length buffer) < 17 + 24 * N ->
    parseBinaryData buffer = Throw (RangeError OffsetOutOfBounds).

(** *** Fixed-format decimal strings *)

Definition is_digit (c : ascii) : bool :=
  (48 <=? nat_of_ascii c)%nat && (nat_of_ascii c <=? 57)%nat.

Fixpoint all_digits (s : string) : bool :=
  match s with
  | EmptyString => true
  | String c rest => is_digit c && all_digits rest
  end.

(** A decimal string with exactly [f] fractional digits: an optional minus
    sign, one or more digits, a point, and [f] digits. *)
Definition fixed_decimal (f : nat) (s : string) : Prop :=
  exists sign int frac : string,
    s = (sign ++ int ++ "." ++ frac)%string /\
    (sign = EmptyString \/ sign = "-"%string) /\
    int <> EmptyString /\
    all_digits int = true /\
    all_digits frac = true /\
    String.length frac = f.

(** The decimal expansion of [v / 10^f] for an integer [v]: the digits of
    [|v|] with the point [f] places from the right. *)
Definition decimal_of_scaled (v : Z) (f : nat) : string :=
  let body :=
    (string_of_int (Z.abs v / 10 ^ Z.of_nat f) ++ "." ++ frac_digits f (Z.abs v))%string in
  if v <? 0 then ("-" ++ body)%string else body.

(** The number written by a string of digits, continuing from [acc]. *)
Fixpoint digits_value_from (acc : Z) (s : string) : Z :=
  match s with
  | EmptyString => acc
  | String c rest => digits_value_from (10 * acc + (Z.of_nat (nat_of_ascii c) - 48)) rest
  end.

Definition digits_value (s : string) : Z := digits_value_from 0 s.

(** The four scaled integers of row [k], and what the tick of that row
    holds for them. *)
Definition tick_fields_of_row (buffer : list byte) (k : Z) (tick : DecodedTick) : Prop :=
  exists priceBidScaled priceAskScaled sizeBidScaled sizeAskScaled,
    row_int32 buffer k 8 = Some priceBidScaled /\
    row_int32 buffer k 12 = Some priceAskScaled /\
    row_int32 buffer k 16 = Some sizeBidScaled /\
    row_int32 buffer k 20 = Some sizeAskScaled /\
    priceBid tick = decimal_of_scaled priceBidScaled 5 /\
    priceAsk tick = decimal_of_scaled priceAskScaled 5 /\
    sizeBid tick = decimal_of_scaled sizeBidScaled 2 /\
    sizeAsk tick = decimal_of_scaled sizeAskScaled 2 /\
    bid_price tick = priceBid tick /\ ask_price tick = priceAsk tick /\
    bid_size tick = sizeBid tick /\ ask_size tick = sizeAsk tick.

(* ---------------------------------------------------------------------- *)
(** ** L2Codec: [parseBinaryLevel2Data]                                     *)
(* ---------------------------------------------------------------------- *)

(** The object pushed for each row; [l2_timestamp] is the ISO string,
    represented by its time value. *)
Record L2Entry : Type := mkL2Entry {
  l2_timestamp : Z;
  timestamp_ms : Q;
  price : Q;
  size : Z;
  exchange : string;
  entry_type : Z }.

Record L2Loop : Type := mkL2Loop {
  cumulativeTimeMs : Q;
  cumulativePrice : Q;
  l2_data : list L2Entry }.

Definition l2_rowSize : Z := 14.

Section L2Codec.
(** [exchangeMap[exchangeCode] || 'UNKNOWN'], the table being built from
    the mapping bytes with [TextDecoder], [split] and [parseInt].  The
    lookup is a parameter: nothing stated below depends on the labels. *)
Variable exchangeLabel : list byte -> Z -> string.

Definition parseL2Row (buffer mappingBytes : list byte) (rowOffset : Z) (st : L2Loop)
  : Result L2Loop :=
  deltaTimeMs <- getInt32 buffer rowOffset ;;
  priceDelta <- getInt32 buffer (rowOffset + 4) ;;
  sz <- getInt32 buffer (rowOffset + 8) ;;
  entryType <- getUint8 buffer (rowOffset + 12) ;;
  exchangeCode <- getUint8 buffer (rowOffset + 13) ;;
  let cumulativeTimeMs' := js_add (cumulativeTimeMs st) (js_int deltaTimeMs) in
  let cumulativePrice' := js_add (cumulativePrice st) (js_int priceDelta) in
  let price := js_div cumulativePrice' (js_int PRICE_SCALE) in
  let exchange := exchangeLabel mappingBytes exchangeCode in
  ts <- toISOString (newDate cumulativeTimeMs') ;;
  Return (mkL2Loop cumulativeTimeMs' cumulativePrice'
            (push (l2_data st)
                  (mkL2Entry ts cumulativeTimeMs' (parseFloat_toFixed price 4)
                             sz exchange entryType))).

Fixpoint parseL2Rows (buffer mappingBytes : list byte) (offset i : Z)
         (remaining : nat) (st : L2Loop) : Result L2Loop :=
  match remaining with
  | O => Return st
  | S remaining' =>
      st' <- parseL2Row buffer mappingBytes (offset + i * l2_rowSize) st ;;
      parseL2Rows buffer mappingBytes offset (i + 1) remaining' st'
  end.

(** [buffer] lists the bytes of the [Uint8Array] passed in. *)
Definition parseBinaryLevel2Data (buffer : list byte) : Result (list L2Entry) :=
  initialTimestamp <- getBigUint64 buffer 0 ;;
  let initialTimestampMs := js_of_bigint initialTimestamp in
  mappingLength <- getUint32 buffer 8 ;;
  (* [buffer.slice] clamps to the end of the array *)
  let mappingBytes := firstn (Z.to_nat mappingLength) (skipn 12 buffer) in
  let offset := 12 + mappingLength in
  let numRows := js_div (js_int (Z.of_nat (List.length buffer) - offset)) (js_int l2_rowSize) in
  (* [i < numRows] holds for [i = 0 .. ceil(numRows) - 1] *)
  st <- parseL2Rows buffer mappingBytes offset 0 (Z.to_nat (Qceiling numRows))
                    (mkL2Loop initialTimestampMs 0%Q []) ;;
  Return (l2_data st).

End L2Codec.

(** The header and row fields as the decoder reads them. *)
Definition l2_header_initialTimestampMs (buffer : list byte) : option Z :=
  match getBigUint64 buffer 0 with Return n => Some n | Throw _ => None end.
Definition l2_header_mappingLength (buffer : list byte) : option Z :=
  match getUint32 buffer 8 with Return n => Some n | Throw _ => None end.
Definition l2_row_int32 (buffer : list byte) (offset i field : Z) : Z :=
  match getInt32 buffer (offset + i * l2_rowSize + field) with Return n => n | Throw _ => 0 end.

(** Sum of the 32-bit field at [field] over the rows [0 .. k-1]. *)
Fixpoint l2_sum (buffer : list byte) (offset field : Z) (k : nat) : Z :=
  match k with
  | O => 0
  | S k' => l2_sum buffer offset field k' + l2_row_int32 buffer offset (Z.of_nat k') field
  end.

(** "The price of the k-th event is the sum of the first k price deltas
    divided by 100 000" (events counted from 1), the division being that of
    JavaScript numbers. *)
Definition l2_price_is_scaled_sum (exchangeLabel : list byte -> Z -> string)
           (buffer : list byte) : Prop :=
  forall entries mappingLength,
    parseBinaryLevel2Data exchangeLabel buffer = Return entries ->
    l2_header_mappingLength buffer = Some mappingLength ->
    forall k e,
      nth_error entries k = Some e ->
      price e = js_div (js_int (l2_sum buffer (12 + mappingLength) 4 (S k)))
                       (js_int PRICE_SCALE).

(** The running price before row [k], as the loop accumulates it: a
    number, each addition rounded. *)
Fixpoint l2_cumulativePrice (buffer : list byte) (offset : Z) (k : nat) : Q :=
  match k with
  | O => 0%Q
  | S k' =>
      js_add (l2_cumulativePrice buffer offset k')
             (js_int (l2_row_int32 buffer offset (Z.of_nat k') 4))
  end.

(** The price deltas of the first [k] rows add up, row after row, to
    integers below [2^53] in magnitude. *)
Definition l2_price_sums_exact (buffer : list byte) (offset : Z) (k : nat) : Prop :=
  forall i, (i <= k)%nat -> Z.abs (l2_sum buffer offset 4 i) < 2 ^ 53.

(** What the entry of row [k] holds.  With [T] the header's timestamp plus
    the delta-times of the rows up to [k], the time is [T].  The price is
    the running price divided by 100 000 and printed with four decimals,
    read back as a number; while the sums [P] of the price deltas are exact,
    it is the multiple [n / 10^4] nearest to [P / 10^5] (either neighbour
    when [P] ends in 5), as a number. *)
Definition l2_entry_of_sums (buffer : list byte) (initial offset : Z) (k : nat) (e : L2Entry)
  : Prop :=
  let T := initial + l2_sum buffer offset 0 (S k) in
  let P := l2_sum buffer offset 4 (S k) in
  timestamp_ms e = js_int T /\
  l2_timestamp e = T /\
  price e = parseFloat_toFixed
              (js_div (l2_cumulativePrice buffer offset (S k)) (js_int PRICE_SCALE)) 4 /\
  (l2_price_sums_exact buffer offset (S k) ->
   price e = parseFloat_toFixed (js_div (js_int P) (js_int PRICE_SCALE)) 4 /\
   exists n, 0 <= n /\ Z.abs (10 * n - Z.abs P) <= 5 /\
             price e = fl (inject_Z (Z.sgn P * n) / inject_Z 10000)).

(** State of the row loop before row [j]. *)
Definition l2_loop_inv (buffer : list byte) (initial offset : Z) (j : nat) (st : L2Loop) : Prop :=
  List.length (l2_data st) = j /\
  cumulativeTimeMs st = js_of_bigint (initial + l2_sum buffer offset 0 j) /\
  cumulativePrice st = l2_cumulativePrice buffer offset j /\
  forall k e,
    nth_error (l2_data st) k = Some e -> l2_entry_of_sums buffer initial offset k e.
(* ---------------------------------------------------------------------- *)
(** ** TimestampSynthesizer: [preprocessTimestamps]                         *)
(* ---------------------------------------------------------------------- *)

(** [{ ...tick, adjustedTimestamp }] *)
Record ProcessedTick : Type := mkProcessedTick {
  p_tick : DecodedTick;
  adjustedTimestamp : Q }.

(** [Math.floor(new Date(tick.timestamp || tick.time).getTime() / 1000)];
    the ISO string [tick.timestamp] is never empty. *)
Definition secondTimestampOf (tick : DecodedTick) : Z :=
  math_floor_Z (js_div (js_int (timestamp tick)) (js_int 1000)).

(** [ticksBySecond]: a [Map], which iterates in order of first insertion. *)
Definition SecondMap : Type := list (Z * list (DecodedTick * nat)).

(** [if (!m.has(key)) m.set(key, []); m.get(key).push(entry)] *)
Fixpoint map_push (m : SecondMap) (key : Z) (entry : DecodedTick * nat) : SecondMap :=
  match m with
  | [] => [(key, [entry])]
  | (k, ticks) :: rest =>
      if k =? key then (k, push ticks entry) :: rest
      else (k, ticks) :: map_push rest key entry
  end.

(** [data.forEach((tick, index) => ...)], from index [index]. *)
Fixpoint groupBySecond (data : list DecodedTick) (index : nat) (m : SecondMap) : SecondMap :=
  match data with
  | [] => m
  | tick :: rest =>
      groupBySecond rest (S index)
        (map_push m (secondTimestampOf tick) (tick, index))
  end.

(** [Math.floor(index * msIncrement)] with [msIncrement = 1000 / tickCount]. *)
Definition msOffsetOf (tickCount index : nat) : Z :=
  let msIncrement := js_div (js_int 1000) (js_int (Z.of_nat tickCount)) in
  math_floor_Z (js_mul (js_int (Z.of_nat index)) msIncrement).

(** [secondTimestamp + (msOffset / 1000)] *)
Definition adjustedOf (secondTimestamp : Z) (tickCount index : nat) : Q :=
  js_add (js_int secondTimestamp)
         (js_div (js_int (msOffsetOf tickCount index)) (js_int 1000)).

(** [ticks.forEach(({ tick }, index) => ...)], from index [index]. *)
Fixpoint spread (secondTimestamp : Z) (tickCount : nat)
         (ticks : list (DecodedTick * nat)) (index : nat) : list ProcessedTick :=
  match ticks with
  | [] => []
  | (tick, _) :: rest =>
      mkProcessedTick tick (adjustedOf secondTimestamp tickCount index)
      :: spread secondTimestamp tickCount rest (S index)
  end.

(** Body of [ticksBySecond.forEach((ticks, secondTimestamp) => ...)]: the
    entries pushed to [processedData] for one second. *)
Definition emitSecond (entry : Z * list (DecodedTick * nat)) : list ProcessedTick :=
  let '(secondTimestamp, ticks) := entry in
  let tickCount := List.length ticks in
  match ticks with
  | [(tick, _)] => [mkProcessedTick tick (js_int secondTimestamp)]
  | _ => spread secondTimestamp tickCount ticks 0
  end.

(** [processedData.sort((a, b) => a.adjustedTimestamp - b.adjustedTimestamp)]:
    a stable sort; the difference of two numbers is negative exactly when
    the first is the smaller. *)
Fixpoint sort_insert (x : ProcessedTick) (sorted : list ProcessedTick) : list ProcessedTick :=
  match sorted with
  | [] => [x]
  | y :: rest =>
      if Qle_bool (adjustedTimestamp x) (adjustedTimestamp y)
      then x :: y :: rest
      else y :: sort_insert x rest
  end.

Definition sortByAdjusted (l : list ProcessedTick) : list ProcessedTick :=
  fold_right sort_insert [] l.

(** The result for an empty array is the array itself. *)
Definition preprocessTimestamps (data : list DecodedTick) : list ProcessedTick :=
  match data with
  | [] => []
  | _ =>
      let ticksBySecond := groupBySecond data 0 [] in
      sortByAdjusted (flat_map emitSecond ticksBySecond)
  end.

(** *** Vocabulary of the statements *)

Definition inSecond (s : Z) (tick : DecodedTick) : bool := secondTimestampOf tick =? s.

(** Number of ticks of [data] whose second is [s]. *)
Definition countInSecond (s : Z) (data : list DecodedTick) : nat :=
  List.length (filter (inSecond s) data).

(** [m.get(key)], the empty array standing for an absent key. *)
Fixpoint map_get (m : SecondMap) (key : Z) : list (DecodedTick * nat) :=
  match m with
  | [] => []
  | (k, ticks) :: rest => if k =? key then ticks else map_get rest key
  end.

(** Keys are distinct, no array is empty, and the array of a second holds
    ticks of that second. *)
Definition SecondMap_wf (m : SecondMap) : Prop :=
  NoDup (map fst m) /\
  forall s ticks,
    In (s, ticks) m ->
    ticks <> [] /\ forall e, In e ticks -> secondTimestampOf (fst e) = s.

(** "The i-th of the k > 1 ticks of a second s gets
    [s + floor(i * 1000 / k) / 1000]": for the tick at position [j] of
    [data], [k] counts the ticks of its second and [i] those before it. *)
Definition spread_is_exact_floor (data : list DecodedTick) : Prop :=
  forall j tick,
    nth_error data j = Some tick ->
    let s := secondTimestampOf tick in
    let k := countInSecond s data in
    let i := countInSecond s (firstn j data) in
    (1 < k)%nat ->
    In (mkProcessedTick tick
          (js_add (js_int s)
                  (js_div (js_int (Z.of_nat i * 1000 / Z.of_nat k)) (js_int 1000))))
       (preprocessTimestamps data).

(** A time value is valid in a [Date]. *)
Definition valid_time (tick : DecodedTick) : Prop :=
  Z.abs (timestamp tick) <= maxTimeValue.

(* ---------------------------------------------------------------------- *)
(** ** The chart component: Aggregator and EMA engine                       *)
(* ---------------------------------------------------------------------- *)

(** The chart component combines JavaScript numbers with a handful of
    primitives only.  They form an interface, so that what is proved about
    the aggregator holds for every reading of them: IEEE doubles with NaN
    and infinities as well as the finite doubles of [JsDouble] below. *)
Class JsNumberOps (number : Type) : Type := {
  (** an integer literal *)
  num_of_Z : Z -> number;
  (** [a + b], [a - b], [a * b], [a / b] *)
  num_add : number -> number -> number;
  num_sub : number -> number -> number;
  num_mul : number -> number -> number;
  num_div : number -> number -> number;
  (** [Math.floor(a)] *)
  math_floor : number -> number;
  (** [a !== b] on two numbers (it holds of NaN and NaN) *)
  strict_ne : number -> number -> bool;
  (** [Math.max(a, b)], [Math.min(a, b)] *)
  math_max : number -> number -> number;
  math_min : number -> number -> number;
  (** [isNaN(a)] *)
  is_nan : number -> bool
}.

(** Finite doubles; [num_div] is meant for divisors other than zero. *)
#[export] Instance JsDouble : JsNumberOps Q := {
  num_of_Z := js_int;
  num_add := js_add;
  num_sub := js_sub;
  num_mul := js_mul;
  num_div := js_div;
  math_floor := fun a => inject_Z (Qfloor a);
  strict_ne := fun a b => negb (Qeq_bool a b);
  math_max := fun a b => if Qle_bool a b then b else a;
  math_min := fun a b => if Qle_bool a b then a else b;
  is_nan := fun _ => false
}.

Section Chart.
Context {number : Type} `{JsNumberOps number}.

(** [Math.floor(t / tf) * tf] *)
Definition bucketOf (t tf : number) : number :=
  num_mul (math_floor (num_div t tf)) tf.

(** [(bid + ask) / 2] *)
Definition mid_of (bid ask : number) : number :=
  num_div (num_add bid ask) (num_of_Z 2).

(** Elements of [allTicksData]: [{ time, bid, ask, mid }]. *)
Record Tick : Type := mkTick {
  time : number; bid : number; ask : number; mid : number }.

(** [{ time, value }] *)
Record LinePoint : Type := mkPoint { lp_time : number; value : number }.

(** [{ time, open, high, low, close }] *)
Record Candle : Type := mkCandle {
  c_time : number; open : number; high : number; low : number; close : number }.

(** [{ bid: [...], ask: [...], mid: [...] }] *)
Record LineData : Type := mkLineData {
  ld_bid : list LinePoint; ld_ask : list LinePoint; ld_mid : list LinePoint }.

(** [{ ema9: [...], ema20: [...] }] *)
Record EMAData : Type := mkEMAData {
  ema9 : list LinePoint; ema20 : list LinePoint }.

(** *** Full mode: [aggregateLineData]

    The loop variables [currentTime], [currentBid], [currentAsk],
    [currentMid] start at [null] and are always assigned together; they are
    one optional tuple here. *)
Record LineLoop : Type := mkLineLoop {
  bidData : list LinePoint; askData : list LinePoint; midData : list LinePoint;
  current : option (number * number * number * number) }.

Definition lineLoop_init : LineLoop := mkLineLoop [] [] [] None.

(** The three [push] calls guarded by [currentTime !== null]. *)
Definition lineLoop_flush (st : LineLoop) : LineLoop :=
  match current st with
  | None => st
  | Some (currentTime, currentBid, currentAsk, currentMid) =>
      mkLineLoop (push (bidData st) (mkPoint currentTime currentBid))
                 (push (askData st) (mkPoint currentTime currentAsk))
                 (push (midData st) (mkPoint currentTime currentMid))
                 (current st)
  end.

(** Body of [ticks.forEach(tick => ...)]. *)
Definition lineLoop_body (tf : number) (st : LineLoop) (tick : Tick) : LineLoop :=
  let bucketTime := bucketOf (time tick) tf in
  let differs :=
    match current st with
    | None => true                       (* null !== bucketTime *)
    | Some (currentTime, _, _, _) => strict_ne currentTime bucketTime
    end in
  if differs then
    let st' := lineLoop_flush st in
    mkLineLoop (bidData st') (askData st') (midData st')
               (Some (bucketTime, bid tick, ask tick, mid tick))
  else
    match current st with
    | None => st
    | Some (currentTime, _, _, _) =>
        mkLineLoop (bidData st) (askData st) (midData st)
                   (Some (currentTime, bid tick, ask tick, mid tick))
    end.

Definition lineLoop_run (tf : number) (ticks : list Tick) : LineLoop :=
  fold_left (lineLoop_body tf) ticks lineLoop_init.

Definition aggregateLineData (ticks : list Tick) (tf : number) : LineData :=
  match ticks with
  | [] => mkLineData [] [] []
  | _ =>
      let st := lineLoop_flush (lineLoop_run tf ticks) in
      mkLineData (bidData st) (askData st) (midData st)
  end.

(** *** Full mode: [aggregateCandleData]

    [currentCandle] is an object mutated in place until it is pushed;
    [currentCandleTime] is assigned together with it. *)
Record CandleLoop : Type := mkCandleLoop {
  candles : list Candle;
  currentCandle : option Candle;
  currentCandleTime : option number }.

Definition candleLoop_init : CandleLoop := mkCandleLoop [] None None.

(** [if (currentCandle) candles.push(currentCandle)] *)
Definition candleLoop_flush (st : CandleLoop) : list Candle :=
  match currentCandle st with
  | None => candles st
  | Some c => push (candles st) c
  end.

Definition candleLoop_body (tf : number) (st : CandleLoop) (tick : Tick) : CandleLoop :=
  let bucketTime := bucketOf (time tick) tf in
  let differs :=
    match currentCandleTime st with
    | None => true
    | Some t => strict_ne t bucketTime
    end in
  if differs then
    mkCandleLoop (candleLoop_flush st)
                 (Some (mkCandle bucketTime (mid tick) (mid tick) (mid tick) (mid tick)))
                 (Some bucketTime)
  else
    match currentCandle st with
    | None => st   (* unreachable: the two variables are set together *)
    | Some c =>
        mkCandleLoop (candles st)
                     (Some (mkCandle (c_time c) (open c)
                                     (math_max (high c) (mid tick))
                                     (math_min (low c) (mid tick))
                                     (mid tick)))
                     (currentCandleTime st)
    end.

Definition candleLoop_run (tf : number) (ticks : list Tick) : CandleLoop :=
  fold_left (candleLoop_body tf) ticks candleLoop_init.

Definition aggregateCandleData (ticks : list Tick) (tf : number) : list Candle :=
  match ticks with
  | [] => []
  | _ => candleLoop_flush (candleLoop_run tf ticks)
  end.

(** *** EMA engine: [calculateEMAs]

    [ta.ema] comes from the package [oakscriptjs]; the chart component only
    calls it.  It is a parameter of the embedding; its result is an array
    whose entries are numbers or [null].  Every call is recorded, with its
    arguments, in the list of events of the step that makes it. *)
Variable ta_ema : list number -> nat -> list (option number).

Inductive SeriesId : Type := SBid | SAsk | SMid | SEma9 | SEma20.

(** Calls that leave the component. *)
Inductive Event : Type :=
| TaEma (closePrices : list number) (period : nat)   (* ta.ema(closePrices, period) *)
| SeriesUpdate (s : SeriesId) (p : LinePoint)        (* seriesRefs.current.<s>.update(p) *)
| CandlestickUpdate (c : Candle).                    (* seriesRefs.current.candlestick.update(c) *)

(** [midData.map((d, i) => ({ time: d.time, value: emaValues[i] }))
      .filter(d => d.value !== null && !isNaN(d.value))];
    an index past the end of [emaValues] reads [undefined], which [isNaN]
    rejects. *)
Fixpoint zipEma (midData : list LinePoint) (emaValues : list (option number))
  : list LinePoint :=
  match midData with
  | [] => []
  | d :: rest =>
      let keep :=
        match emaValues with
        | Some v :: _ => if is_nan v then [] else [mkPoint (lp_time d) v]
        | _ => []
        end in
      keep ++ zipEma rest (tl emaValues)
  end.

Definition calculateEMAs (midData : list LinePoint) : EMAData * list Event :=
  match midData with
  | [] => (mkEMAData [] [], [])
  | _ =>
      let closePrices := map value midData in
      let ema9Values := ta_ema closePrices 9 in
      let ema20Values := ta_ema closePrices 20 in
      (mkEMAData (zipEma midData ema9Values) (zipEma midData ema20Values),
       [TaEma closePrices 9; TaEma closePrices 20])
  end.

(** Modelled from the spec: [ta.ema] of the package [oakscriptjs], whose
    code is not among the sources.  The spec seeds the average with the
    first value (no warm-up) and continues with
    [ema[t] = value[t] * alpha + ema[t-1] * (1 - alpha)],
    [alpha = 2 / (period + 1)]. *)
Definition ema_alpha (period : nat) : number :=
  num_div (num_of_Z 2) (num_of_Z (Z.of_nat period + 1)).

Definition ema_next (alpha prev v : number) : number :=
  num_add (num_mul v alpha) (num_mul prev (num_sub (num_of_Z 1) alpha)).

Fixpoint ema_from (alpha prev : number) (values : list number) : list (option number) :=
  match values with
  | [] => []
  | v :: rest =>
      let e := ema_next alpha prev v in
      Some e :: ema_from alpha e rest
  end.

Definition ta_ema_spec (values : list number) (period : nat) : list (option number) :=
  match values with
  | [] => []
  | v :: rest => Some v :: ema_from (ema_alpha period) v rest
  end.

(** *** Incremental mode: the live-tick effect *)

(** The references the effect reads and writes. *)
Record ChartState : Type := mkChartState {
  allTicksData : list Tick;
  aggregatedLineData : LineData;
  aggregatedCandleData : list Candle;
  emaData : EMAData }.

(** Initial values of the references, also restored by the reset effect. *)
Definition chart_init : ChartState :=
  mkChartState [] (mkLineData [] [] []) [] (mkEMAData [] []).

(** [sessionData.quote]: [{ t, bid, ask }]. *)
Record Quote : Type := mkQuote { q_t : number; q_bid : number; q_ask : number }.

Definition tick_of_quote (q : Quote) : Tick :=
  mkTick (q_t q) (q_bid q) (q_ask q) (mid_of (q_bid q) (q_ask q)).

(** [updateLineSeries(series, data, value)] *)
Definition updateLineSeries (bucketTime : number) (series : SeriesId)
           (data : list LinePoint) (v : number) : list LinePoint * list Event :=
  let newPoint := mkPoint bucketTime v in
  match unsnoc data with
  | None => (push data newPoint, [SeriesUpdate series newPoint])
  | Some (init, lst) =>
      if strict_ne (lp_time lst) bucketTime
      then (push data newPoint, [SeriesUpdate series newPoint])
      else (init ++ [mkPoint (lp_time lst) v], [SeriesUpdate series newPoint])
  end.

(** The candle branch of the effect. *)
Definition updateCandles (bucketTime : number) (candleData : list Candle)
           (m : number) : list Candle * list Event :=
  let newCandle := mkCandle bucketTime m m m m in
  match unsnoc candleData with
  | None => (push candleData newCandle, [CandlestickUpdate newCandle])
  | Some (init, lastCandle) =>
      if strict_ne (c_time lastCandle) bucketTime
      then (push candleData newCandle, [CandlestickUpdate newCandle])
      else
        let lastCandle' :=
          mkCandle (c_time lastCandle) (open lastCandle)
                   (math_max (high lastCandle) m)
                   (math_min (low lastCandle) m) m in
        (init ++ [lastCandle'], [CandlestickUpdate lastCandle'])
  end.

(** [series.update(last)] for the last point of an EMA series, if any. *)
Definition updateLastEma (series : SeriesId) (data : list LinePoint) : list Event :=
  match unsnoc data with
  | None => []
  | Some (_, lst) => [SeriesUpdate series lst]
  end.

(** One run of the live-tick effect on a quote, the series being created.
    The chart library's [update] is taken not to throw. *)
Definition liveTick (timeframe : number) (st : ChartState) (q : Quote)
  : ChartState * list Event :=
  let t := q_t q in
  let m := mid_of (q_bid q) (q_ask q) in
  let allTicks := push (allTicksData st) (mkTick t (q_bid q) (q_ask q) m) in
  let bucketTime := bucketOf t timeframe in
  let '(bidD, e1) := updateLineSeries bucketTime SBid (ld_bid (aggregatedLineData st)) (q_bid q) in
  let '(askD, e2) := updateLineSeries bucketTime SAsk (ld_ask (aggregatedLineData st)) (q_ask q) in
  let '(midD, e3) := updateLineSeries bucketTime SMid (ld_mid (aggregatedLineData st)) m in
  let '(candleD, e4) := updateCandles bucketTime (aggregatedCandleData st) m in
  let '(updatedEMAs, e5) := calculateEMAs midD in
  (mkChartState allTicks (mkLineData bidD askD midD) candleD updatedEMAs,
   e1 ++ e2 ++ e3 ++ e4 ++ e5
      ++ updateLastEma SEma9 (ema9 updatedEMAs)
      ++ updateLastEma SEma20 (ema20 updatedEMAs)).

(** Feeding a sequence of quotes, one effect run per quote. *)
Definition replay (timeframe : number) (st : ChartState) (qs : list Quote) : ChartState :=
  fold_left (fun s q => fst (liveTick timeframe s q)) qs st.

(** *** Vocabulary of the statements *)

(** Before the first tick the line loop has pushed nothing. *)
Definition lineLoop_wf (st : LineLoop) : Prop :=
  current st = None -> bidData st = [] /\ askData st = [] /\ midData st = [].

(** The two variables of the candle loop are assigned together. *)
Definition candleLoop_wf (st : CandleLoop) : Prop :=
  currentCandleTime st = option_map c_time (currentCandle st) /\
  (currentCandle st = None -> candles st = []).

(** [low <= open, close <= high], for an order [le] on numbers. *)
Definition candle_ok (le : number -> number -> Prop) (c : Candle) : Prop :=
  le (low c) (open c) /\ le (low c) (close c) /\
  le (open c) (high c) /\ le (close c) (high c).

(** Arguments of the [ta.ema] calls among the events of a step. *)
Fixpoint emaCalls (events : list Event) : list (list number * nat) :=
  match events with
  | [] => []
  | TaEma closePrices period :: rest => (closePrices, period) :: emaCalls rest
  | _ :: rest => emaCalls rest
  end.

Definition SeriesId_eqb (a b : SeriesId) : bool :=
  match a, b with
  | SBid, SBid | SAsk, SAsk | SMid, SMid | SEma9, SEma9 | SEma20, SEma20 => true
  | _, _ => false
  end.

(** Points handed to [series.update] of one series during a step. *)
Fixpoint seriesUpdates (s : SeriesId) (events : list Event) : list LinePoint :=
  match events with
  | [] => []
  | SeriesUpdate s' p :: rest =>
      if SeriesId_eqb s s' then p :: seriesUpdates s rest else seriesUpdates s rest
  | _ :: rest => seriesUpdates s rest
  end.

(** The last element of an array, as a list of at most one element. *)
Definition lastOnly {A : Type} (l : list A) : list A :=
  match unsnoc l with
  | None => []
  | Some (_, x) => [x]
  end.

(** "The step on [q] hands the EMA computation the newest value at most":
    no [ta.ema] call of the step receives more than one close price. *)
Definition ema_calls_newest_only (timeframe : number) (st : ChartState) (q : Quote) : Prop :=
  forall closePrices period,
    In (closePrices, period) (emaCalls (snd (liveTick timeframe st q))) ->
    (List.length closePrices <= 1)%nat.

(** [st] with its [emaData] replaced. *)
Definition with_emaData (st : ChartState) (e : EMAData) : ChartState :=
  mkChartState (allTicksData st) (aggregatedLineData st) (aggregatedCandleData st) e.

End Chart.

Arguments Tick number : clear implicits.
Arguments LinePoint number : clear implicits.
Arguments Candle number : clear implicits.
Arguments LineData number : clear implicits.
Arguments EMAData number : clear implicits.
Arguments LineLoop number : clear implicits.
Arguments CandleLoop number : clear implicits.
Arguments ChartState number : clear implicits.
Arguments Quote number : clear implicits.
Arguments Event number : clear implicits.

(* ---------------------------------------------------------------------- *)
(** ** Test vectors                                                         *)
(* ---------------------------------------------------------------------- *)

(** Three quotes in three consecutive one-minute buckets, and one more in
    the last of them. *)
Definition quote_a : Quote Q := mkQuote (js_int 5) (js_int 10) (js_int 12).
Definition quote_b : Quote Q := mkQuote (js_int 65) (js_int 20) (js_int 22).
Definition quote_c : Quote Q := mkQuote (js_int 125) (js_int 30) (js_int 32).
Definition quote_d : Quote Q := mkQuote (js_int 130) (js_int 14) (js_int 16).

(** Encoders for the byte layouts, to write buffers down. *)
Definition byte_of (v : Z) : byte :=
  match Byte.of_N (Z.to_N (v mod 256)) with
  | Some b => b
  | None => x00
  end.

Fixpoint le_bytes (n : nat) (v : Z) : list byte :=
  match n with
  | O => []
  | S n' => byte_of v :: le_bytes n' (v / 256)
  end.

Definition tick_header (numRows initialTimestampUs : Z) : list byte :=
  magic_TICK ++ [x01] ++ le_bytes 4 numRows ++ le_bytes 8 initialTimestampUs.

Definition tick_row (deltaUs bidScaled askScaled bidSize askSize : Z) : list byte :=
  le_bytes 8 deltaUs ++ le_bytes 4 bidScaled ++ le_bytes 4 askScaled
           ++ le_bytes 4 bidSize ++ le_bytes 4 askSize.

(** The two-row buffer of the spec's example. *)
Definition example_ticks : list byte :=
  tick_header 2 1700000000000000
  ++ tick_row 0 150000 150200 100 100
  ++ tick_row 500000 150100 150300 50 50.

(** Two rows, each with a delta of one second. *)
Definition example_equal_deltas : list byte :=
  tick_header 2 1700000000000000
  ++ tick_row 1000000 150000 150200 100 100
  ++ tick_row 1000000 150100 150300 50 50.

(** One row, 1007 microseconds past [2^53]. *)
Definition example_late : list byte :=
  tick_header 1 9007199254741999 ++ tick_row 0 150000 150200 100 100.

(** The example, cut five bytes short of its second row. *)
Definition example_truncated : list byte := firstn 60 example_ticks.

(** A level-2 buffer: timestamp, the mapping "0:NASDAQ", and one row with a
    price delta of 123457. *)
Definition example_l2 : list byte :=
  le_bytes 8 1700000000000 ++ le_bytes 4 8
  ++ [x30; x3a; x4e; x41; x53; x44; x41; x51]
  ++ le_bytes 4 5 ++ le_bytes 4 123457 ++ le_bytes 4 100 ++ [x00; x00].

(** A label lookup that knows code 0 only. *)
Definition example_labels (mapping : list byte) (code : Z) : string :=
  if code =? 0 then "NASDAQ"%string else "UNKNOWN"%string.

(** Thirty-eight ticks within one second, 20 ms apart. *)
Definition example_tick_at (ms : Z) : DecodedTick :=
  mkDecodedTick ms ms "1.50000" "1.50200" "1.00" "1.00"
                "1.50000" "1.50200" "1.00" "1.00".

Definition example_crowded_second : list DecodedTick :=
  map (fun i => example_tick_at (1700000000000 + 20 * Z.of_nat i)) (seq 0 38).

(** Two ticks in one second, 300 ms and 700 ms into it, and one alone in
    the next second, 300 ms into it. *)
Definition example_three_ticks : list DecodedTick :=
  [mkDecodedTick 1700000000300 1700000000300
                 "1.50000" "1.50200" "1.00" "1.00" "1.50000" "1.50200" "1.00" "1.00";
   mkDecodedTick 1700000000700 1700000000700
                 "1.50100" "1.50300" "0.50" "0.50" "1.50100" "1.50300" "0.50" "0.50";
   mkDecodedTick 1700000001300 1700000001300
                 "1.50200" "1.50400" "0.50" "0.50" "1.50200" "1.50400" "0.50" "0.50"].

(** The quotes of the first two of these ticks, at their adjusted times. *)
Definition quote_tick0 : Quote Q :=
  mkQuote (js_int 1700000000) (fl (150000 # 100000)) (fl (150200 # 100000)).
Definition quote_tick1 : Quote Q :=
  mkQuote (3400000001 # 2)%Q (fl (150100 # 100000)) (fl (150300 # 100000)).


(* ---------------------------------------------------------------------- *)
(** ** Further vocabulary and functions                                     *)
(* ---------------------------------------------------------------------- *)

(** *** TimestampSynthesizer *)

(** Order of the comparator [(a, b) => a.adjustedTimestamp - b.adjustedTimestamp]. *)
Definition adjusted_le (a b : ProcessedTick) : Prop :=
  (adjustedTimestamp a <= adjustedTimestamp b)%Q.

(** Strict order of the adjusted timestamps, and their being different. *)
Definition adjusted_lt (a b : ProcessedTick) : Prop :=
  (adjustedTimestamp a < adjustedTimestamp b)%Q.

Definition adjusted_differ (a b : ProcessedTick) : Prop :=
  ~ (adjustedTimestamp a == adjustedTimestamp b)%Q.

(** The second a processed tick belongs to. *)
Definition secondOf (p : ProcessedTick) : Z := secondTimestampOf (p_tick p).

(** *** TickCodec *)

(** Whether the date built for row [k] is valid, that is, whether
    [toISOString] returns for it. *)
Definition row_time_valid (buffer : list byte) (initial k : Z) : bool :=
  match row_deltaTimeUs buffer k with
  | Some delta =>
      match timeValueOfUs (initial + delta) with Some _ => true | None => false end
  | None => false
  end.

(** The same for each of the rows [0 .. N-1]. *)
Definition all_row_times_valid (buffer : list byte) (initial N : Z) : bool :=
  forallb (fun k => row_time_valid buffer initial (Z.of_nat k)) (seq 0 (Z.to_nat N)).

(** *** Aggregator: runs of ticks *)

Section ChartRuns.
Context {number : Type} `{JsNumberOps number}.

(** The ticks cut into runs, as both aggregation loops cut them: a tick
    starts a new run when its bucket time differs ([!==]) from the bucket
    time of the first tick of the run.  A run is its first tick and the
    ticks after it. *)
Fixpoint runs_from (tf : number) (first : Tick number) (rest ticks : list (Tick number))
  : list (Tick number * list (Tick number)) :=
  match ticks with
  | [] => [(first, rest)]
  | tick :: ticks' =>
      if strict_ne (bucketOf (time first) tf) (bucketOf (time tick) tf)
      then (first, rest) :: runs_from tf tick [] ticks'
      else runs_from tf first (rest ++ [tick]) ticks'
  end.

Definition bucketRuns (tf : number) (ticks : list (Tick number))
  : list (Tick number * list (Tick number)) :=
  match ticks with
  | [] => []
  | tick :: ticks' => runs_from tf tick [] ticks'
  end.

Definition run_ticks (r : Tick number * list (Tick number)) : list (Tick number) :=
  fst r :: snd r.

Definition run_last (r : Tick number * list (Tick number)) : Tick number :=
  last (snd r) (fst r).

(** The candle of a run: opened at the mid of the first tick, closed at
    the mid of the last, [Math.max] and [Math.min] taken over the mids in
    order. *)
Definition run_candle (tf : number) (r : Tick number * list (Tick number)) : Candle number :=
  mkCandle (bucketOf (time (fst r)) tf)
           (mid (fst r))
           (fold_left math_max (map mid (snd r)) (mid (fst r)))
           (fold_left math_min (map mid (snd r)) (mid (fst r)))
           (mid (run_last r)).

(** The line point of a run: the value of the last tick. *)
Definition run_point (tf : number) (field : Tick number -> number)
           (r : Tick number * list (Tick number)) : LinePoint number :=
  mkPoint (bucketOf (time (fst r)) tf) (field (run_last r)).

(** A point of an EMA series: the value at some index of what [ta.ema]
    returned, neither [null] nor NaN, at the time of the mid point of that
    index. *)
Definition kept_value (midData : list (LinePoint number))
           (emaValues : list (option number)) (p : LinePoint number) : Prop :=
  exists i d v,
    nth_error midData i = Some d /\ nth_error emaValues i = Some (Some v) /\
    is_nan v = false /\ p = mkPoint (lp_time d) v.

End ChartRuns.

(** Ticks in the order of their times. *)
Definition time_le (a b : Tick Q) : Prop := (time a <= time b)%Q.

(** *** The chart component: the timeframe effect and the reset effect

    As for the live-tick effect, the series are taken to be created, so
    that the guards on [seriesRefs.current] pass, and the calls on the
    chart library are taken not to throw.  The markers and the options
    of the time scale, which touch none of the references below, are left
    out. *)

Section ChartEffects.
Context {number : Type} `{JsNumberOps number}.
Variable ta_ema : list number -> nat -> list (option number).

(** Calls of [setData] on the series. *)
Inductive SetData : Type :=
| SetLineData (s : SeriesId) (data : list (LinePoint number))
| SetCandleData (data : list (Candle number)).

(** The effect that depends on [timeframe]: nothing happens while no tick
    is recorded; otherwise the recorded ticks are aggregated anew. *)
Definition timeframeEffect (timeframe : number) (st : ChartState number)
  : ChartState number * list SetData :=
  match allTicksData st with
  | [] => (st, [])
  | _ =>
      let newLineData := aggregateLineData (allTicksData st) timeframe in
      let newCandleData := aggregateCandleData (allTicksData st) timeframe in
      let newEMAs := fst (calculateEMAs ta_ema (ld_mid newLineData)) in
      (mkChartState (allTicksData st) newLineData newCandleData newEMAs,
       [SetLineData SBid (ld_bid newLineData);
        SetLineData SAsk (ld_ask newLineData);
        SetLineData SMid (ld_mid newLineData);
        SetCandleData newCandleData;
        SetLineData SEma9 (ema9 newEMAs);
        SetLineData SEma20 (ema20 newEMAs)])
  end.

(** The effect that depends on [sessionData.stats?.quoteCount]: it returns
    the references and the new value of [lastQuoteCountRef]. *)
Definition resetEffect (currentQuoteCount lastQuoteCount : Z) (st : ChartState number)
  : ChartState number * Z * list SetData :=
  if (0 <? lastQuoteCount) && (currentQuoteCount =? 0)
  then (chart_init, currentQuoteCount,
        [SetLineData SBid []; SetLineData SAsk []; SetLineData SMid [];
         SetCandleData []; SetLineData SEma9 []; SetLineData SEma20 []])
  else (st, currentQuoteCount, []).

(** The references of the component, with the timeframe that the effects
    last ran with.  The timeframe effect is declared before the live-tick
    effect and both depend on [timeframe]: when the timeframe changes, the
    timeframe effect runs with the new value before any live tick does. *)
Record Component : Type := mkComponent {
  c_timeframe : number;
  lastQuoteCountRef : Z;
  refs : ChartState number }.

Inductive EffectRun : Type :=
| RunTimeframe (timeframe : number)
| RunQuoteCount (currentQuoteCount : Z)
| RunLiveTick (q : Quote number).

Definition runEffect (c : Component) (r : EffectRun) : Component :=
  match r with
  | RunTimeframe timeframe =>
      mkComponent timeframe (lastQuoteCountRef c) (fst (timeframeEffect timeframe (refs c)))
  | RunQuoteCount currentQuoteCount =>
      let '(st, lastCount, _) :=
        resetEffect currentQuoteCount (lastQuoteCountRef c) (refs c) in
      mkComponent (c_timeframe c) lastCount st
  | RunLiveTick q =>
      mkComponent (c_timeframe c) (lastQuoteCountRef c)
                  (fst (liveTick ta_ema (c_timeframe c) (refs c) q))
  end.

Definition runEffects (c : Component) (rs : list EffectRun) : Component :=
  fold_left runEffect rs c.

(** The ticks recorded by a sequence of effect runs: a live tick adds its
    tick, a reset forgets all. *)
Definition recordEffect (acc : list (Tick number) * Z) (r : EffectRun)
  : list (Tick number) * Z :=
  match r with
  | RunTimeframe _ => acc
  | RunQuoteCount currentQuoteCount =>
      if (0 <? snd acc) && (currentQuoteCount =? 0)
      then ([], currentQuoteCount)
      else (fst acc, currentQuoteCount)
  | RunLiveTick q => (push (fst acc) (tick_of_quote q), snd acc)
  end.

Definition recordedTicks (rs : list EffectRun) : list (Tick number) :=
  fst (fold_left recordEffect rs ([], 0)).

(** What is kept for the chart is what a full aggregation of the recorded
    ticks gives. *)
Definition chart_consistent (timeframe : number) (st : ChartState number) : Prop :=
  aggregatedLineData st = aggregateLineData (allTicksData st) timeframe /\
  aggregatedCandleData st = aggregateCandleData (allTicksData st) timeframe /\
  emaData st = fst (calculateEMAs ta_ema (ld_mid (aggregatedLineData st))).

End ChartEffects.

Arguments SetData number : clear implicits.
Arguments Component number : clear implicits.
Arguments EffectRun number : clear implicits.

(** *** Loading a session: [api.loadSessionData] *)

(** What [fetch] and [pako.inflate] give for a file; both are outside the
    sources. *)
Inductive Download : Type :=
| Rejected                       (* [fetch], [arrayBuffer] or [pako.inflate] throws *)
| NotOk                          (* [response.ok] is false *)
| Inflated (bytes : list byte).  (* the decompressed bytes *)

Inductive LoadError : Type :=
| Error_FailedToLoad             (* [throw new Error(`Failed to load session data: ...`)] *)
| Error_Download                 (* what [fetch] or [pako.inflate] threw *)
| Error_Decode (e : JsError).    (* what [parseBinaryData] threw *)

(** The array returned, with its [level2Data] property ([None]: not set). *)
Record SessionData : Type := mkSessionData {
  processedData : list ProcessedTick;
  level2Data : option (list L2Entry) }.

Section Api.
Variable exchangeLabel : list byte -> Z -> string.

(** The [try] block: [level2Data] stays [null] unless the response is ok
    and the decode returns. *)
Definition loadLevel2 (l2 : Download) : option (list L2Entry) :=
  match l2 with
  | Inflated l2Decompressed =>
      match parseBinaryLevel2Data exchangeLabel l2Decompressed with
      | Return entries => Some entries
      | Throw _ => None
      end
  | _ => None
  end.

(** [main] is the download of [<sessionId>.bin.gz], [l2] that of
    [<sessionId>-l2.bin.gz].  An array is truthy, so [level2Data] is set
    whenever the level-2 decode returned, be it without entries. *)
Definition loadSessionData (main l2 : Download) : LoadError + SessionData :=
  match main with
  | Rejected => inl Error_Download
  | NotOk => inl Error_FailedToLoad
  | Inflated decompressed =>
      match parseBinaryData decompressed with
      | Throw e => inl (Error_Decode e)
      | Return parsedData =>
          let level2Data := loadLevel2 l2 in
          let processedData := preprocessTimestamps parsedData in
          inr (mkSessionData processedData level2Data)
      end
  end.

End Api.

(** *** [api.getSessionMetadata] *)

(** What [parseFloat] returns.  The embedding covers decimal strings: an
    optional sign, digits, and optionally a point and digits, of at most
    twenty digits in all, whatever follows them.  For a string that could
    hold an exponent part, [Infinity] or leading white space it answers
    [PF_unmodelled] rather than a number. *)
Inductive ParsedFloat : Type :=
| PF_number (x : Q)
| PF_NaN
| PF_unmodelled.

(** The longest prefix of digits, and what follows it. *)
Fixpoint span_digits (s : string) : string * string :=
  match s with
  | EmptyString => (EmptyString, EmptyString)
  | String c rest =>
      if is_digit c
      then let '(ds, r) := span_digits rest in (String c ds, r)
      else (EmptyString, s)
  end.

Definition starts_with (p : ascii -> bool) (s : string) : bool :=
  match s with
  | EmptyString => false
  | String c _ => p c
  end.

Definition is_exponent_mark (c : ascii) : bool :=
  Ascii.eqb c "e"%char || Ascii.eqb c "E"%char.

(** White space, or a byte of a character outside ASCII. *)
Definition may_be_space (c : ascii) : bool :=
  (nat_of_ascii c <=? 32)%nat || (127 <=? nat_of_ascii c)%nat.

Definition parseFloat (s : string) : ParsedFloat :=
  let '(negative, unsigned) :=
    match s with
    | String c r =>
        if Ascii.eqb c "-"%char then (true, r)
        else if Ascii.eqb c "+"%char then (false, r)
        else (false, s)
    | EmptyString => (false, s)
    end in
  let '(intPart, afterInt) := span_digits unsigned in
  let '(fracPart, rest) :=
    match afterInt with
    | String c r => if Ascii.eqb c "."%char then span_digits r else (EmptyString, afterInt)
    | EmptyString => (EmptyString, afterInt)
    end in
  let digits := (String.length intPart + String.length fracPart)%nat in
  if (digits =? 0)%nat then
    if starts_with may_be_space s || starts_with (Ascii.eqb "I"%char) unsigned
    then PF_unmodelled
    else PF_NaN
  else if starts_with is_exponent_mark rest || (20 <? digits)%nat then PF_unmodelled
  else
    let f := Z.of_nat (String.length fracPart) in
    let mv := (inject_Z (digits_value intPart * 10 ^ f + digits_value fracPart)
               / inject_Z (10 ^ f))%Q in
    PF_number (fl (if negative then - mv else mv)%Q).

(** [Math.round(x)]: the nearest integer, the larger one of two. *)
Definition math_round (x : Q) : Z := Qfloor (x + (1 # 2)).

(** The object returned; the two ISO strings are represented by their
    time values. *)
Record Metadata : Type := mkMetadata {
  px_start : ParsedFloat;
  px_end : ParsedFloat;
  duration_m : Z;
  tickCount : Z;
  startTime : Z;
  endTime : Z }.

Section ApiMetadata.
Variable exchangeLabel : list byte -> Z -> string.

(** [null] is [None].  [tick.timestamp] and [tick.priceBid] are strings
    that are not empty, so the alternatives after [||] are not read; the
    dates built from the ISO strings are valid, so [toISOString] returns. *)
Definition getSessionMetadata (main l2 : Download) : option Metadata :=
  match loadSessionData exchangeLabel main l2 with
  | inl _ => None
  | inr data =>
      match processedData data with
      | [] => None
      | firstTick :: _ =>
          let lastTick := last (processedData data) firstTick in
          let startTime := timestamp (p_tick firstTick) in
          let endTime := timestamp (p_tick lastTick) in
          let durationMs := js_sub (js_int endTime) (js_int startTime) in
          let durationMinutes := math_round (js_div durationMs (js_int 60000)) in
          Some (mkMetadata (parseFloat (priceBid (p_tick firstTick)))
                           (parseFloat (priceBid (p_tick lastTick)))
                           durationMinutes
                           (Z.of_nat (List.length (processedData data)))
                           startTime endTime)
      end
  end.

End ApiMetadata.

(** *** L2Codec *)

(** The byte of row [i] at [field]. *)
Definition l2_row_uint8 (buffer : list byte) (offset i field : Z) : Z :=
  match getUint8 buffer (offset + i * l2_rowSize + field) with
  | Return n => n
  | Throw _ => 0
  end.

(** What the entry of row [k] holds besides its time and price. *)
Definition l2_entry_of_row (exchangeLabel : list byte -> Z -> string)
           (buffer mappingBytes : list byte) (offset : Z) (k : nat) (e : L2Entry) : Prop :=
  size e = l2_row_int32 buffer offset (Z.of_nat k) 8 /\
  entry_type e = l2_row_uint8 buffer offset (Z.of_nat k) 12 /\
  exchange e = exchangeLabel mappingBytes (l2_row_uint8 buffer offset (Z.of_nat k) 13) /\
  0 <= entry_type e <= 255 /\
  Z.abs (l2_timestamp e) <= maxTimeValue.

(** *** [api.getSessions]

    Strings are taken to hold ASCII characters, one byte for each. *)

(** [s.endsWith(suffix)] *)
Definition endsWith (s suffix : string) : bool :=
  let n := String.length s in
  let m := String.length suffix in
  (m <=? n)%nat && String.eqb (substring (n - m) m s) suffix.

(** [s] without its first [n] characters. *)
Fixpoint drop (n : nat) (s : string) : string :=
  match n, s with
  | O, _ => s
  | S n', String _ rest => drop n' rest
  | S _, EmptyString => EmptyString
  end.

(** [s.replace(pattern, replacement)] for a string [pattern] and a
    [replacement] without [$]: the first occurrence is replaced. *)
Fixpoint replaceFirst (pattern replacement s : string) : string :=
  if prefix pattern s then (replacement ++ drop (String.length pattern) s)%string
  else
    match s with
    | EmptyString => EmptyString
    | String c rest => String c (replaceFirst pattern replacement rest)
    end.

(** [s.split(sep)] for a separator of one character. *)
Fixpoint splitOn (sep : ascii) (s : string) : list string :=
  match s with
  | EmptyString => [EmptyString]
  | String c rest =>
      if Ascii.eqb c sep then EmptyString :: splitOn sep rest
      else
        match splitOn sep rest with
        | part :: parts => String c part :: parts
        | [] => [String c EmptyString]
        end
  end.

(** [s.slice(from, to)] for [0 <= from <= to]. *)
Definition slice (from to : nat) (s : string) : string := substring from (to - from) s.

(** An entry of the listing that the GitHub API returns. *)
Record RepoFile : Type := mkRepoFile {
  file_name : string;
  file_type : string;
  file_size : Z;
  file_download_url : string }.

(** A session; [None] is [undefined] for the date and [null] for the four
    fields filled in later. *)
Record SessionInfo : Type := mkSessionInfo {
  session_id : string;
  session_name : string;
  session_symbol : string;
  session_date : option string;
  session_size : Z;
  session_download_url : string;
  session_px_start : option Q;
  session_px_end : option Q;
  session_duration_m : option Z;
  session_tickCount : option Z }.

(** The predicate of [files.filter]. *)
Definition isSessionFile (file : RepoFile) : bool :=
  endsWith (file_name file) ".bin.gz"
  && negb (endsWith (file_name file) "-l2.bin.gz")
  && String.eqb (file_type file) "file".

(** The function of [binaryFiles.map]. *)
Definition sessionOfFile (file : RepoFile) : SessionInfo :=
  let nameWithoutExt := replaceFirst ".bin.gz" "" (file_name file) in
  let parts := splitOn "-"%char nameWithoutExt in
  let symbol := hd EmptyString parts in
  let dateStr := nth_error parts 1 in
  let formattedDate :=
    match dateStr with
    | Some d =>
        if (String.length d =? 8)%nat
        then Some (slice 0 4 d ++ "-" ++ slice 4 6 d ++ "-" ++ slice 6 8 d)%string
        else Some d
    | None => None
    end in
  mkSessionInfo nameWithoutExt nameWithoutExt symbol formattedDate
                (file_size file) (file_download_url file) None None None None.

(** [ok] is [response.ok], [files] the listing; the error is that of
    [throw new Error('Failed to fetch sessions from GitHub')]. *)
Definition getSessions (ok : bool) (files : list RepoFile) : string + list SessionInfo :=
  if ok then inr (map sessionOfFile (filter isSessionFile files))
  else inl "Failed to fetch sessions from GitHub"%string.

(** Whether [c] occurs in [s]. *)
Fixpoint has_char (c : ascii) (s : string) : bool :=
  match s with
  | EmptyString => false
  | String d rest => Ascii.eqb d c || has_char c rest
  end.

(** *** The live-tick effect: what the candle series is told *)

Section ChartCalls.
Context {number : Type} `{JsNumberOps number}.

(** Candles handed to [candlestick.update] during a step. *)
Fixpoint candleUpdates (events : list (Event number)) : list (Candle number) :=
  match events with
  | [] => []
  | CandlestickUpdate c :: rest => c :: candleUpdates rest
  | _ :: rest => candleUpdates rest
  end.

End ChartCalls.

(** *** Further test vectors *)

(** Three ticks that arrive out of order: two of second 1700000001 around
    one of second 1700000000. *)
Definition example_out_of_order : list DecodedTick :=
  [example_tick_at 1700000001700; example_tick_at 1700000000900;
   example_tick_at 1700000001300].

(** Sixteen bytes that do not start with "TICK". *)
Definition example_short_header : list byte := repeat x00 16.

(** A complete header with the magic "TOCK", and one row. *)
Definition example_bad_magic : list byte :=
  [x54; x4f; x43; x4b] ++ [x01] ++ le_bytes 4 1 ++ le_bytes 8 1700000000000000
  ++ tick_row 0 150000 150200 100 100.

(** One row whose time, [2^64 - 1] microseconds, is beyond the range of
    [Date]. *)
Definition example_far_future : list byte :=
  tick_header 1 18446744073709551615 ++ tick_row 0 150000 150200 100 100.

(** Two rows announced at [2^64 - 1] microseconds, the buffer cut five bytes
    short of its second row. *)
Definition example_truncated_far_future : list byte :=
  firstn 60 (tick_header 2 18446744073709551615
             ++ tick_row 0 150000 150200 100 100
             ++ tick_row 500000 150100 150300 50 50).

(** A level-2 header whose mapping length, 1000, points past the end. *)
Definition example_l2_overlong : list byte :=
  le_bytes 8 1700000000000 ++ le_bytes 4 1000 ++ [x30; x3a; x4e].

(** The two ticks that [example_ticks] decodes to. *)
Definition example_decoded : list DecodedTick :=
  [mkDecodedTick 1700000000000 1700000000000
                 "1.50000" "1.50200" "1.00" "1.00" "1.50000" "1.50200" "1.00" "1.00";
   mkDecodedTick 1700000000500 1700000000500
                 "1.50100" "1.50300" "0.50" "0.50" "1.50100" "1.50300" "0.50" "0.50"].

(** The metadata of the session of [example_ticks]. *)
Definition example_metadata : Metadata :=
  mkMetadata (PF_number (fl (150000 # 100000))) (PF_number (fl (150100 # 100000)))
             0 2 1700000000000 1700000000500.

(** A listing with a session file, its level-2 companion and a read-me. *)
Definition example_session_file : RepoFile :=
  mkRepoFile "AAPL-20240115.bin.gz" "file" 4096 "https://example.org/AAPL-20240115.bin.gz".
Definition example_l2_file : RepoFile :=
  mkRepoFile "AAPL-20240115-l2.bin.gz" "file" 8192 "https://example.org/AAPL-20240115-l2.bin.gz".
(* ====================================================================== *)
(** * Part II: statements and proofs                                       *)
(* ====================================================================== *)

(** ** Arrays *)

Lemma unsnoc_push {A : Type} (l : list A) (x : A) :
  unsnoc (push l x) = Some (l, x).
Proof.
  unfold push. induction l as [|a l IH]; simpl.
  - reflexivity.
  - rewrite IH. reflexivity.
Qed.

Lemma unsnoc_none {A : Type} (l : list A) : unsnoc l = None -> l = [].
Proof.
  destruct l as [|a l]; simpl; [reflexivity|].
  destruct (unsnoc l) as [[i z]|]; discriminate.
Qed.

Lemma unsnoc_some {A : Type} (l i : list A) (z : A) :
  unsnoc l = Some (i, z) -> l = push i z.
Proof.
  revert i z. induction l as [|a l IH]; simpl; intros i z E; [discriminate|].
  destruct (unsnoc l) as [[i' z']|] eqn:U.
  - inversion E; subst. rewrite (IH i' z eq_refl). reflexivity.
  - inversion E; subst. rewrite (unsnoc_none _ U). reflexivity.
Qed.


(** ** JavaScript numbers: rounding to binary64 *)

Section Rounding.
Local Open Scope Q_scope.

Lemma pow2_pos e : 0 < pow2 e.
Proof. apply Qpower_0_lt. reflexivity. Qed.

Lemma pow2_plus a b : pow2 (a + b) == pow2 a * pow2 b.
Proof. apply Qpower_plus. discriminate. Qed.

Lemma pow2_Z e : (0 <= e)%Z -> pow2 e == inject_Z (2 ^ e).
Proof. intros. unfold pow2. rewrite Zpower_Qpower by assumption. reflexivity. Qed.

Lemma pow2_succ e : pow2 (e + 1) == 2 * pow2 e.
Proof. rewrite pow2_plus. change (pow2 1) with (2#1). ring. Qed.

Lemma pow2_le a b : (a <= b)%Z -> pow2 a <= pow2 b.
Proof. intros. apply Qpower_le_compat_l; [assumption| discriminate]. Qed.

Lemma binade_spec q : 0 < q -> pow2 (binade q) <= q < pow2 (binade q + 1).
Proof.
intros Hq. destruct q as [n d]. unfold binade. cbn [Qnum Qden].
assert (Hn : (0 < n)%Z) by (unfold Qlt in Hq; simpl in Hq; lia).
set (ln := Z.log2 n). set (ld := Z.log2 (Zpos d)).
destruct (Z.log2_spec n Hn) as [Hn1 Hn2]. fold ln in Hn1, Hn2.
destruct (Z.log2_spec (Zpos d) (Pos2Z.is_pos d)) as [Hd1 Hd2]. fold ld in Hd1, Hd2.
assert (Lln : (0 <= ln)%Z) by apply Z.log2_nonneg.
assert (Lld : (0 <= ld)%Z) by apply Z.log2_nonneg.
assert (Q : n # d == inject_Z n / inject_Z (Zpos d)) by apply Qmake_Qdiv.
assert (Dpos : 0 < inject_Z (Zpos d)) by (unfold Qlt; simpl; lia).
assert (Up : (n # d) < pow2 (ln - ld + 1)).
{ rewrite Q. apply Qlt_shift_div_r; [assumption|].
  apply Qlt_le_trans with (inject_Z (2 ^ Z.succ ln)).
  - rewrite <- Zlt_Qlt. assumption.
  - rewrite <- pow2_Z by lia.
    replace (Z.succ ln) with ((ln - ld + 1) + ld)%Z by lia.
    rewrite pow2_plus. apply Qmult_le_l; [apply pow2_pos|].
    rewrite pow2_Z by lia. rewrite <- Zle_Qle. assumption. }
assert (Lo : pow2 (ln - ld - 1) <= (n # d)).
{ rewrite Q. apply Qle_shift_div_l; [assumption|].
  apply Qle_trans with (inject_Z (2 ^ ln)).
  - rewrite <- pow2_Z by lia.
    replace ln with ((ln - ld - 1) + (ld + 1))%Z at 2 by lia.
    rewrite pow2_plus. apply Qmult_le_l; [apply pow2_pos|].
    rewrite pow2_Z by lia. rewrite <- Zle_Qle.
    replace (ld + 1)%Z with (Z.succ ld) by lia. lia.
  - rewrite <- Zle_Qle. assumption. }
destruct (Qle_bool (pow2 (ln - ld)) (n # d)) eqn:B.
- apply Qle_bool_iff in B. split; assumption.
- split; [assumption|].
  replace (ln - ld - 1 + 1)%Z with (ln - ld)%Z by lia.
  apply Qnot_le_lt. intro C. apply Qle_bool_iff in C. congruence.
Qed.

Lemma rne_err x : Qabs (inject_Z (rne x) - x) <= 1 # 2.
Proof.
unfold rne. pose proof (Qfloor_le x) as L. pose proof (Qlt_floor x) as U.
rewrite inject_Z_plus in U. change (inject_Z 1) with 1 in U.
apply Qabs_Qle_condition.
destruct (Qcompare_spec (x - inject_Z (Qfloor x)) (1 # 2)) as [E|E|E].
- destruct (Z.even (Qfloor x)); rewrite ?inject_Z_plus; change (inject_Z 1) with 1; lra.
- lra.
- rewrite inject_Z_plus. change (inject_Z 1) with 1. lra.
Qed.

Lemma rne_int x n : x == inject_Z n -> rne x = n.
Proof.
intros E. unfold rne. rewrite (Qfloor_comp _ _ E), Qfloor_Z.
destruct (Qcompare_spec (x - inject_Z n) (1 # 2)) as [C|C|C]; try lra. reflexivity.
Qed.

Lemma rne_nonneg x : 0 <= x -> (0 <= rne x)%Z.
Proof.
intros Hx. unfold rne.
assert (0 <= Qfloor x)%Z by (change 0%Z with (Qfloor 0); apply Qfloor_resp_le; assumption).
destruct (Qcompare _ _); [destruct (Z.even _)| |]; lia.
Qed.

Lemma fl_compat p q : p == q -> fl p = fl q.
Proof. intros E. unfold fl. rewrite (Qred_complete _ _ E). reflexivity. Qed.

Lemma fl_0 : fl 0 = 0.
Proof. reflexivity. Qed.


Lemma rne_compat x y : x == y -> rne x = rne y.
Proof.
intros E. unfold rne. rewrite (Qfloor_comp _ _ E).
assert (C : (x - inject_Z (Qfloor y) ?= 1 # 2) = (y - inject_Z (Qfloor y) ?= 1 # 2)).
{ rewrite E. reflexivity. }
rewrite C. reflexivity.
Qed.

Lemma fl_exp_spec q : ~ q == 0 -> pow2 (fl_exp q) <= Qabs q < pow2 (fl_exp q + 1).
Proof.
intros NZ. unfold fl_exp.
assert (P : 0 < Qabs (Qred q)).
{ assert (E : Qabs (Qred q) == Qabs q) by (rewrite Qred_correct; reflexivity).
  rewrite E. pose proof (Qabs_nonneg q) as N.
  destruct (Qlt_le_dec 0 (Qabs q)) as [|LE]; [assumption|exfalso].
  apply Qabs_Qle_condition in LE. apply NZ. lra. }
pose proof (binade_spec _ P) as S.
assert (E : Qabs (Qred q) == Qabs q) by (rewrite Qred_correct; reflexivity).
lra.
Qed.

Lemma fl_eq q : ~ q == 0 ->
fl q == inject_Z (rne (q * pow2 (52 - fl_exp q))) * pow2 (fl_exp q - 52).
Proof.
intros NZ. unfold fl, fl_exp. cbv zeta.
destruct (Qeq_bool (Qred q) 0) eqn:B.
- apply Qeq_bool_iff in B. rewrite Qred_correct in B. contradiction.
- etransitivity; [apply Qred_correct|].
  rewrite (rne_compat (Qred q * _) (q * pow2 (52 - binade (Qabs (Qred q))))).
  + reflexivity.
  + apply Qmult_comp; [apply Qred_correct|reflexivity].
Qed.

(** Absolute error: half a unit in the last place. *)
Lemma fl_abs_err q : ~ q == 0 -> Qabs (fl q - q) <= pow2 (fl_exp q - 53).
Proof.
intros NZ. rewrite (fl_eq q NZ). set (e := fl_exp q).
pose proof (rne_err (q * pow2 (52 - e))) as R.
set (m := inject_Z (rne (q * pow2 (52 - e)))) in *.
assert (P1 : pow2 (52 - e) * pow2 (e - 52) == 1).
{ rewrite <- pow2_plus. replace (52 - e + (e - 52))%Z with 0%Z by lia. reflexivity. }
assert (P2 : pow2 (e - 53) * 2 == pow2 (e - 52)).
{ replace (e - 52)%Z with (e - 53 + 1)%Z by lia. rewrite pow2_succ. ring. }
pose proof (pow2_pos (e - 52)) as Pp. pose proof (pow2_pos (52 - e)) as Pq.
pose proof (pow2_pos (e - 53)) as Pr.
apply Qabs_Qle_condition in R. apply Qabs_Qle_condition.
set (a := pow2 (e - 52)) in *. set (b := pow2 (52 - e)) in *. set (c := pow2 (e - 53)) in *.
assert (E : q == q * b * a) by (rewrite <- Qmult_assoc, P1; ring).
destruct R as [R1 R2].
assert (G1 : (m - q * b) * a <= (1#2) * a) by (apply Qmult_le_compat_r; lra).
assert (G2 : (- (1#2)) * a <= (m - q * b) * a) by (apply Qmult_le_compat_r; lra).
split; nra.
Qed.

(** Relative error: at most [2^-53]. *)
Lemma fl_rel_err q : Qabs (fl q - q) <= Qabs q * pow2 (-53).
Proof.
destruct (Qeq_dec q 0) as [Z|NZ].
- rewrite (fl_compat _ _ Z), fl_0, Z. simpl. unfold Qle; simpl; lia.
- eapply Qle_trans; [apply fl_abs_err; assumption|].
  destruct (fl_exp_spec q NZ) as [L _].
  replace (fl_exp q - 53)%Z with (fl_exp q + (-53))%Z by lia.
  rewrite pow2_plus. apply Qmult_le_compat_r; [assumption|].
  apply Qlt_le_weak, pow2_pos.
Qed.

Lemma fl_nonneg q : 0 <= q -> 0 <= fl q.
Proof.
intros Hq. destruct (Qeq_dec q 0) as [Z|NZ].
- rewrite (fl_compat _ _ Z), fl_0. lra.
- rewrite (fl_eq q NZ). apply Qmult_le_0_compat.
  + change 0 with (inject_Z 0). rewrite <- Zle_Qle. apply rne_nonneg.
    apply Qmult_le_0_compat; [assumption|apply Qlt_le_weak, pow2_pos].
  + apply Qlt_le_weak, pow2_pos.
Qed.

Lemma pow2_lt_inv a b : pow2 a < pow2 b -> (a < b)%Z.
Proof.
intros L. destruct (Z_lt_le_dec a b) as [|G]; [assumption|].
apply pow2_le in G. lra.
Qed.

Lemma fl_canon q : Qred (fl q) = fl q.
Proof.
unfold fl. cbv zeta. destruct (Qeq_bool (Qred q) 0); [reflexivity|].
apply Qred_complete, Qred_correct.
Qed.

Lemma Qred_inject_Z z : Qred (inject_Z z) = inject_Z z.
Proof.
unfold inject_Z, Qred. simpl.
pose proof (Z.ggcd_gcd z 1) as G. pose proof (Z.ggcd_correct_divisors z 1) as D.
destruct (Z.ggcd z 1) as [g [aa bb]]. simpl in *.
rewrite Z.gcd_1_r in G. subst g. destruct D as [D1 D2].
rewrite Z.mul_1_l in D1, D2. subst. reflexivity.
Qed.

(** Integers of magnitude at most [2^53] are doubles. *)
Lemma fl_int n : (Z.abs n <= 2 ^ 53)%Z -> fl (inject_Z n) = inject_Z n.
Proof.
intros B.
destruct (Z.eq_dec n 0) as [->|NZ]; [reflexivity|].
assert (NQ : ~ inject_Z n == 0).
{ intro C. apply NZ. unfold Qeq in C. simpl in C. lia. }
rewrite <- (Qred_inject_Z n) at 2. rewrite <- fl_canon. apply Qred_complete.
rewrite (fl_eq _ NQ). set (e := fl_exp (inject_Z n)).
destruct (fl_exp_spec _ NQ) as [L U]. fold e in L, U.
assert (A : Qabs (inject_Z n) == inject_Z (Z.abs n)) by reflexivity.
rewrite A in L.
assert (E52 : (e <= 53)%Z).
{ destruct (Z_le_gt_dec e 53) as [|G]; [assumption|exfalso].
  assert (pow2 54 <= pow2 e) by (apply pow2_le; lia).
  assert (inject_Z (Z.abs n) <= inject_Z (2 ^ 53)) by (rewrite <- Zle_Qle; assumption).
  rewrite <- pow2_Z in H0 by lia.
  assert (pow2 53 < pow2 54) by reflexivity. lra. }
destruct (Z_le_gt_dec e 52) as [LE|GT].
- (* scaled value is an integer *)
  rewrite (rne_int _ (n * 2 ^ (52 - e))).
  + rewrite inject_Z_mult, <- pow2_Z by lia. rewrite <- Qmult_assoc, <- pow2_plus.
    replace (52 - e + (e - 52))%Z with 0%Z by lia. change (pow2 0) with 1. ring.
  + rewrite inject_Z_mult, <- pow2_Z by lia. reflexivity.
- (* e = 53: |n| = 2^53 *)
  assert (e = 53)%Z by lia.
  assert (Z.abs n = 2 ^ 53)%Z.
  { rewrite H in L. rewrite pow2_Z in L by lia. rewrite <- Zle_Qle in L. lia. }
  rewrite H.
  destruct (Z.abs_eq_or_opp n) as [K|K]; rewrite H0 in K.
  + rewrite <- K. reflexivity.
  + assert (n = - 2 ^ 53)%Z by lia. subst n. reflexivity.
Qed.

Lemma inject_Z_pred (z : Z) : inject_Z (z - 1) == inject_Z z - 1.
Proof. unfold Z.sub. rewrite inject_Z_plus. reflexivity. Qed.

Lemma inject_Z_le_pred (a b : Z) : (a <= b - 1)%Z -> inject_Z a <= inject_Z b - 1.
Proof. intros L. rewrite <- inject_Z_pred, <- Zle_Qle. exact L. Qed.

(** Absolute error below a power of two. *)
Lemma fl_err_below q E : Qabs q < pow2 (E + 1) -> Qabs (fl q - q) <= pow2 (E - 53).
Proof.
intros B. destruct (Qeq_dec q 0) as [Z|NZ].
- rewrite (fl_compat _ _ Z), fl_0.
  assert (A : Qabs (0 - q) == 0) by (rewrite Z; reflexivity).
  rewrite A. apply Qlt_le_weak, pow2_pos.
- eapply Qle_trans; [apply fl_abs_err; exact NZ|].
  destruct (fl_exp_spec q NZ) as [L _].
  apply pow2_le. assert (fl_exp q < E + 1)%Z; [|lia].
  apply pow2_lt_inv. lra.
Qed.

Lemma fl_nonpos q : q <= 0 -> fl q <= 0.
Proof.
intros Hq. pose proof (fl_rel_err q) as R.
assert (P : pow2 (-53) <= 1) by (unfold Qle; simpl; lia).
assert (A : Qabs q == - q) by (apply Qabs_neg; exact Hq).
rewrite A in R. apply Qabs_Qle_condition in R. destruct R as [_ R].
assert (M : (- q) * pow2 (-53) <= (- q) * 1).
{ set (p := pow2 (-53)) in *. nra. }
lra.
Qed.

(** [floor(n / 1000)] and the truncation of [n / 1000] survive the rounding
  of the division, for integers [n] that are doubles. *)
Lemma fl_div1000 (n : Z) :
(Z.abs n <= 2 ^ 53)%Z ->
Qfloor (fl (inject_Z n / inject_Z 1000)) = (n / 1000)%Z /\
js_trunc (fl (inject_Z n / inject_Z 1000)) = Z.quot n 1000.
Proof.
intros B.
set (x := inject_Z n / inject_Z 1000).
pose proof (Z.div_mod n 1000 ltac:(lia)) as DM.
pose proof (Z.mod_pos_bound n 1000 ltac:(lia)) as MB.
set (q := (n / 1000)%Z) in *. set (r := (n mod 1000)%Z) in *.
assert (X : x == inject_Z q + inject_Z r / inject_Z 1000).
{ unfold x. rewrite DM, inject_Z_plus, inject_Z_mult. field. }
assert (R0 : 0 <= inject_Z r) by (change 0 with (inject_Z 0); rewrite <- Zle_Qle; lia).
assert (R1 : inject_Z r <= 999) by (change 999 with (inject_Z 999); rewrite <- Zle_Qle; lia).
assert (QB : (Z.abs q <= 2 ^ 53)%Z) by (unfold q; lia).
destruct (Z.eq_dec r 0) as [Z|NZ].
- (* exact quotient *)
  assert (E : x == inject_Z q) by (rewrite X, Z; simpl; field).
  rewrite (fl_compat _ _ E), (fl_int q QB). split; [apply Qfloor_Z|].
  assert (Q : Z.quot n 1000 = q).
  { pose proof (Z.quot_rem n 1000 ltac:(lia)) as QR.
    pose proof (Z.rem_bound_abs n 1000 ltac:(lia)) as RB. lia. }
  rewrite Q. unfold js_trunc. destruct (Qle_bool 0 (inject_Z q)); [apply Qfloor_Z|].
  unfold Qceiling. rewrite <- inject_Z_opp, Qfloor_Z. lia.
- assert (R2 : 1 <= inject_Z r) by (change 1 with (inject_Z 1); rewrite <- Zle_Qle; lia).
  assert (F1 : 1 # 1000 <= inject_Z r / inject_Z 1000).
  { apply Qle_shift_div_l; [reflexivity|]. change (inject_Z 1000) with 1000. lra. }
  assert (F2 : inject_Z r / inject_Z 1000 <= 999 # 1000).
  { apply Qle_shift_div_r; [reflexivity|]. change (inject_Z 1000) with 1000. lra. }
  set (f := inject_Z r / inject_Z 1000) in *.
  assert (XB : Qabs x < pow2 44).
  { assert (inject_Z (Z.abs n) <= inject_Z (2 ^ 53)) by (rewrite <- Zle_Qle; exact B).
    assert (A : Qabs x == inject_Z (Z.abs n) / 1000).
    { unfold x. destruct (Z_le_gt_dec 0 n) as [P|P].
      - rewrite Qabs_pos.
        + rewrite Z.abs_eq by exact P. reflexivity.
        + assert (0 <= inject_Z n) by (change 0 with (inject_Z 0); rewrite <- Zle_Qle; lia).
          apply Qle_shift_div_l; [reflexivity|]. lra.
      - rewrite Qabs_neg.
        + rewrite Z.abs_neq by lia. rewrite inject_Z_opp. field.
        + assert (inject_Z n <= 0) by (change 0 with (inject_Z 0); rewrite <- Zle_Qle; lia).
          apply Qle_shift_div_r; [reflexivity|]. lra. }
    rewrite A. apply Qlt_shift_div_r; [reflexivity|].
    eapply Qle_lt_trans; [exact H|]. reflexivity. }
  pose proof (fl_err_below x 43 XB) as ER.
  assert (P10 : pow2 (43 - 53) == 1 # 1024) by reflexivity.
  rewrite P10 in ER. apply Qabs_Qle_condition in ER. destruct ER as [E1 E2].
  assert (F : Qfloor (fl x) = q).
  { assert (L : inject_Z q <= fl x) by lra.
    assert (U : fl x < inject_Z (q + 1)) by (rewrite inject_Z_plus; change (inject_Z 1) with 1; lra).
    apply Qfloor_resp_le in L. rewrite Qfloor_Z in L.
    assert (Qfloor (fl x) < q + 1)%Z; [|lia].
    rewrite Zlt_Qlt. eapply Qle_lt_trans; [apply Qfloor_le|exact U]. }
  split; [exact F|].
  unfold js_trunc. destruct (Qle_bool 0 (fl x)) eqn:S.
  + apply Qle_bool_iff in S. rewrite F.
    assert (0 <= n)%Z.
    { destruct (Z_le_gt_dec 0 n) as [P|P]; [exact P|exfalso].
      assert (q < 0)%Z by (unfold q; apply Z.div_lt_upper_bound; lia).
      assert (inject_Z q <= -1).
      { change (-1) with (inject_Z (-1)). rewrite <- Zle_Qle. lia. }
      lra. }
    unfold q. symmetry. apply Z.quot_div_nonneg; lia.
  + assert (N : fl x < 0).
    { apply Qnot_le_lt. intro C. apply Qle_bool_iff in C. congruence. }
    assert (QN : (q < 0)%Z).
    { rewrite Zlt_Qlt. change (inject_Z 0) with 0. lra. }
    assert (C : Qceiling (fl x) = (q + 1)%Z).
    { unfold Qceiling.
      assert (L : inject_Z (- q - 1)%Z <= - fl x).
      { replace (- q - 1)%Z with (- (q + 1))%Z by lia.
        rewrite inject_Z_opp, inject_Z_plus. change (inject_Z 1) with 1. lra. }
      assert (U : - fl x < inject_Z (- q)) by (rewrite inject_Z_opp; lra).
      apply Qfloor_resp_le in L. rewrite Qfloor_Z in L.
      assert (Qfloor (- fl x) < - q)%Z; [|lia].
      rewrite Zlt_Qlt. eapply Qle_lt_trans; [apply Qfloor_le|exact U]. }
    rewrite C.
    assert (n < 0)%Z by lia.
    pose proof (Z.quot_rem n 1000 ltac:(lia)) as QR.
    pose proof (Z.rem_bound_abs n 1000 ltac:(lia)) as RB.
    pose proof (Z.rem_nonpos n 1000 ltac:(lia) ltac:(lia)) as RN.
    lia.
Qed.

(** [fl] against the binary64 operations of the Standard Library, on the
    values of the counterexamples below. *)
Example fl_agrees_with_SFdiv :
  SF2Q (SFdiv 53 1024 (SF_of_pos 1000) (SF_of_pos 38)) = Some (js_div (js_int 1000) (js_int 38)) /\
  SF2Q (SFdiv 53 1024 (SF_of_pos 123457) (SF_of_pos 100000))
  = Some (js_div (js_int 123457) (js_int 100000)).
Proof. split; vm_compute; reflexivity. Qed.

Example fl_agrees_with_SFmul :
  SF2Q (SFmul 53 1024 (SF_of_pos 19) (SFdiv 53 1024 (SF_of_pos 1000) (SF_of_pos 38)))
  = Some (js_mul (js_int 19) (js_div (js_int 1000) (js_int 38))).
Proof. vm_compute. reflexivity. Qed.

Example fl_agrees_with_SFadd :
  SF2Q (SFadd 53 1024 (SF_of_pos 1700000000) (SFdiv 53 1024 (SF_of_pos 333) (SF_of_pos 1000)))
  = Some (js_add (js_int 1700000000) (js_div (js_int 333) (js_int 1000))).
Proof. vm_compute. reflexivity. Qed.

End Rounding.

(** ** DataView reads *)

Lemma bytes_at_spec (buf : list byte) (off : Z) (n : nat) :
  (0 <= off /\ off + Z.of_nat n <= Z.of_nat (List.length buf) /\
   bytes_at buf off n = Return (firstn n (skipn (Z.to_nat off) buf))) \/
  ((off < 0 \/ Z.of_nat (List.length buf) < off + Z.of_nat n) /\
   bytes_at buf off n = Throw (RangeError OffsetOutOfBounds)).
Proof.
  unfold bytes_at.
  destruct (0 <=? off) eqn:A; destruct (off + Z.of_nat n <=? Z.of_nat (List.length buf)) eqn:B;
    simpl; try (left; split; [|split]; [lia|lia|reflexivity]); right; split; try reflexivity; lia.
Qed.

Lemma bytes_at_length (buf : list byte) (off : Z) (n : nat) (bs : list byte) :
  bytes_at buf off n = Return bs -> List.length bs = n.
Proof.
  destruct (bytes_at_spec buf off n) as [(A & B & E)|(_ & E)]; rewrite E; intros R;
    inversion R; subst.
  rewrite length_firstn, length_skipn. lia.
Qed.

Lemma read_spec_of (n : nat) (f : list byte -> Z) :
  read_spec (Z.of_nat n) (fun buf off => bs <- bytes_at buf off n ;; Return (f bs)).
Proof.
  intros buf off. destruct (bytes_at_spec buf off n) as [(A & B & E)|(A & E)]; rewrite E; simpl.
  - left. split; [exact A|]. split; [exact B|]. eexists; reflexivity.
  - right. split; [exact A|reflexivity].
Qed.

Lemma getUint8_spec : read_spec 1 getUint8.
Proof. exact (read_spec_of 1 le_value). Qed.
Lemma getUint32_spec : read_spec 4 getUint32.
Proof. exact (read_spec_of 4 le_value). Qed.
Lemma getInt32_spec : read_spec 4 getInt32.
Proof. exact (read_spec_of 4 (fun bs => to_signed 32 (le_value bs))). Qed.
Lemma getBigUint64_spec : read_spec 8 getBigUint64.
Proof. exact (read_spec_of 8 le_value). Qed.
Lemma getBigInt64_spec : read_spec 8 getBigInt64.
Proof. exact (read_spec_of 8 (fun bs => to_signed 64 (le_value bs))). Qed.

Lemma le_value_nonneg (bs : list byte) : 0 <= le_value bs.
Proof.
  induction bs as [|b bs IH]; cbn [le_value]; [lia|].
  assert (0 <= byte_val b) by (unfold byte_val; apply N2Z.is_nonneg). lia.
Qed.

(** ** TickCodec *)

(** A row never fails with the format error. *)
Lemma parseRow_result buffer initial rowOffset :
  (exists tick, parseRow buffer initial rowOffset = Return tick) \/
  (exists m, parseRow buffer initial rowOffset = Throw (RangeError m)).
Proof.
  unfold parseRow.
  destruct (getBigInt64 buffer rowOffset) as [d|e] eqn:E0; cbn [bind].
  2:{ destruct (getBigInt64_spec buffer rowOffset) as [(_ & _ & v & R)|(_ & R)];
      rewrite R in E0; inversion E0; subst. right. eexists; reflexivity. }
  destruct (getInt32 buffer (rowOffset + 8)) as [pb|e] eqn:E1; cbn [bind].
  2:{ destruct (getInt32_spec buffer (rowOffset + 8)) as [(_ & _ & v & R)|(_ & R)];
      rewrite R in E1; inversion E1; subst. right. eexists; reflexivity. }
  destruct (getInt32 buffer (rowOffset + 12)) as [pa|e] eqn:E2; cbn [bind].
  2:{ destruct (getInt32_spec buffer (rowOffset + 12)) as [(_ & _ & v & R)|(_ & R)];
      rewrite R in E2; inversion E2; subst. right. eexists; reflexivity. }
  destruct (getInt32 buffer (rowOffset + 16)) as [sb|e] eqn:E3; cbn [bind].
  2:{ destruct (getInt32_spec buffer (rowOffset + 16)) as [(_ & _ & v & R)|(_ & R)];
      rewrite R in E3; inversion E3; subst. right. eexists; reflexivity. }
  destruct (getInt32 buffer (rowOffset + 20)) as [sa|e] eqn:E4; cbn [bind].
  2:{ destruct (getInt32_spec buffer (rowOffset + 20)) as [(_ & _ & v & R)|(_ & R)];
      rewrite R in E4; inversion E4; subst. right. eexists; reflexivity. }
  destruct (newDate _) as [tv|]; cbn [bind toISOString].
  - left. eexists; reflexivity.
  - right. eexists; reflexivity.
Qed.

(** A row that does not fit in the buffer makes its reads throw. *)
Lemma parseRow_truncated buffer initial rowOffset :
  Z.of_nat (List.length buffer) < rowOffset + rowSize ->
  parseRow buffer initial rowOffset = Throw (RangeError OffsetOutOfBounds).
Proof.
  unfold rowSize. intros T. unfold parseRow.
  destruct (getBigInt64_spec buffer rowOffset) as [(_ & _ & v0 & R0)|(_ & R0)];
    rewrite R0; cbn [bind]; [|reflexivity].
  destruct (getInt32_spec buffer (rowOffset + 8)) as [(_ & _ & v1 & R1)|(_ & R1)];
    rewrite R1; cbn [bind]; [|reflexivity].
  destruct (getInt32_spec buffer (rowOffset + 12)) as [(_ & _ & v2 & R2)|(_ & R2)];
    rewrite R2; cbn [bind]; [|reflexivity].
  destruct (getInt32_spec buffer (rowOffset + 16)) as [(_ & _ & v3 & R3)|(_ & R3)];
    rewrite R3; cbn [bind]; [|reflexivity].
  destruct (getInt32_spec buffer (rowOffset + 20)) as [(_ & B & v4 & R4)|(_ & R4)];
    rewrite R4; cbn [bind]; [|reflexivity].
  lia.
Qed.

(** A row that decodes lies inside the buffer. *)
Lemma parseRow_fits buffer initial rowOffset tick :
  parseRow buffer initial rowOffset = Return tick ->
  rowOffset + rowSize <= Z.of_nat (List.length buffer).
Proof.
  intros R. destruct (Z_lt_le_dec (Z.of_nat (List.length buffer)) (rowOffset + rowSize)) as [L|L];
    [|exact L].
  rewrite (parseRow_truncated buffer initial rowOffset L) in R. discriminate.
Qed.

(** With every row that fits holding a valid time, the error is the
    out-of-bounds one. *)
Lemma parseRows_truncated_offset buffer initial offset :
  forall remaining i data,
    (forall j m, parseRow buffer initial (offset + j * rowSize) <> Throw (RangeError m)
                 \/ m = OffsetOutOfBounds) ->
    offset + i * rowSize <= Z.of_nat (List.length buffer) ->
    Z.of_nat (List.length buffer) < offset + (i + Z.of_nat remaining) * rowSize ->
    parseRows buffer initial offset i remaining data = Throw (RangeError OffsetOutOfBounds).
Proof.
  induction remaining as [|n IH]; intros i data V Fit Tr.
  - simpl in Tr. lia.
  - simpl parseRows.
    destruct (parseRow_result buffer initial (offset + i * rowSize)) as [[tick R]|[m R]];
      rewrite R; cbn [bind].
    + apply IH; [exact V| |unfold rowSize in *; lia].
      apply parseRow_fits in R. unfold rowSize in *. lia.
    + destruct (V i m) as [N| ->]; [|reflexivity]. contradiction.
Qed.

(** The example cut short fails on the read of its second row. *)
Example truncated_example_error :
  parseBinaryData example_truncated = Throw (RangeError OffsetOutOfBounds).
Proof. vm_compute. reflexivity. Qed.

(** The spec's example decodes to its two ticks. *)
Example decode_example_ticks :
  parseBinaryData example_ticks
  = Return [mkDecodedTick 1700000000000 1700000000000
                          "1.50000" "1.50200" "1.00" "1.00"
                          "1.50000" "1.50200" "1.00" "1.00";
            mkDecodedTick 1700000000500 1700000000500
                          "1.50100" "1.50300" "0.50" "0.50"
                          "1.50100" "1.50300" "0.50" "0.50"].
Proof. vm_compute. reflexivity. Qed.

(** What the row loop returns: the rows decoded one by one, in order. *)
Lemma parseRows_spec buffer initial offset :
  forall remaining i data out,
    parseRows buffer initial offset i remaining data = Return out ->
    exists rows,
      out = data ++ rows /\ List.length rows = remaining /\
      forall j tick,
        nth_error rows j = Some tick ->
        parseRow buffer initial (offset + (i + Z.of_nat j) * rowSize) = Return tick.
Proof.
  induction remaining as [|n IH]; intros i data out R.
  - simpl in R. inversion R; subst. exists []. rewrite app_nil_r.
    split; [reflexivity|]. split; [reflexivity|]. intros j tick E. destruct j; discriminate.
  - simpl in R.
    destruct (parseRow buffer initial (offset + i * rowSize)) as [t|e] eqn:PR;
      cbn [bind] in R; [|discriminate].
    destruct (IH (i + 1) (push data t) out R) as (rows & E & L & N).
    exists (t :: rows). unfold push in E. rewrite <- app_assoc in E. simpl in E.
    split; [exact E|]. split; [simpl; rewrite L; reflexivity|].
    intros j tick Ej. destruct j as [|j]; simpl in Ej.
    + inversion Ej; subst. rewrite Z.add_0_r. exact PR.
    + specialize (N j tick Ej).
      replace (i + Z.of_nat (S j)) with (i + 1 + Z.of_nat j) by lia. exact N.
Qed.

(** The timestamp of a decoded row comes from the header's initial
    timestamp and that row's delta. *)
Lemma parseRow_timestamp buffer initial rowOffset tick :
  parseRow buffer initial rowOffset = Return tick ->
  exists delta,
    getBigInt64 buffer rowOffset = Return delta /\
    timeValueOfUs (initial + delta) = Some (timestamp tick).
Proof.
  unfold parseRow. intros R.
  destruct (getBigInt64 buffer rowOffset) as [d|e]; cbn [bind] in R; [|discriminate].
  destruct (getInt32 buffer (rowOffset + 8)) as [pb|e]; cbn [bind] in R; [|discriminate].
  destruct (getInt32 buffer (rowOffset + 12)) as [pa|e]; cbn [bind] in R; [|discriminate].
  destruct (getInt32 buffer (rowOffset + 16)) as [sb|e]; cbn [bind] in R; [|discriminate].
  destruct (getInt32 buffer (rowOffset + 20)) as [sa|e]; cbn [bind] in R; [|discriminate].
  exists d. split; [reflexivity|]. unfold timeValueOfUs.
  destruct (newDate _) as [tv|]; cbn [bind] in R; [|discriminate].
  inversion R; subst. reflexivity.
Qed.

(** Below [2^53] microseconds the time value is the timestamp in whole
    milliseconds, truncated. *)
Lemma timeValueOfUs_quot (us tv : Z) :
  Z.abs us <= 2 ^ 53 -> timeValueOfUs us = Some tv -> tv = Z.quot us 1000.
Proof.
  intros B. unfold timeValueOfUs, js_of_bigint, js_div, js_int, newDate.
  rewrite (fl_int us B). destruct (fl_div1000 us B) as [_ T].
  destruct (Qle_bool _ _); intros E; inversion E; subst. exact T.
Qed.

Section TimeValueBound.
Local Open Scope Q_scope.

(** Truncation toward zero moves a number by less than one. *)
Lemma js_trunc_near (x : Q) :
  (0 <= x -> x - 1 < inject_Z (js_trunc x) <= x) /\
  (x <= 0 -> x <= inject_Z (js_trunc x) < x + 1).
Proof.
  unfold js_trunc. destruct (Qle_bool 0 x) eqn:S.
  - apply Qle_bool_iff in S.
    pose proof (Qfloor_le x) as F1. pose proof (Qlt_floor x) as F2.
    rewrite inject_Z_plus in F2. change (inject_Z 1) with 1 in F2.
    split; intros P; [split; lra|].
    assert (Z : x == 0) by lra. split; [|lra].
    assert (FZ : (0 <= Qfloor x)%Z).
    { rewrite <- (Qfloor_Z 0). apply Qfloor_resp_le. exact S. }
    assert (FQ : inject_Z 0 <= inject_Z (Qfloor x)) by (rewrite <- Zle_Qle; exact FZ).
    change (inject_Z 0) with 0 in *. lra.
  - assert (N : x < 0).
    { apply Qnot_le_lt. intro C. apply Qle_bool_iff in C. congruence. }
    pose proof (Qle_ceiling x) as C1. pose proof (Qceiling_lt x) as C2.
    unfold Z.sub in C2. rewrite inject_Z_plus, inject_Z_opp in C2.
    change (inject_Z 1) with 1 in C2.
    split; intros P; [lra|]. split; lra.
Qed.

(** Whatever the timestamp, the time value is less than three milliseconds
    away from it: the conversion of the microseconds to a number and the
    division by 1000 each round, and the result is truncated. *)
Lemma timeValueOfUs_near (us tv : Z) :
  timeValueOfUs us = Some tv -> (Z.abs (1000 * tv - us) < 3000)%Z.
Proof.
  unfold timeValueOfUs, js_of_bigint, js_div, js_int, newDate.
  set (u := inject_Z us). set (a := fl u). set (c := a / inject_Z 1000). set (b := fl c).
  destruct (Qle_bool (Qabs b) (inject_Z maxTimeValue)) eqn:M; [|discriminate].
  intros E. inversion E as [T]. clear E.
  apply Qle_bool_iff in M. apply Qabs_Qle_condition in M.
  change (inject_Z maxTimeValue) with 8640000000000000 in M.
  assert (P : pow2 (-53) == 1 # 9007199254740992) by reflexivity.
  pose proof (fl_rel_err u) as EA. pose proof (fl_rel_err c) as EB.
  fold a in EA. fold b in EB. rewrite P in EA, EB.
  assert (C : a == 1000 * c).
  { unfold c. change (inject_Z 1000) with 1000. field. }
  destruct (js_trunc_near b) as [TP TN].
  set (t := inject_Z (js_trunc b)) in *.
  assert (G : -3000 < 1000 * t - u /\ 1000 * t - u < 3000).
  { destruct (Qlt_le_dec u 0) as [UN|UP].
    - assert (A0 : a <= 0) by (apply fl_nonpos; lra).
      assert (C0 : c <= 0) by lra.
      assert (B0 : b <= 0) by (apply fl_nonpos; exact C0).
      rewrite (Qabs_neg u) in EA by lra. rewrite (Qabs_neg c) in EB by exact C0.
      apply Qabs_Qle_condition in EA. apply Qabs_Qle_condition in EB.
      specialize (TN B0). lra.
    - assert (A0 : 0 <= a) by (apply fl_nonneg; exact UP).
      assert (C0 : 0 <= c) by lra.
      assert (B0 : 0 <= b) by (apply fl_nonneg; exact C0).
      rewrite (Qabs_pos u) in EA by exact UP. rewrite (Qabs_pos c) in EB by exact C0.
      apply Qabs_Qle_condition in EA. apply Qabs_Qle_condition in EB.
      specialize (TP B0). lra. }
  destruct G as [G1 G2].
  assert (I : 1000 * t - u == inject_Z (1000 * js_trunc b - us)%Z).
  { unfold Z.sub. rewrite inject_Z_plus, inject_Z_mult, inject_Z_opp. unfold t, u.
    change (inject_Z 1000) with 1000. ring. }
  rewrite I in G1, G2.
  change (-3000) with (inject_Z (-3000)) in G1. change 3000 with (inject_Z 3000) in G2.
  rewrite <- Zlt_Qlt in G1, G2. lia.
Qed.

End TimeValueBound.

(** C2 (as amended).  A buffer that decodes gives exactly as many ticks as
    the row count of its header says, and the timestamp of the tick of row
    [k] is built from the header's initial timestamp plus the delta of row
    [k] alone: it is the time value of
    [new Date(Number(initial + delta_k) / 1000)], the conversion and the
    division being those of doubles.  While [initial + delta_k] is at most
    [2^53] microseconds in magnitude that is [(initial + delta_k) / 1000]
    truncated to whole milliseconds; beyond, the roundings can move it off
    that value, by less than three milliseconds. *)
Theorem decode_row_count_and_timestamps (buffer : list byte) (ticks : list DecodedTick) :
  parseBinaryData buffer = Return ticks ->
  exists N initial,
    header_numRows buffer = Some N /\
    header_initialTimestampUs buffer = Some initial /\
    Z.of_nat (List.length ticks) = N /\
    forall k tick,
      nth_error ticks k = Some tick ->
      exists delta,
        row_deltaTimeUs buffer (Z.of_nat k) = Some delta /\
        timeValueOfUs (initial + delta) = Some (timestamp tick) /\
        (Z.abs (initial + delta) <= 2 ^ 53 ->
         timestamp tick = Z.quot (initial + delta) 1000) /\
        Z.abs (1000 * timestamp tick - (initial + delta)) < 3000.
Proof.
  unfold parseBinaryData. intros R.
  destruct (bytes_at buffer 0 4) as [magic|e]; cbn [bind] in R; [|discriminate].
  destruct (getUint8 buffer 4) as [ver|e]; cbn [bind] in R; [|discriminate].
  destruct (getUint32_spec buffer 5) as [(_ & _ & n & R2)|(_ & R2)];
    rewrite R2 in R; cbn [bind] in R; [|discriminate].
  destruct (getBigUint64 buffer 9) as [initial|e] eqn:R3; cbn [bind] in R; [|discriminate].
  destruct (bytes_eqb magic magic_TICK); [|discriminate].
  destruct (parseRows_spec buffer initial 17 _ 0 [] ticks R) as (rows & E & L & N).
  simpl in E. subst rows.
  assert (NN : 0 <= n).
  { unfold getUint32 in R2. destruct (bytes_at buffer 5 4) as [bs|]; simpl in R2; [|discriminate].
    inversion R2. apply le_value_nonneg. }
  exists n, initial. unfold header_numRows, header_initialTimestampUs. rewrite R2, R3.
  split; [reflexivity|]. split; [reflexivity|]. split; [rewrite L; lia|].
  intros k tick Ek. specialize (N k tick Ek). rewrite Z.add_0_l in N.
  destruct (parseRow_timestamp _ _ _ _ N) as (delta & G & T).
  exists delta. unfold row_deltaTimeUs. rewrite G.
  split; [reflexivity|]. split; [exact T|]. split.
  - intros B. apply timeValueOfUs_quot; assumption.
  - apply timeValueOfUs_near, T.
Qed.

Lemma decode_row_count_and_timestamps_witness :
  Z.of_nat (List.length
              [mkDecodedTick 1700000000000 1700000000000
                             "1.50000" "1.50200" "1.00" "1.00"
                             "1.50000" "1.50200" "1.00" "1.00";
               mkDecodedTick 1700000000500 1700000000500
                             "1.50100" "1.50300" "0.50" "0.50"
                             "1.50100" "1.50300" "0.50" "0.50"]) = 2 /\
  1700000000500 = Z.quot (1700000000000000 + 500000) 1000.
Proof.
  destruct (decode_row_count_and_timestamps example_ticks _ decode_example_ticks)
    as (N & initial & HN & HI & L & T).
  assert (N2 : header_numRows example_ticks = Some 2) by (vm_compute; reflexivity).
  assert (I : header_initialTimestampUs example_ticks = Some 1700000000000000)
    by (vm_compute; reflexivity).
  assert (D : row_deltaTimeUs example_ticks (Z.of_nat 1) = Some 500000)
    by (vm_compute; reflexivity).
  assert (EN : N = 2) by congruence.
  assert (EI : initial = 1700000000000000) by congruence.
  rewrite EN in L. rewrite EI in T. split; [exact L|].
  destruct (T 1%nat _ eq_refl) as (delta & HD & _ & Q & _).
  assert (ED : delta = 500000) by congruence. subst delta.
  apply Q. vm_compute. discriminate.
Defined.

Example decode_example_equal_deltas :
  parseBinaryData example_equal_deltas
  = Return [mkDecodedTick 1700000001000 1700000001000
                          "1.50000" "1.50200" "1.00" "1.00"
                          "1.50000" "1.50200" "1.00" "1.00";
            mkDecodedTick 1700000001000 1700000001000
                          "1.50100" "1.50300" "0.50" "0.50"
                          "1.50100" "1.50300" "0.50" "0.50"].
Proof. vm_compute. reflexivity. Qed.

(** Past [2^53] microseconds the conversion to a number rounds: the
    timestamp 9007199254741999 becomes 9007199254742000, and the tick is
    dated one millisecond after the truncated quotient. *)
Example decode_example_late :
  parseBinaryData example_late
  = Return [mkDecodedTick 9007199254742 9007199254742
                          "1.50000" "1.50200" "1.00" "1.00"
                          "1.50000" "1.50200" "1.00" "1.00"]
  /\ Z.quot (9007199254741999 + 0) 1000 = 9007199254741.
Proof. split; vm_compute; reflexivity. Qed.

(** C2, counterexample.  With two rows of delta 1000000 each, the second
    tick is one second after the header's timestamp, not two. *)
Lemma timestamps_cumulative_counterexample :
  ~ timestamps_cumulative example_equal_deltas.
Proof.
  intro C.
  assert (HI : header_initialTimestampUs example_equal_deltas = Some 1700000000000000)
    by (vm_compute; reflexivity).
  assert (E : timeValueOfUs (1700000000000000 + sum_deltaTimeUs example_equal_deltas 2)
              = Some 1700000002000)
    by (vm_compute; reflexivity).
  pose proof (C _ _ decode_example_equal_deltas HI 1%nat _ eq_refl) as K.
  rewrite E in K. cbn [timestamp] in K.
  assert (N : 1700000002000 <> 1700000001000) by lia.
  apply N. congruence.
Qed.

(** ** Fixed-format decimal strings *)

Lemma digit_char_is_digit (d : Z) : 0 <= d <= 9 -> is_digit (digit_char d) = true.
Proof.
  intros B.
  assert (C : d = 0 \/ d = 1 \/ d = 2 \/ d = 3 \/ d = 4 \/ d = 5 \/ d = 6 \/ d = 7
              \/ d = 8 \/ d = 9) by lia.
  repeat (destruct C as [->|C]; [reflexivity|]). subst. reflexivity.
Qed.

Lemma all_digits_app (a b : string) :
  all_digits (a ++ b) = all_digits a && all_digits b.
Proof.
  induction a as [|c a IH]; simpl; [reflexivity|]. rewrite IH, andb_assoc. reflexivity.
Qed.

Lemma string_length_app (a b : string) :
  String.length (a ++ b) = (String.length a + String.length b)%nat.
Proof. induction a as [|c a IH]; simpl; [reflexivity|]. rewrite IH. reflexivity. Qed.

Lemma int_digits_all (fuel : nat) :
  forall n, 0 <= n -> all_digits (int_digits fuel n) = true /\ int_digits fuel n <> EmptyString.
Proof.
  induction fuel as [|fuel IH]; intros n N; cbn [int_digits].
  - cbn [all_digits]. rewrite digit_char_is_digit by (pose proof (Z.mod_pos_bound n 10); lia).
    split; [reflexivity|discriminate].
  - destruct (n <? 10) eqn:L.
    + apply Z.ltb_lt in L. cbn [all_digits]. rewrite digit_char_is_digit by lia.
      split; [reflexivity|discriminate].
    + destruct (IH (n / 10) ltac:(apply Z.div_pos; lia)) as [A NE].
      rewrite all_digits_app, A. cbn [all_digits].
      rewrite digit_char_is_digit by (pose proof (Z.mod_pos_bound n 10); lia).
      split; [reflexivity|]. destruct (int_digits fuel (n / 10)); [contradiction|discriminate].
Qed.

Lemma frac_digits_all (f : nat) :
  forall n, all_digits (frac_digits f n) = true /\ String.length (frac_digits f n) = f.
Proof.
  induction f as [|f IH]; intros n; cbn [frac_digits]; [split; reflexivity|].
  destruct (IH (n / 10)) as [A L].
  rewrite all_digits_app, A, string_length_app, L. cbn [all_digits String.length].
  rewrite digit_char_is_digit by (pose proof (Z.mod_pos_bound n 10); lia).
  split; [reflexivity|lia].
Qed.

Lemma decimal_of_scaled_fixed (v : Z) (f : nat) : fixed_decimal f (decimal_of_scaled v f).
Proof.
  unfold decimal_of_scaled, fixed_decimal.
  assert (P : 0 <= Z.abs v / 10 ^ Z.of_nat f) by (apply Z.div_pos; lia).
  destruct (int_digits_all (Z.to_nat (Z.log2 (Z.abs v / 10 ^ Z.of_nat f))) _ P) as [A NE].
  destruct (frac_digits_all f (Z.abs v)) as [B L].
  destruct (v <? 0).
  - exists "-"%string, (string_of_int (Z.abs v / 10 ^ Z.of_nat f)), (frac_digits f (Z.abs v)).
    repeat split; auto.
  - exists EmptyString, (string_of_int (Z.abs v / 10 ^ Z.of_nat f)), (frac_digits f (Z.abs v)).
    repeat split; auto.
Qed.

(** The strings printed read back as the numbers printed. *)

Lemma digit_char_value (d : Z) :
  0 <= d <= 9 -> Z.of_nat (nat_of_ascii (digit_char d)) - 48 = d.
Proof.
  intros B.
  assert (C : d = 0 \/ d = 1 \/ d = 2 \/ d = 3 \/ d = 4 \/ d = 5 \/ d = 6 \/ d = 7
              \/ d = 8 \/ d = 9) by lia.
  repeat (destruct C as [->|C]; [reflexivity|]). subst. reflexivity.
Qed.

Lemma digits_value_from_app (a b : string) :
  forall acc, digits_value_from acc (a ++ b) = digits_value_from (digits_value_from acc a) b.
Proof.
  induction a as [|c a IH]; intros acc; cbn [append digits_value_from]; [reflexivity|].
  apply IH.
Qed.

Lemma int_digits_value (fuel : nat) :
  forall n acc, 0 <= n < 10 * 2 ^ Z.of_nat fuel ->
                digits_value_from acc (int_digits fuel n)
                = acc * 10 ^ Z.of_nat (String.length (int_digits fuel n)) + n /\
                (acc = 0 -> digits_value_from acc (int_digits fuel n) = n).
Proof.
  induction fuel as [|fuel IH]; intros n acc B; cbn [int_digits].
  - change (2 ^ Z.of_nat 0) with 1 in B.
    cbn [digits_value_from String.length]. rewrite Z.mod_small by lia.
    rewrite digit_char_value by lia. change (10 ^ Z.of_nat 1) with 10. split; lia.
  - destruct (n <? 10) eqn:L.
    + apply Z.ltb_lt in L. cbn [digits_value_from String.length].
      rewrite digit_char_value by lia. change (10 ^ Z.of_nat 1) with 10. split; lia.
    + apply Z.ltb_ge in L.
      assert (B' : 0 <= n / 10 < 10 * 2 ^ Z.of_nat fuel).
      { rewrite Nat2Z.inj_succ, Z.pow_succ_r in B by lia.
        split; [apply Z.div_pos; lia|]. apply Z.div_lt_upper_bound; lia. }
      destruct (IH (n / 10) acc B') as [V _].
      rewrite digits_value_from_app, V. cbn [digits_value_from].
      pose proof (Z.mod_pos_bound n 10 ltac:(lia)) as MB.
      rewrite digit_char_value by lia.
      rewrite string_length_app. cbn [String.length].
      rewrite Nat2Z.inj_add. change (Z.of_nat 1) with 1.
      rewrite Z.pow_add_r by lia. change (10 ^ 1) with 10.
      pose proof (Z.div_mod n 10 ltac:(lia)) as DM. split; [lia|]. intros ->. lia.
Qed.

Lemma string_of_int_value (n : Z) : 0 <= n -> digits_value (string_of_int n) = n.
Proof.
  intros N. unfold digits_value, string_of_int.
  apply (int_digits_value (Z.to_nat (Z.log2 n)) n 0); [|reflexivity].
  split; [exact N|].
  destruct (Z.eq_dec n 0) as [->|NZ]; [reflexivity|].
  pose proof (Z.log2_spec n ltac:(lia)) as [_ U].
  rewrite Z2Nat.id by apply Z.log2_nonneg.
  rewrite Z.pow_succ_r in U by apply Z.log2_nonneg.
  assert (0 < 2 ^ Z.log2 n) by (apply Z.pow_pos_nonneg; [lia|apply Z.log2_nonneg]). lia.
Qed.

Lemma frac_digits_value (f : nat) :
  forall n acc, 0 <= n ->
                digits_value_from acc (frac_digits f n)
                = acc * 10 ^ Z.of_nat f + n mod 10 ^ Z.of_nat f.
Proof.
  induction f as [|f IH]; intros n acc N; cbn [frac_digits].
  - cbn [digits_value_from]. change (10 ^ Z.of_nat 0) with 1. rewrite Z.mod_1_r. lia.
  - rewrite digits_value_from_app, IH by (apply Z.div_pos; lia).
    cbn [digits_value_from].
    pose proof (Z.mod_pos_bound n 10 ltac:(lia)) as MB.
    rewrite digit_char_value by lia.
    rewrite Nat2Z.inj_succ, Z.pow_succ_r by lia.
    assert (P : 0 < 10 ^ Z.of_nat f) by (apply Z.pow_pos_nonneg; lia).
    rewrite (Z.rem_mul_r n 10 (10 ^ Z.of_nat f)) by lia.
    set (p := 10 ^ Z.of_nat f) in *. nia.
Qed.

(** The digits before and after the point of [decimal_of_scaled v f] are
    those of [|v|]: the string denotes [v / 10^f]. *)
Lemma decimal_of_scaled_value (v : Z) (f : nat) :
  digits_value (string_of_int (Z.abs v / 10 ^ Z.of_nat f)) * 10 ^ Z.of_nat f
  + digits_value (frac_digits f (Z.abs v)) = Z.abs v.
Proof.
  assert (P : 0 < 10 ^ Z.of_nat f) by (apply Z.pow_pos_nonneg; lia).
  rewrite string_of_int_value by (apply Z.div_pos; lia).
  unfold digits_value. rewrite frac_digits_value by lia.
  pose proof (Z.div_mod (Z.abs v) (10 ^ Z.of_nat f) ltac:(lia)). lia.
Qed.

Section FixedPoint.
Local Open Scope Q_scope.

(** Dividing a 32-bit integer by a power of ten and printing the quotient
    with as many decimals gives back the digits of the integer: the rounding
    of the division is far below half a unit of the last digit. *)
Lemma toFixed_int_scaled (v : Z) (f : nat) :
  (Z.abs v <= 2 ^ 31)%Z ->
  let x := js_div (js_int v) (js_int (10 ^ Z.of_nat f)) in
  toFixed_int x f = Z.abs v /\ (x < 0 <-> (v < 0)%Z).
Proof.
  intros B x. unfold js_div, js_int in x.
  set (S := inject_Z (10 ^ Z.of_nat f)) in *.
  assert (SP : 0 < S).
  { unfold S. change 0 with (inject_Z 0). rewrite <- Zlt_Qlt. apply Z.pow_pos_nonneg; lia. }
  set (q := inject_Z v / S) in *.
  assert (QS : q * S == inject_Z v) by (unfold q; field; lra).
  pose proof (fl_rel_err q) as R. fold x in R.
  assert (U : pow2 (-53) == 1 # 9007199254740992) by reflexivity.
  rewrite U in R. set (u := 1 # 9007199254740992) in *.
  assert (VB : inject_Z (Z.abs v) <= 2147483648).
  { change 2147483648 with (inject_Z (2 ^ 31)). rewrite <- Zle_Qle. exact B. }
  unfold toFixed_int. fold S.
  destruct (Z_le_gt_dec 0 v) as [P|P].
  - (* v >= 0 *)
    assert (V0 : 0 <= inject_Z v) by (change 0 with (inject_Z 0); rewrite <- Zle_Qle; exact P).
    assert (Q0 : 0 <= q) by (unfold q; apply Qle_shift_div_l; [exact SP|lra]).
    assert (X0 : 0 <= x) by (apply fl_nonneg; exact Q0).
    rewrite (Qabs_pos q Q0) in R. apply Qabs_Qle_condition in R. destruct R as [R1 R2].
    rewrite Z.abs_eq in * by exact P.
    assert (M1 : (x - q) * S <= q * u * S) by (apply Qmult_le_compat_r; lra).
    assert (M2 : (- (q * u)) * S <= (x - q) * S) by (apply Qmult_le_compat_r; lra).
    assert (A : Qabs x == x) by (apply Qabs_pos; exact X0).
    split.
    + assert (L : inject_Z v <= Qabs x * S + (1 # 2)) by (rewrite A; unfold u in *; nra).
      assert (H : Qabs x * S + (1 # 2) < inject_Z (v + 1)).
      { rewrite inject_Z_plus. change (inject_Z 1) with 1. rewrite A. unfold u in *. nra. }
      apply Qfloor_resp_le in L. rewrite Qfloor_Z in L.
      assert (Qfloor (Qabs x * S + (1 # 2)) < v + 1)%Z; [|lia].
      rewrite Zlt_Qlt. eapply Qle_lt_trans; [apply Qfloor_le|exact H].
    + split; [lra|lia].
  - (* v < 0 *)
    assert (V0 : inject_Z v <= -1).
    { change (-1) with (inject_Z (-1)). rewrite <- Zle_Qle. lia. }
    assert (Q0 : q < 0).
    { unfold q. apply Qlt_shift_div_r; [exact SP|]. lra. }
    assert (QA : Qabs q == - q) by (apply Qabs_neg; lra).
    rewrite QA in R. apply Qabs_Qle_condition in R. destruct R as [R1 R2].
    assert (X0 : x < 0) by (unfold u in *; nra).
    assert (A : Qabs x == - x) by (apply Qabs_neg; lra).
    assert (VA : inject_Z (Z.abs v) == - inject_Z v).
    { rewrite Z.abs_neq by lia. rewrite inject_Z_opp. reflexivity. }
    assert (M1 : (x - q) * S <= (- q) * u * S) by (apply Qmult_le_compat_r; lra).
    assert (M2 : (- ((- q) * u)) * S <= (x - q) * S) by (apply Qmult_le_compat_r; lra).
    split.
    + assert (L : inject_Z (Z.abs v) <= Qabs x * S + (1 # 2)) by (rewrite A, VA; unfold u in *; nra).
      assert (H : Qabs x * S + (1 # 2) < inject_Z (Z.abs v + 1)).
      { rewrite inject_Z_plus. change (inject_Z 1) with 1. rewrite A, VA. unfold u in *. nra. }
      apply Qfloor_resp_le in L. rewrite Qfloor_Z in L.
      assert (Qfloor (Qabs x * S + (1 # 2)) < Z.abs v + 1)%Z; [|lia].
      rewrite Zlt_Qlt. eapply Qle_lt_trans; [apply Qfloor_le|exact H].
    + split; [lia|intros _; exact X0].
Qed.

End FixedPoint.

Lemma toFixed_scaled (v : Z) (f : nat) :
  Z.abs v <= 2 ^ 31 ->
  toFixed (js_div (js_int v) (js_int (10 ^ Z.of_nat f))) f = decimal_of_scaled v f.
Proof.
  intros B. destruct (toFixed_int_scaled v f B) as [N S].
  unfold toFixed, decimal_of_scaled. rewrite N.
  destruct (Qlt_le_dec _ 0) as [L|L]; destruct (v <? 0) eqn:V; try reflexivity.
  - apply S in L. apply Z.ltb_ge in V. lia.
  - apply Z.ltb_lt in V. apply S in V. exfalso. apply (Qlt_not_le _ _ V L).
Qed.

(** ** TickCodec: the fields of a decoded tick *)

Lemma le_value_bound (bs : list byte) : le_value bs < 256 ^ Z.of_nat (List.length bs).
Proof.
  induction bs as [|b bs IH]; cbn [le_value List.length]; [reflexivity|].
  assert (byte_val b < 256).
  { unfold byte_val. pose proof (Byte.to_N_bounded b) as H. lia. }
  rewrite Nat2Z.inj_succ, Z.pow_succ_r by lia. lia.
Qed.

Lemma getInt32_range buf off v :
  getInt32 buf off = Return v -> Z.abs v <= 2 ^ 31.
Proof.
  unfold getInt32. destruct (bytes_at buf off 4) as [bs|e] eqn:E; cbn [bind]; [|discriminate].
  intros R. inversion R; subst. clear R.
  pose proof (le_value_nonneg bs) as N. pose proof (le_value_bound bs) as U.
  rewrite (bytes_at_length _ _ _ _ E) in U. change (256 ^ Z.of_nat 4) with 4294967296 in U.
  unfold to_signed. change (2 ^ (32 - 1)) with 2147483648. change (2 ^ 32) with 4294967296.
  change (2 ^ 31) with 2147483648.
  destruct (le_value bs <? 2147483648) eqn:L; [apply Z.ltb_lt in L|apply Z.ltb_ge in L]; lia.
Qed.

(** Every tick returned is the decoding of the row at its index. *)
Lemma parseBinaryData_rows (buffer : list byte) (ticks : list DecodedTick) :
  parseBinaryData buffer = Return ticks ->
  exists initial,
    header_initialTimestampUs buffer = Some initial /\
    forall k tick,
      nth_error ticks k = Some tick ->
      parseRow buffer initial (17 + Z.of_nat k * rowSize) = Return tick.
Proof.
  unfold parseBinaryData. intros R.
  destruct (bytes_at buffer 0 4) as [magic|e]; cbn [bind] in R; [|discriminate].
  destruct (getUint8 buffer 4) as [ver|e]; cbn [bind] in R; [|discriminate].
  destruct (getUint32 buffer 5) as [n|e]; cbn [bind] in R; [|discriminate].
  destruct (getBigUint64 buffer 9) as [initial|e] eqn:R3; cbn [bind] in R; [|discriminate].
  destruct (bytes_eqb magic magic_TICK); [|discriminate].
  destruct (parseRows_spec buffer initial 17 _ 0 [] ticks R) as (rows & E & L & N).
  cbn [app] in E. subst rows.
  exists initial. unfold header_initialTimestampUs. rewrite R3. split; [reflexivity|].
  intros k tick Ek. specialize (N k tick Ek). rewrite Z.add_0_l in N. exact N.
Qed.

Lemma parseRow_fields buffer initial k tick :
  parseRow buffer initial (17 + k * rowSize) = Return tick ->
  tick_fields_of_row buffer k tick.
Proof.
  unfold parseRow, tick_fields_of_row, row_int32. intros R.
  destruct (getBigInt64 buffer _) as [d|e]; cbn [bind] in R; [|discriminate].
  destruct (getInt32 buffer (17 + k * rowSize + 8)) as [pb|e] eqn:E1; cbn [bind] in R; [|discriminate].
  destruct (getInt32 buffer (17 + k * rowSize + 12)) as [pa|e] eqn:E2; cbn [bind] in R; [|discriminate].
  destruct (getInt32 buffer (17 + k * rowSize + 16)) as [sb|e] eqn:E3; cbn [bind] in R; [|discriminate].
  destruct (getInt32 buffer (17 + k * rowSize + 20)) as [sa|e] eqn:E4; cbn [bind] in R; [|discriminate].
  destruct (newDate _) as [tv|]; cbn [bind toISOString] in R; [|discriminate].
  inversion R; subst; clear R. cbn [priceBid priceAsk sizeBid sizeAsk bid_price ask_price bid_size ask_size].
  exists pb, pa, sb, sa.
  change (js_int PRICE_SCALE) with (js_int (10 ^ Z.of_nat 5)).
  change (js_int SIZE_SCALE) with (js_int (10 ^ Z.of_nat 2)).
  rewrite (toFixed_scaled pb 5 (getInt32_range _ _ _ E1)).
  rewrite (toFixed_scaled pa 5 (getInt32_range _ _ _ E2)).
  rewrite (toFixed_scaled sb 2 (getInt32_range _ _ _ E3)).
  rewrite (toFixed_scaled sa 2 (getInt32_range _ _ _ E4)).
  repeat split; reflexivity.
Qed.

(** C9.  In every decoded tick the bid and ask prices are decimal strings
    with exactly 5 fractional digits, namely the digits of the row's scaled
    32-bit integers with the point 5 places from the right, and the bid and
    ask sizes are decimal strings with exactly 2 fractional digits, built
    the same way; this holds under both names of each field. *)
Theorem decoded_fields_fixed_format (buffer : list byte) (ticks : list DecodedTick) :
  parseBinaryData buffer = Return ticks ->
  forall k tick,
    nth_error ticks k = Some tick ->
    tick_fields_of_row buffer (Z.of_nat k) tick /\
    fixed_decimal 5 (priceBid tick) /\ fixed_decimal 5 (priceAsk tick) /\
    fixed_decimal 5 (bid_price tick) /\ fixed_decimal 5 (ask_price tick) /\
    fixed_decimal 2 (sizeBid tick) /\ fixed_decimal 2 (sizeAsk tick) /\
    fixed_decimal 2 (bid_size tick) /\ fixed_decimal 2 (ask_size tick).
Proof.
  intros R k tick E.
  destruct (parseBinaryData_rows buffer ticks R) as (initial & _ & Rows).
  pose proof (parseRow_fields _ _ _ _ (Rows k tick E)) as F.
  split; [exact F|].
  destruct F as (pb & pa & sb & sa & _ & _ & _ & _ & B1 & B2 & B3 & B4 & C1 & C2 & C3 & C4).
  rewrite C1, C2, C3, C4, B1, B2, B3, B4.
  repeat split; apply decimal_of_scaled_fixed.
Qed.

Lemma decoded_fields_fixed_format_witness :
  fixed_decimal 5 "1.50100" /\ fixed_decimal 2 "0.50".
Proof.
  destruct (decoded_fields_fixed_format example_ticks _ decode_example_ticks 1%nat _ eq_refl)
    as (_ & P & _ & _ & _ & S & _).
  split; [exact P|exact S].
Defined.

(** The timestamps of decoded ticks are valid dates. *)
Lemma js_trunc_bound (t : Q) (M : Z) :
  (Qabs t <= inject_Z M)%Q -> Z.abs (js_trunc t) <= M.
Proof.
  intros B. apply Qabs_Qle_condition in B. destruct B as [B1 B2].
  unfold js_trunc. destruct (Qle_bool 0 t) eqn:S.
  - apply Qle_bool_iff in S.
    assert (L : 0 <= Qfloor t) by (change 0 with (Qfloor 0); apply Qfloor_resp_le; exact S).
    assert (U : Qfloor t <= M).
    { rewrite Zle_Qle. eapply Qle_trans; [apply Qfloor_le|exact B2]. }
    lia.
  - assert (N : (t < 0)%Q).
    { apply Qnot_le_lt. intro C. apply Qle_bool_iff in C. congruence. }
    assert (U : Qceiling t <= 0).
    { change 0 with (Qceiling 0). apply Qceiling_resp_le. apply Qlt_le_weak, N. }
    assert (L : - M <= Qceiling t).
    { rewrite Zle_Qle. rewrite inject_Z_opp.
      eapply Qle_trans; [exact B1|apply Qle_ceiling]. }
    lia.
Qed.

Lemma parseRow_valid_time buffer initial rowOffset tick :
  parseRow buffer initial rowOffset = Return tick -> valid_time tick.
Proof.
  intros R. destruct (parseRow_timestamp _ _ _ _ R) as (delta & _ & T).
  unfold timeValueOfUs, newDate in T.
  destruct (Qle_bool _ _) eqn:V; [|discriminate].
  apply Qle_bool_iff in V. inversion T as [E]. unfold valid_time. rewrite <- E.
  apply js_trunc_bound, V.
Qed.

Lemma decoded_ticks_valid_time (buffer : list byte) (ticks : list DecodedTick) :
  parseBinaryData buffer = Return ticks -> Forall valid_time ticks.
Proof.
  intros R. destruct (parseBinaryData_rows buffer ticks R) as (initial & _ & Rows).
  apply Forall_forall. intros tick I. apply In_nth_error in I. destruct I as [k E].
  eapply parseRow_valid_time, Rows, E.
Qed.

(** ** L2Codec *)

Section L2Numbers.
Local Open Scope Q_scope.

(** A number whose rounding is at most [B] in magnitude is itself hardly
    larger. *)
Lemma fl_bounded_inv (y B : Q) :
  Qabs (fl y) <= B -> Qabs y <= B * (1 + (1 # 4503599627370496)).
Proof.
  intros V. pose proof (fl_rel_err y) as R.
  assert (U : pow2 (-53) == 1 # 9007199254740992) by reflexivity.
  rewrite U in R.
  pose proof (Qabs_nonneg y) as Y0. pose proof (Qabs_nonneg (fl y)) as F0.
  pose proof (Qabs_triangle_reverse y (fl y)) as T.
  assert (S : Qabs (y - fl y) == Qabs (fl y - y)).
  { rewrite <- (Qabs_opp (fl y - y)). apply Qabs_wd. ring. }
  rewrite S in T.
  set (a := Qabs y) in *. set (b := Qabs (fl y)) in *. set (c := Qabs (fl y - y)) in *.
  nra.
Qed.

Lemma inject_Z_abs_le (z b : Z) : Qabs (inject_Z z) <= inject_Z b <-> (Z.abs z <= b)%Z.
Proof.
  change (Qabs (inject_Z z)) with (inject_Z (Z.abs z)). rewrite <- Zle_Qle. reflexivity.
Qed.

Lemma js_trunc_int (z : Z) : js_trunc (inject_Z z) = z.
Proof.
  unfold js_trunc. destruct (Qle_bool 0 (inject_Z z)); [apply Qfloor_Z|].
  unfold Qceiling. rewrite <- inject_Z_opp, Qfloor_Z. lia.
Qed.

(** One accumulation of a delta-time followed by a valid date: the running
    time was exact, stays exact, and is within the range of dates. *)
Lemma l2_time_step (T dt : Z) :
  (Z.abs dt <= 2 ^ 31)%Z ->
  Qabs (js_add (js_of_bigint T) (js_int dt)) <= inject_Z maxTimeValue ->
  js_add (js_of_bigint T) (js_int dt) = js_int (T + dt) /\
  (Z.abs (T + dt) <= maxTimeValue)%Z.
Proof.
  unfold js_add, js_of_bigint, js_int. intros D V.
  set (c := fl (inject_Z T)) in *.
  pose proof (fl_bounded_inv _ _ V) as Y.
  assert (DB : Qabs (inject_Z dt) <= inject_Z (2 ^ 31)) by (apply inject_Z_abs_le; exact D).
  assert (CB : Qabs c <= 8700000000000000).
  { apply Qabs_Qle_condition in Y. apply Qabs_Qle_condition in DB.
    apply Qabs_Qle_condition.
    change (inject_Z maxTimeValue) with 8640000000000000 in Y.
    change (inject_Z (2 ^ 31)) with 2147483648 in DB. lra. }
  pose proof (fl_bounded_inv _ _ CB) as TB.
  assert (TZ : (Z.abs T <= 2 ^ 53)%Z).
  { apply inject_Z_abs_le. eapply Qle_trans; [exact TB|]. unfold Qle; simpl; lia. }
  assert (CE : c = inject_Z T) by (apply fl_int; exact TZ).
  rewrite CE in *.
  assert (E : inject_Z T + inject_Z dt == inject_Z (T + dt)) by (rewrite inject_Z_plus; reflexivity).
  rewrite (fl_compat _ _ E) in *.
  assert (SZ : (Z.abs (T + dt) <= 2 ^ 53)%Z).
  { apply inject_Z_abs_le. rewrite <- E. eapply Qle_trans; [exact Y|]. unfold Qle; simpl; lia. }
  rewrite (fl_int _ SZ) in *. split; [reflexivity|].
  apply inject_Z_abs_le. exact V.
Qed.

(** Sums of integers that stay within [2^53] are exact. *)
Lemma js_add_int (a b : Z) :
  (Z.abs (a + b) <= 2 ^ 53)%Z -> js_add (js_int a) (js_int b) = js_int (a + b).
Proof.
  intros B. unfold js_add, js_int.
  assert (E : inject_Z a + inject_Z b == inject_Z (a + b)) by (rewrite inject_Z_plus; reflexivity).
  rewrite (fl_compat _ _ E). apply fl_int. exact B.
Qed.

(** Printing [P / 10^5] with four decimals: the integer printed is a
    nearest one to [|P| / 10], and the sign is that of [P]. *)
Lemma toFixed_int_price (P : Z) :
  (Z.abs P < 2 ^ 53)%Z ->
  let x := js_div (js_int P) (js_int PRICE_SCALE) in
  let n := toFixed_int x 4 in
  (0 <= n)%Z /\ (Z.abs (10 * n - Z.abs P) <= 5)%Z /\ (x < 0 <-> (P < 0)%Z).
Proof.
  intros B x n. unfold js_div, js_int in x. change (inject_Z PRICE_SCALE) with 100000 in x.
  set (q := inject_Z P / 100000) in *.
  assert (QS : q * 100000 == inject_Z P) by (unfold q; field).
  pose proof (fl_rel_err q) as R. fold x in R.
  assert (U : pow2 (-53) == 1 # 9007199254740992) by reflexivity.
  rewrite U in R.
  assert (VB : inject_Z (Z.abs P) <= 9007199254740991).
  { change 9007199254740991 with (inject_Z (2 ^ 53 - 1)). rewrite <- Zle_Qle. lia. }
  set (p := inject_Z (Z.abs P)) in *.
  assert (FN : 0 <= q -> 0 <= x) by apply fl_nonneg.
  clearbody x. clearbody q.
  assert (S : (x < 0 <-> (P < 0)%Z) /\ - (1 # 10) < Qabs x * 10000 - p * (1 # 10) < 1 # 10).
  { destruct (Z_le_gt_dec 0 P) as [Pos|Neg].
    - assert (V0 : 0 <= inject_Z P) by (change 0 with (inject_Z 0); rewrite <- Zle_Qle; exact Pos).
      assert (Q0 : 0 <= q) by lra.
      assert (X0 : 0 <= x) by (apply FN; exact Q0).
      rewrite (Qabs_pos q Q0) in R. apply Qabs_Qle_condition in R. destruct R as [R1 R2].
      rewrite (Qabs_pos x X0). unfold p in *. rewrite Z.abs_eq in * by exact Pos.
      split; [split; [intros C; exfalso; lra|intros C; exfalso; lia]|]. split; lra.
    - assert (V0 : inject_Z P <= -1).
      { change (-1) with (inject_Z (-1)). rewrite <- Zle_Qle. lia. }
      assert (Q0 : q < 0) by lra.
      assert (QA : Qabs q == - q) by (apply Qabs_neg; lra).
      rewrite QA in R. apply Qabs_Qle_condition in R. destruct R as [R1 R2].
      assert (X0 : x < 0) by lra.
      assert (A : Qabs x == - x) by (apply Qabs_neg; lra).
      assert (VA : p == - inject_Z P).
      { unfold p. rewrite Z.abs_neq by lia. rewrite inject_Z_opp. reflexivity. }
      rewrite A. split; [split; [intros _; lia|intros _; exact X0]|]. split; lra. }
  destruct S as [Sg [S1 S2]]. 
  assert (N1 : inject_Z n <= Qabs x * inject_Z (10 ^ Z.of_nat 4) + (1 # 2)) by apply Qfloor_le.
  assert (N2 : Qabs x * inject_Z (10 ^ Z.of_nat 4) + (1 # 2) < inject_Z (n + 1)) by apply Qlt_floor.
  change (inject_Z (10 ^ Z.of_nat 4)) with 10000 in N1, N2.
  rewrite inject_Z_plus in N2. change (inject_Z 1) with 1 in N2.
  pose proof (Qabs_nonneg x) as XA.
  assert (P0 : 0 <= p) by (unfold p; change 0 with (inject_Z 0); rewrite <- Zle_Qle; lia).
  assert (Z1 : (-1 < n)%Z).
  { rewrite Zlt_Qlt. change (inject_Z (-1)) with (-1). lra. }
  assert (Z2 : (10 * n - Z.abs P < 6)%Z).
  { rewrite Zlt_Qlt. unfold Z.sub. rewrite inject_Z_plus, inject_Z_mult, inject_Z_opp.
    fold p. change (inject_Z 10) with 10. change (inject_Z 6) with 6. lra. }
  assert (Z3 : (-6 < 10 * n - Z.abs P)%Z).
  { rewrite Zlt_Qlt. unfold Z.sub. rewrite inject_Z_plus, inject_Z_mult, inject_Z_opp.
    fold p. change (inject_Z 10) with 10. change (inject_Z (-6)) with (-6). lra. }
  split; [lia|]. split; [lia|exact Sg].
Qed.

End L2Numbers.

Lemma l2_row_int32_range buffer offset i field :
  Z.abs (l2_row_int32 buffer offset i field) <= 2 ^ 31.
Proof.
  unfold l2_row_int32.
  destruct (getInt32 buffer _) as [v|e] eqn:E; [apply (getInt32_range _ _ _ E)|].
  vm_compute. discriminate.
Qed.

Lemma l2_sum_bound buffer offset field k :
  Z.abs (l2_sum buffer offset field k) <= Z.of_nat k * 2 ^ 31.
Proof.
  induction k as [|k IH]; cbn [l2_sum]; [simpl; lia|].
  pose proof (l2_row_int32_range buffer offset (Z.of_nat k) field). lia.
Qed.

(** While the partial sums stay below [2^53], the running price is their
    exact value. *)
Lemma l2_cumulativePrice_exact buffer offset k :
  l2_price_sums_exact buffer offset k ->
  l2_cumulativePrice buffer offset k = js_int (l2_sum buffer offset 4 k).
Proof.
  induction k as [|k IH]; intros X; [reflexivity|].
  cbn [l2_cumulativePrice l2_sum]. rewrite IH.
  - apply js_add_int. pose proof (X (S k) (Nat.le_refl _)) as B. cbn [l2_sum] in B. lia.
  - intros i Hi. apply X. lia.
Qed.

Section L2Loop.
Variable exchangeLabel : list byte -> Z -> string.

(** One row preserves the loop invariant. *)
Lemma parseL2Row_inv buffer mappingBytes initial offset j st st' :
  l2_loop_inv buffer initial offset j st ->
  parseL2Row exchangeLabel buffer mappingBytes (offset + Z.of_nat j * l2_rowSize) st = Return st' ->
  l2_loop_inv buffer initial offset (S j) st'.
Proof.
  intros (IL & IT & IP & IE). unfold parseL2Row.
  destruct (getInt32 buffer (offset + Z.of_nat j * l2_rowSize)) as [dt|e] eqn:E0;
    cbn [bind]; [|discriminate].
  destruct (getInt32 buffer (offset + Z.of_nat j * l2_rowSize + 4)) as [dp|e] eqn:E1;
    cbn [bind]; [|discriminate].
  destruct (getInt32 buffer (offset + Z.of_nat j * l2_rowSize + 8)) as [sz|e]; cbn [bind];
    [|discriminate].
  destruct (getUint8 buffer (offset + Z.of_nat j * l2_rowSize + 12)) as [ty|e]; cbn [bind];
    [|discriminate].
  destruct (getUint8 buffer (offset + Z.of_nat j * l2_rowSize + 13)) as [code|e]; cbn [bind];
    [|discriminate].
  unfold newDate.
  destruct (Qle_bool _ (inject_Z maxTimeValue)) eqn:V; cbn [bind toISOString]; [|discriminate].
  intros R. inversion R; subst st'; clear R.
  apply Qle_bool_iff in V. rewrite IT in V |- *.
  assert (DT : l2_row_int32 buffer offset (Z.of_nat j) 0 = dt).
  { unfold l2_row_int32. rewrite Z.add_0_r, E0. reflexivity. }
  assert (DP : l2_row_int32 buffer offset (Z.of_nat j) 4 = dp).
  { unfold l2_row_int32. rewrite E1. reflexivity. }
  destruct (l2_time_step _ dt (getInt32_range _ _ _ E0) V) as [TE TB].
  rewrite TE in *.
  assert (PE : js_add (cumulativePrice st) (js_int dp)
               = l2_cumulativePrice buffer offset (S j)).
  { cbn [l2_cumulativePrice]. rewrite IP, DP. reflexivity. }
  rewrite PE.
  unfold l2_loop_inv. cbn [l2_data cumulativeTimeMs cumulativePrice].
  split; [unfold push; rewrite length_app, IL; simpl; lia|].
  split.
  { cbn [l2_sum]. rewrite DT, Z.add_assoc. unfold js_of_bigint, js_int.
    symmetry. apply fl_int. unfold maxTimeValue in TB.
    change (2 ^ 53) with 9007199254740992. lia. }
  split; [reflexivity|].
  intros k e Ek. unfold push in Ek.
  destruct (Nat.lt_ge_cases k j) as [LT|GE].
  - apply IE. rewrite nth_error_app1 in Ek by lia. exact Ek.
  - rewrite nth_error_app2 in Ek by lia. rewrite IL in Ek.
    destruct (k - j)%nat as [|d] eqn:D; simpl in Ek; [|destruct d; discriminate].
    assert (k = j) by lia. subst k. inversion Ek; subst e; clear Ek.
    unfold l2_entry_of_sums. cbv zeta. cbn [timestamp_ms l2_timestamp price].
    split; [cbn [l2_sum]; rewrite DT, Z.add_assoc; reflexivity|].
    split; [cbn [l2_sum]; rewrite DT, Z.add_assoc; apply js_trunc_int|].
    split; [reflexivity|].
    intros X. pose proof (l2_cumulativePrice_exact buffer offset (S j) X) as CE.
    cbn [l2_cumulativePrice] in CE. rewrite CE.
    split; [reflexivity|].
    set (P := l2_sum buffer offset 4 (S j)).
    assert (PB : Z.abs P < 2 ^ 53) by (apply X; lia).
    destruct (toFixed_int_price P PB) as (N0 & N1 & SG).
    exists (toFixed_int (js_div (js_int P) (js_int PRICE_SCALE)) 4).
    split; [exact N0|]. split; [exact N1|].
    unfold parseFloat_toFixed. change (inject_Z (10 ^ Z.of_nat 4)) with (inject_Z 10000).
    apply fl_compat.
    destruct (Qlt_le_dec _ 0) as [L|L].
    + apply SG in L. rewrite Z.sgn_neg by exact L.
      replace (-1 * toFixed_int (js_div (js_int P) (js_int PRICE_SCALE)) 4)
        with (- toFixed_int (js_div (js_int P) (js_int PRICE_SCALE)) 4) by lia.
      rewrite inject_Z_opp. field.
    + destruct (Z.eq_dec P 0) as [Z0|NZ].
      * rewrite Z0 in *. reflexivity.
      * assert (0 < P) by (destruct (Z_lt_le_dec P 0) as [C|C];
                           [apply SG in C; exfalso; apply (Qlt_not_le _ _ C L)|lia]).
        rewrite Z.sgn_pos by assumption. rewrite Z.mul_1_l. reflexivity.
Qed.

Lemma parseL2Rows_inv buffer mappingBytes initial offset :
  forall remaining j st st',
    l2_loop_inv buffer initial offset j st ->
    parseL2Rows exchangeLabel buffer mappingBytes offset (Z.of_nat j) remaining st = Return st' ->
    l2_loop_inv buffer initial offset (j + remaining) st'.
Proof.
  induction remaining as [|n IH]; intros j st st' I R.
  - simpl in R. inversion R; subst. rewrite Nat.add_0_r. exact I.
  - cbn [parseL2Rows] in R.
    destruct (parseL2Row exchangeLabel buffer mappingBytes
                (offset + Z.of_nat j * l2_rowSize) st) as [st1|e] eqn:PR;
      cbn [bind] in R; [|discriminate].
    replace (j + S n)%nat with (S j + n)%nat by lia.
    apply (IH (S j) st1 st').
    + eapply parseL2Row_inv; eassumption.
    + replace (Z.of_nat (S j)) with (Z.of_nat j + 1) by lia. exact R.
Qed.

(** C6 (as amended).  For every level-2 buffer that decodes, the entry of
    row [k] has as time the header's timestamp plus the sum of the
    delta-times of the rows up to [k], and as price the running price of
    the loop divided by 100 000 and rounded to four decimals.  The running
    price is the sum [P] of the price deltas of the rows up to [k] as long
    as these sums stay below [2^53] in magnitude, and the price is then the
    number nearest to [n / 10^4] for an integer [n] with
    [| 10 n - |P| | <= 5], with the sign of [P]. *)
Theorem l2_entries_running_sums (buffer : list byte) (entries : list L2Entry) :
  parseBinaryLevel2Data exchangeLabel buffer = Return entries ->
  exists initial mappingLength,
    l2_header_initialTimestampMs buffer = Some initial /\
    l2_header_mappingLength buffer = Some mappingLength /\
    forall k e,
      nth_error entries k = Some e ->
      l2_entry_of_sums buffer initial (12 + mappingLength) k e.
Proof.
  unfold parseBinaryLevel2Data. intros R.
  destruct (getBigUint64 buffer 0) as [initial|e] eqn:R0; cbn [bind] in R; [|discriminate].
  destruct (getUint32 buffer 8) as [mappingLength|e] eqn:R1; cbn [bind] in R; [|discriminate].
  destruct (parseL2Rows _ _ _ _ _ _ _) as [st|e] eqn:PR; cbn [bind] in R; [|discriminate].
  inversion R; subst entries; clear R.
  exists initial, mappingLength.
  unfold l2_header_initialTimestampMs, l2_header_mappingLength. rewrite R0, R1.
  split; [reflexivity|]. split; [reflexivity|].
  apply (parseL2Rows_inv buffer _ initial (12 + mappingLength) _ 0%nat _ st) in PR.
  - destruct PR as (_ & _ & _ & IE). exact IE.
  - unfold l2_loop_inv. cbn [l2_data cumulativeTimeMs cumulativePrice l2_sum l2_cumulativePrice].
    rewrite Z.add_0_r. split; [reflexivity|]. split; [reflexivity|].
    split; [reflexivity|]. intros k e E. destruct k; discriminate.
Qed.

End L2Loop.

(** The example decodes to one entry, priced 1.2346. *)
Example decode_example_l2 :
  parseBinaryLevel2Data example_labels example_l2
  = Return [mkL2Entry 1700000000005 (js_int 1700000000005)
                      (fl (12346 # 10000)) 100 "NASDAQ" 0].
Proof. vm_compute. reflexivity. Qed.

Lemma l2_entries_running_sums_witness :
  exists n, 0 <= n /\ Z.abs (10 * n - 123457) <= 5 /\
            fl (12346 # 10000) = fl (inject_Z (1 * n) / inject_Z 10000).
Proof.
  destruct (l2_entries_running_sums example_labels example_l2 _ decode_example_l2)
    as (initial & mappingLength & HI & HM & E).
  assert (M : l2_header_mappingLength example_l2 = Some 8) by (vm_compute; reflexivity).
  assert (ML : mappingLength = 8) by congruence. subst mappingLength.
  destruct (E 0%nat _ eq_refl) as (_ & _ & _ & PR).
  assert (S : l2_sum example_l2 (12 + 8) 4 1 = 123457) by (vm_compute; reflexivity).
  assert (X : l2_price_sums_exact example_l2 (12 + 8) 1).
  { intros i Hi. destruct i as [|i]; [reflexivity|].
    assert (i = 0%nat) by lia. subst i. rewrite S. reflexivity. }
  destruct (PR X) as (_ & n & N0 & N1 & N2).
  rewrite S in N1, N2.
  exists n. split; [exact N0|]. split; [exact N1|exact N2].
Defined.

(** C6, counterexample.  With a single price delta of 123457 the price is
    1.2346, not 1.23457. *)
Lemma l2_price_is_scaled_sum_counterexample :
  ~ l2_price_is_scaled_sum example_labels example_l2.
Proof.
  intro C.
  assert (M : l2_header_mappingLength example_l2 = Some 8) by (vm_compute; reflexivity).
  pose proof (C _ 8 decode_example_l2 M 0%nat _ eq_refl) as K.
  cbn [price] in K.
  assert (N : fl (12346 # 10000)
              <> js_div (js_int (l2_sum example_l2 (12 + 8) 4 1)) (js_int PRICE_SCALE)).
  { vm_compute. discriminate. }
  apply N, K.
Qed.
(** ** Aggregator: full mode against incremental mode *)

Section ChartProofs.
Context {number : Type} `{JsNumberOps number}.
Variable ta_ema : list number -> nat -> list (option number).

Lemma lineLoop_body_wf tf st tick : lineLoop_wf (lineLoop_body tf st tick).
Proof.
  unfold lineLoop_wf, lineLoop_body.
  destruct (current st) as [[[[ct cb] ca] cm]|] eqn:E; simpl.
  - destruct (strict_ne ct _); simpl; discriminate.
  - discriminate.
Qed.

Lemma lineLoop_run_snoc tf ticks tick :
  lineLoop_run tf (ticks ++ [tick]) = lineLoop_body tf (lineLoop_run tf ticks) tick.
Proof. unfold lineLoop_run. rewrite fold_left_app. reflexivity. Qed.

Lemma lineLoop_run_wf tf ticks : lineLoop_wf (lineLoop_run tf ticks).
Proof.
  destruct ticks as [|t ticks] using rev_ind.
  - unfold lineLoop_wf. simpl. auto.
  - rewrite lineLoop_run_snoc. apply lineLoop_body_wf.
Qed.

(** The series held by the incremental mode are the pushed points of the
    full-mode loop followed by its open point. *)
Lemma lineLoop_step_sim tf st tick :
  lineLoop_wf st ->
  let b := bucketOf (time tick) tf in
  let st1 := lineLoop_flush st in
  let st2 := lineLoop_flush (lineLoop_body tf st tick) in
  forall s1 s2 s3,
    fst (updateLineSeries b s1 (bidData st1) (bid tick)) = bidData st2 /\
    fst (updateLineSeries b s2 (askData st1) (ask tick)) = askData st2 /\
    fst (updateLineSeries b s3 (midData st1) (mid tick)) = midData st2.
Proof.
  intros WF b st1 st2 s1 s2 s3. subst st1 st2.
  unfold lineLoop_body, lineLoop_flush, updateLineSeries. fold b.
  destruct (current st) as [[[[ct cb] ca] cm]|] eqn:E.
  - simpl. rewrite !unsnoc_push. simpl.
    destruct (strict_ne ct b) eqn:NE; simpl; rewrite ?E; simpl; auto.
  - destruct (WF E) as (B & A & M). simpl. rewrite B, A, M. simpl. auto.
Qed.

Lemma candleLoop_body_wf tf st tick :
  candleLoop_wf st -> candleLoop_wf (candleLoop_body tf st tick).
Proof.
  intros [T E]. unfold candleLoop_wf, candleLoop_body.
  destruct (currentCandle st) as [c|] eqn:C; simpl in T; rewrite T; simpl.
  - destruct (strict_ne (c_time c) _); simpl; split; auto; discriminate.
  - split; auto; discriminate.
Qed.

Lemma candleLoop_run_snoc tf ticks tick :
  candleLoop_run tf (ticks ++ [tick]) = candleLoop_body tf (candleLoop_run tf ticks) tick.
Proof. unfold candleLoop_run. rewrite fold_left_app. reflexivity. Qed.

Lemma candleLoop_run_wf tf ticks : candleLoop_wf (candleLoop_run tf ticks).
Proof.
  destruct ticks as [|t ticks IH] using rev_ind.
  - split; simpl; auto.
  - rewrite candleLoop_run_snoc. apply candleLoop_body_wf, IH.
Qed.

Lemma candleLoop_step_sim tf st tick :
  candleLoop_wf st ->
  fst (updateCandles (bucketOf (time tick) tf) (candleLoop_flush st) (mid tick))
  = candleLoop_flush (candleLoop_body tf st tick).
Proof.
  intros [T E]. unfold candleLoop_body, candleLoop_flush, updateCandles.
  destruct (currentCandle st) as [c|] eqn:C; simpl in T; rewrite T.
  - rewrite unsnoc_push.
    destruct (strict_ne (c_time c) _) eqn:NE; simpl; rewrite ?C; reflexivity.
  - rewrite (E eq_refl). reflexivity.
Qed.

Lemma replay_snoc tf st qs q :
  replay ta_ema tf st (qs ++ [q]) = fst (liveTick ta_ema tf (replay ta_ema tf st qs) q).
Proof. unfold replay. rewrite fold_left_app. reflexivity. Qed.

(** State of the incremental mode after any sequence of quotes, in terms
    of the two full-mode loops run over the same ticks. *)
Lemma replay_sim tf qs :
  let st := replay ta_ema tf chart_init qs in
  let ticks := map tick_of_quote qs in
  let ls := lineLoop_flush (lineLoop_run tf ticks) in
  allTicksData st = ticks /\
  aggregatedLineData st = mkLineData (bidData ls) (askData ls) (midData ls) /\
  aggregatedCandleData st = candleLoop_flush (candleLoop_run tf ticks).
Proof.
  cbv zeta. induction qs as [|q qs IH] using rev_ind.
  - simpl. auto.
  - destruct IH as (IA & IL & IC).
    rewrite replay_snoc, map_app. simpl map.
    rewrite lineLoop_run_snoc, candleLoop_run_snoc.
    set (st := replay ta_ema tf chart_init qs) in *.
    set (ticks := map tick_of_quote qs) in *.
    pose proof (lineLoop_step_sim tf (lineLoop_run tf ticks) (tick_of_quote q)
                  (lineLoop_run_wf tf ticks) SBid SAsk SMid) as (SB & SA & SM).
    pose proof (candleLoop_step_sim tf (candleLoop_run tf ticks) (tick_of_quote q)
                  (candleLoop_run_wf tf ticks)) as SC.
    unfold liveTick. rewrite IL, IC. simpl ld_bid. simpl ld_ask. simpl ld_mid.
    simpl in SB, SA, SM, SC.
    destruct (updateLineSeries _ SBid _ _) as [bidD e1].
    destruct (updateLineSeries _ SAsk _ _) as [askD e2].
    destruct (updateLineSeries _ SMid _ _) as [midD e3].
    destruct (updateCandles _ _ _) as [candleD e4].
    destruct (calculateEMAs ta_ema midD) as [em e5].
    simpl in *. subst. rewrite IA. unfold push. auto.
Qed.

(** C1.  Feeding the ticks one at a time through the live-tick effect, from
    the empty state, leaves the bid, ask and mid line series and the candle
    series that [aggregateLineData] and [aggregateCandleData] compute in one
    pass over the same ticks with the same timeframe. *)
Theorem full_incremental_equiv (timeframe : number) (qs : list (Quote number)) :
  let st := replay ta_ema timeframe chart_init qs in
  allTicksData st = map tick_of_quote qs /\
  aggregatedLineData st = aggregateLineData (allTicksData st) timeframe /\
  aggregatedCandleData st = aggregateCandleData (allTicksData st) timeframe.
Proof.
  destruct (replay_sim timeframe qs) as (IA & IL & IC).
  cbv zeta. rewrite IA, IL, IC.
  unfold aggregateLineData, aggregateCandleData.
  destruct (map tick_of_quote qs) eqn:M; auto.
Qed.

End ChartProofs.

(** ** Aggregator: the candle invariant *)

Section CandleInvariant.
Context {number : Type} `{JsNumberOps number}.
Variable ta_ema : list number -> nat -> list (option number).

(** An order under which [Math.max] and [Math.min] are bounds: the
    numeric order on values other than NaN. *)
Variable le : number -> number -> Prop.
Hypothesis le_refl : forall a, le a a.
Hypothesis le_trans : forall a b c, le a b -> le b c -> le a c.
Hypothesis max_ge_l : forall a b, le a (math_max a b).
Hypothesis max_ge_r : forall a b, le b (math_max a b).
Hypothesis min_le_l : forall a b, le (math_min a b) a.
Hypothesis min_le_r : forall a b, le (math_min a b) b.

Lemma candle_ok_new (t m : number) : candle_ok le (mkCandle t m m m m).
Proof. unfold candle_ok; simpl. auto. Qed.

Lemma candle_ok_update (c : Candle number) (m : number) :
  candle_ok le c ->
  candle_ok le (mkCandle (c_time c) (open c) (math_max (high c) m)
                         (math_min (low c) m) m).
Proof.
  intros (LO & LC & OH & CH). unfold candle_ok; simpl. repeat split.
  - apply le_trans with (low c); [apply min_le_l | exact LO].
  - apply min_le_r.
  - apply le_trans with (high c); [exact OH | apply max_ge_l].
  - apply max_ge_r.
Qed.

Lemma candleLoop_body_ok tf st tick :
  Forall (candle_ok le) (candleLoop_flush st) ->
  Forall (candle_ok le) (candleLoop_flush (candleLoop_body tf st tick)).
Proof.
  unfold candleLoop_body, candleLoop_flush, push. intros F.
  destruct (match currentCandleTime st with
            | Some t => strict_ne t _ | None => true end); simpl.
  - apply Forall_app. split; [exact F|]. constructor; [apply candle_ok_new|constructor].
  - destruct (currentCandle st) as [c|] eqn:C; simpl; [|rewrite C; exact F].
    apply Forall_app in F. destruct F as [F1 F2].
    apply Forall_app. split; [exact F1|].
    constructor; [|constructor]. apply candle_ok_update. inversion F2; assumption.
Qed.

Lemma candleLoop_run_ok tf ticks :
  Forall (candle_ok le) (candleLoop_flush (candleLoop_run tf ticks)).
Proof.
  induction ticks as [|t ticks IH] using rev_ind.
  - constructor.
  - rewrite candleLoop_run_snoc. apply candleLoop_body_ok, IH.
Qed.

Lemma updateCandles_ok b data m :
  Forall (candle_ok le) data ->
  Forall (candle_ok le) (fst (updateCandles b data m)).
Proof.
  intros F. unfold updateCandles, push.
  destruct (unsnoc data) as [[init lst]|] eqn:U; simpl.
  - apply unsnoc_some in U. unfold push in U. subst data.
    apply Forall_app in F. destruct F as [F1 F2].
    destruct (strict_ne (c_time lst) b); simpl.
    + apply Forall_app. split; [apply Forall_app; split; assumption|].
      constructor; [apply candle_ok_new|constructor].
    + apply Forall_app. split; [exact F1|].
      constructor; [|constructor]. apply candle_ok_update. inversion F2; assumption.
  - apply Forall_app. split; [exact F|].
    constructor; [apply candle_ok_new|constructor].
Qed.

Lemma liveTick_candles tf st q :
  aggregatedCandleData (fst (liveTick ta_ema tf st q))
  = fst (updateCandles (bucketOf (q_t q) tf) (aggregatedCandleData st)
                       (mid_of (q_bid q) (q_ask q))).
Proof.
  unfold liveTick.
  destruct (updateLineSeries _ SBid _ _) as [bidD e1].
  destruct (updateLineSeries _ SAsk _ _) as [askD e2].
  destruct (updateLineSeries _ SMid _ _) as [midD e3].
  destruct (updateCandles _ _ _) as [candleD e4].
  destruct (calculateEMAs ta_ema midD) as [em e5]. reflexivity.
Qed.

Lemma replay_candles_ok tf qs st :
  Forall (candle_ok le) (aggregatedCandleData st) ->
  Forall (candle_ok le) (aggregatedCandleData (replay ta_ema tf st qs)).
Proof.
  revert st. induction qs as [|q qs IH]; intros st F; simpl; [exact F|].
  apply IH. rewrite liveTick_candles. apply updateCandles_ok, F.
Qed.

(** C7.  Every candle of the aggregator satisfies
    [low <= min(open, close)] and [high >= max(open, close)]: in full mode
    the candles already pushed and the open one after any number of
    ticks, hence the candles returned; in incremental mode all candles
    held after any number of live ticks. *)
Theorem candle_invariant (timeframe : number) :
  (forall ticks,
      let st := candleLoop_run timeframe ticks in
      Forall (candle_ok le) (candles st) /\
      (forall c, currentCandle st = Some c -> candle_ok le c)) /\
  (forall ticks, Forall (candle_ok le) (aggregateCandleData ticks timeframe)) /\
  (forall qs,
      Forall (candle_ok le)
             (aggregatedCandleData (replay ta_ema timeframe chart_init qs))).
Proof.
  split; [|split].
  - intros ticks st. pose proof (candleLoop_run_ok timeframe ticks) as F.
    fold st in F. unfold candleLoop_flush, push in F.
    destruct (currentCandle st) as [c|] eqn:C.
    + apply Forall_app in F. destruct F as [F1 F2]. split; [exact F1|].
      intros c' E. inversion E; subst. inversion F2; assumption.
    + split; [exact F|]. discriminate.
  - intros ticks. unfold aggregateCandleData.
    destruct ticks; [constructor|]. apply candleLoop_run_ok.
  - intros qs. apply replay_candles_ok. constructor.
Qed.

End CandleInvariant.

(** ** EMA engine *)

Section EMAProofs.
Context {number : Type} `{JsNumberOps number}.

Lemma emaCalls_app (a b : list (Event number)) :
  emaCalls (a ++ b) = emaCalls a ++ emaCalls b.
Proof.
  induction a as [|e a IH]; simpl; [reflexivity|].
  destruct e; simpl; rewrite IH; reflexivity.
Qed.

Lemma seriesUpdates_app s (a b : list (Event number)) :
  seriesUpdates s (a ++ b) = seriesUpdates s a ++ seriesUpdates s b.
Proof.
  induction a as [|e a IH]; simpl; [reflexivity|].
  destruct e; simpl; rewrite ?IH; [reflexivity| |reflexivity].
  destruct (SeriesId_eqb s s0); simpl; rewrite ?IH; reflexivity.
Qed.

Lemma updateLineSeries_events b s data v :
  snd (updateLineSeries b s data v) = [SeriesUpdate s (mkPoint b v)].
Proof.
  unfold updateLineSeries. destruct (unsnoc data) as [[i l]|]; [|reflexivity].
  destruct (strict_ne _ _); reflexivity.
Qed.

Lemma updateLineSeries_nonempty b s data v :
  fst (updateLineSeries b s data v) <> [].
Proof.
  unfold updateLineSeries, push. destruct (unsnoc data) as [[i l]|]; simpl.
  - destruct (strict_ne _ _); simpl; intro E; apply app_eq_nil in E;
      destruct E; discriminate.
  - intro E; apply app_eq_nil in E; destruct E; discriminate.
Qed.

Lemma updateCandles_no_ema b data m :
  emaCalls (snd (updateCandles b data m)) = [] /\
  forall s, seriesUpdates s (snd (updateCandles b data m)) = [].
Proof.
  unfold updateCandles. destruct (unsnoc data) as [[i l]|]; [|split; reflexivity].
  destruct (strict_ne _ _); split; reflexivity.
Qed.

Section AnyLibrary.
Variable ta_ema : list number -> nat -> list (option number).

(** C3 (as amended).  On every live tick [calculateEMAs] runs on the whole
    aggregated mid series: [ta.ema] is called exactly twice, for the
    periods 9 and 20, each time on the close prices of all the points of
    the series; the two results replace [emaData] without the previous
    [emaData] being read; only the last point of each result goes to the
    chart series. *)
Theorem live_tick_recomputes_emas (timeframe : number)
        (st : ChartState number) (q : Quote number) :
  let st' := fst (liveTick ta_ema timeframe st q) in
  let events := snd (liveTick ta_ema timeframe st q) in
  let mids := ld_mid (aggregatedLineData st') in
  mids <> [] /\
  emaCalls events = [(map value mids, 9%nat); (map value mids, 20%nat)] /\
  emaData st' = fst (calculateEMAs ta_ema mids) /\
  (forall e, fst (liveTick ta_ema timeframe (with_emaData st e) q) = st') /\
  seriesUpdates SEma9 events = lastOnly (ema9 (emaData st')) /\
  seriesUpdates SEma20 events = lastOnly (ema20 (emaData st')).
Proof.
  cbv zeta. unfold liveTick, with_emaData. simpl.
  pose proof (updateLineSeries_events (bucketOf (q_t q) timeframe) SBid
                (ld_bid (aggregatedLineData st)) (q_bid q)) as E1.
  pose proof (updateLineSeries_events (bucketOf (q_t q) timeframe) SAsk
                (ld_ask (aggregatedLineData st)) (q_ask q)) as E2.
  pose proof (updateLineSeries_events (bucketOf (q_t q) timeframe) SMid
                (ld_mid (aggregatedLineData st)) (mid_of (q_bid q) (q_ask q))) as E3.
  pose proof (updateLineSeries_nonempty (bucketOf (q_t q) timeframe) SMid
                (ld_mid (aggregatedLineData st)) (mid_of (q_bid q) (q_ask q))) as NE.
  pose proof (updateCandles_no_ema (bucketOf (q_t q) timeframe)
                (aggregatedCandleData st) (mid_of (q_bid q) (q_ask q))) as [E4 E4'].
  destruct (updateLineSeries _ SBid _ _) as [bidD e1].
  destruct (updateLineSeries _ SAsk _ _) as [askD e2].
  destruct (updateLineSeries _ SMid _ _) as [midD e3].
  destruct (updateCandles _ _ _) as [candleD e4].
  simpl in E1, E2, E3, E4, E4', NE. subst e1 e2 e3.
  unfold calculateEMAs, updateLastEma, lastOnly.
  destruct midD as [|d midD]; [contradiction|].
  cbn [fst snd ld_mid aggregatedLineData emaData ema9 ema20].
  repeat split.
  - discriminate.
  - rewrite !emaCalls_app, E4. simpl.
    repeat match goal with
           | |- context [unsnoc ?x] => destruct (unsnoc x) as [[? ?]|]
           end; reflexivity.
  - rewrite !seriesUpdates_app, E4'. simpl.
    repeat match goal with
           | |- context [unsnoc ?x] => destruct (unsnoc x) as [[? ?]|]
           end; reflexivity.
  - rewrite !seriesUpdates_app, E4'. simpl.
    repeat match goal with
           | |- context [unsnoc ?x] => destruct (unsnoc x) as [[? ?]|]
           end; reflexivity.
Qed.

End AnyLibrary.

(** *** The averages of the spec *)

Lemma ema_from_length alpha prev (values : list number) :
  List.length (ema_from alpha prev values) = List.length values.
Proof.
  revert prev. induction values as [|v values IH]; intros prev; simpl;
    [reflexivity|]. rewrite IH. reflexivity.
Qed.

(** The recurrence, position by position. *)
Lemma ema_from_nth alpha (values : list number) :
  forall prev t v,
    nth_error values t = Some v ->
    exists e,
      nth_error (ema_from alpha prev values) t = Some (Some e) /\
      match t with
      | O => e = ema_next alpha prev v
      | S t' =>
          exists e', nth_error (ema_from alpha prev values) t' = Some (Some e') /\
                     e = ema_next alpha e' v
      end.
Proof.
  induction values as [|v0 values IH]; intros prev t v E.
  - destruct t; discriminate.
  - destruct t as [|t]; simpl in E.
    + inversion E; subst. simpl. eexists. split; reflexivity.
    + destruct (IH (ema_next alpha prev v0) t v E) as (e & N & R).
      exists e. simpl. split; [exact N|].
      destruct t as [|t'].
      * exists (ema_next alpha prev v0). split; [reflexivity|exact R].
      * exact R.
Qed.

(** [zipEma] keeps every point when no value is [null] or NaN. *)
Lemma zipEma_all (mids : list (LinePoint number)) :
  forall emaValues,
    List.length emaValues = List.length mids ->
    (forall o, In o emaValues -> exists v, o = Some v /\ is_nan v = false) ->
    List.length (zipEma mids emaValues) = List.length mids /\
    forall t d v,
      nth_error mids t = Some d -> nth_error emaValues t = Some (Some v) ->
      nth_error (zipEma mids emaValues) t = Some (mkPoint (lp_time d) v).
Proof.
  induction mids as [|d0 mids IH]; intros emaValues L V.
  - split; [reflexivity|]. intros t d v E. destruct t; discriminate.
  - destruct emaValues as [|o emaValues]; [discriminate|].
    destruct (V o (or_introl eq_refl)) as (v0 & -> & NaN0).
    simpl. rewrite NaN0. simpl.
    destruct (IH emaValues) as [IL IN].
    { simpl in L. congruence. }
    { intros o Ho. apply V. right. exact Ho. }
    split; [rewrite IL; reflexivity|].
    intros t d v E1 E2. destruct t as [|t]; simpl in *.
    + inversion E1; inversion E2; subst. reflexivity.
    + apply IN; assumption.
Qed.

Lemma ema_from_some alpha prev (values : list number) o :
  In o (ema_from alpha prev values) -> exists v, o = Some v.
Proof.
  revert prev. induction values as [|v values IH]; intros prev I; simpl in I.
  - contradiction.
  - destruct I as [<-|I]; [eexists; reflexivity|]. eapply IH, I.
Qed.

Lemma nth_error_lt_some {A : Type} (l : list A) t :
  (t < List.length l)%nat -> exists x, nth_error l t = Some x.
Proof.
  intros L. destruct (nth_error l t) as [x|] eqn:E; [eexists; reflexivity|].
  apply nth_error_None in E. lia.
Qed.

(** C8.  With the averages of the spec, the EMA series over a non-empty
    mid series has one point per mid point; its first point carries the
    first mid value, and each later point carries
    [value * alpha + previous * (1 - alpha)] with [alpha = 2 / (p + 1)].
    The series for the periods 9 and 20 are the two that [calculateEMAs]
    returns. *)
Theorem ema_seed_and_recurrence (d0 : LinePoint number)
        (rest : list (LinePoint number)) (period : nat) :
  let midData := d0 :: rest in
  let series := zipEma midData (ta_ema_spec (map value midData) period) in
  let r := fst (calculateEMAs ta_ema_spec midData) in
  (forall v, In (Some v) (ta_ema_spec (map value midData) period) -> is_nan v = false) ->
  (period = 9%nat -> ema9 r = series) /\
  (period = 20%nat -> ema20 r = series) /\
  List.length series = List.length midData /\
  nth_error series 0 = Some (mkPoint (lp_time d0) (value d0)) /\
  forall t d,
    nth_error midData (S t) = Some d ->
    exists prev,
      nth_error series t = Some prev /\
      nth_error series (S t)
      = Some (mkPoint (lp_time d)
                      (num_add (num_mul (value d) (ema_alpha period))
                               (num_mul (value prev)
                                        (num_sub (num_of_Z 1) (ema_alpha period))))).
Proof.
  intros midData series r NaN.
  split; [intros ->; reflexivity|]. split; [intros ->; reflexivity|].
  set (alpha := ema_alpha period) in *.
  set (emaValues := ta_ema_spec (map value midData) period) in *.
  assert (EV : emaValues = Some (value d0) :: ema_from alpha (value d0) (map value rest))
    by reflexivity.
  destruct (zipEma_all midData emaValues) as [ZL ZN].
  { rewrite EV. simpl. rewrite ema_from_length, length_map. reflexivity. }
  { intros o I. assert (S : exists v, o = Some v).
    { rewrite EV in I. destruct I as [<-|I]; [eexists; reflexivity|].
      eapply ema_from_some, I. }
    destruct S as [v ->]. exists v. split; [reflexivity|]. apply NaN, I. }
  fold series in ZL, ZN.
  split; [exact ZL|]. split.
  - apply ZN; [reflexivity|rewrite EV; reflexivity].
  - intros t d E. simpl in E.
    assert (EM : nth_error (map value rest) t = Some (value d))
      by (rewrite nth_error_map, E; reflexivity).
    destruct (ema_from_nth alpha (map value rest) (value d0) t (value d) EM)
      as (e & N & R).
    assert (NS : nth_error series (S t) = Some (mkPoint (lp_time d) e)).
    { apply ZN; [exact E|]. rewrite EV. exact N. }
    destruct t as [|t'].
    + exists (mkPoint (lp_time d0) (value d0)). split.
      * apply ZN; [reflexivity|rewrite EV; reflexivity].
      * rewrite NS, R. reflexivity.
    + destruct R as (e' & N' & R).
      assert (LT : (t' < List.length rest)%nat).
      { assert (S t' < List.length rest)%nat by (apply nth_error_Some; congruence). lia. }
      destruct (nth_error_lt_some rest t' LT) as [d' E'].
      exists (mkPoint (lp_time d') e'). split.
      * apply ZN; [exact E'|]. rewrite EV. exact N'.
      * rewrite NS, R. reflexivity.
Qed.

End EMAProofs.

(** ** The chart component on finite doubles *)

Lemma JsDouble_max_ge_l (a b : Q) : (a <= math_max a b)%Q.
Proof.
  simpl. destruct (Qle_bool a b) eqn:E; [apply Qle_bool_iff, E|apply Qle_refl].
Qed.

Lemma JsDouble_max_ge_r (a b : Q) : (b <= math_max a b)%Q.
Proof.
  simpl. destruct (Qle_bool a b) eqn:E; [apply Qle_refl|].
  destruct (Qlt_le_dec a b) as [L|L]; [|exact L].
  apply Qlt_le_weak, Qle_bool_iff in L. congruence.
Qed.

Lemma JsDouble_min_le_l (a b : Q) : (math_min a b <= a)%Q.
Proof.
  simpl. destruct (Qle_bool a b) eqn:E; [apply Qle_refl|].
  destruct (Qlt_le_dec a b) as [L|L]; [|exact L].
  apply Qlt_le_weak, Qle_bool_iff in L. congruence.
Qed.

Lemma JsDouble_min_le_r (a b : Q) : (math_min a b <= b)%Q.
Proof.
  simpl. destruct (Qle_bool a b) eqn:E; [apply Qle_bool_iff, E|apply Qle_refl].
Qed.

(** The four quotes give three candles; the last one has seen two ticks. *)
Example replay_four_quotes :
  aggregatedCandleData
    (replay ta_ema_spec (js_int 60) chart_init [quote_a; quote_b; quote_c; quote_d])
  = [mkCandle 0 11 11 11 11; mkCandle 60 21 21 21 21; mkCandle 120 31 31 15 15]%Q.
Proof. vm_compute. reflexivity. Qed.

Lemma candle_invariant_witness :
  Forall (candle_ok Qle)
         (aggregatedCandleData
            (replay ta_ema_spec (js_int 60) chart_init
                    [quote_a; quote_b; quote_c; quote_d])).
Proof.
  apply (candle_invariant ta_ema_spec Qle Qle_refl Qle_trans
           JsDouble_max_ge_l JsDouble_max_ge_r JsDouble_min_le_l JsDouble_min_le_r
           (js_int 60)).
Defined.

Lemma ema_seed_and_recurrence_witness :
  nth_error (ema9 (fst (calculateEMAs ta_ema_spec
                          [mkPoint 0 11; mkPoint 60 21; mkPoint 120 31]%Q))) 0
  = Some (mkPoint 0 11)%Q.
Proof.
  destruct (@ema_seed_and_recurrence Q JsDouble (mkPoint 0 11)%Q
              [mkPoint 60 21; mkPoint 120 31]%Q 9%nat (fun v _ => eq_refl false))
    as (E9 & _ & _ & Seed & _).
  rewrite (E9 eq_refl). exact Seed.
Defined.

(** C3, counterexample.  On the third tick of a replay, [ta.ema] receives
    the close prices of all three points of the mid series, not the newest
    value alone. *)
Lemma ema_calls_newest_only_counterexample :
  ~ ema_calls_newest_only ta_ema_spec (js_int 60)
      (replay ta_ema_spec (js_int 60) chart_init [quote_a; quote_b]) quote_c.
Proof.
  intro C.
  assert (I : In ([11; 21; 31]%Q, 9%nat)
                 (emaCalls (snd (liveTick ta_ema_spec (js_int 60)
                                   (replay ta_ema_spec (js_int 60) chart_init
                                           [quote_a; quote_b]) quote_c)))).
  { vm_compute. left. reflexivity. }
  apply C in I. simpl in I. lia.
Qed.

(** The spec's example: the two ticks of one second, aggregated with a
    timeframe of 60 seconds, give one candle that opens at the mid price of
    the first and closes at the mid price of the second. *)
Example aggregate_example_one_candle :
  aggregateCandleData [tick_of_quote quote_tick0; tick_of_quote quote_tick1] (js_int 60)
  = [mkCandle (js_int 1699999980)
              (mid (tick_of_quote quote_tick0))
              (mid (tick_of_quote quote_tick1))
              (mid (tick_of_quote quote_tick0))
              (mid (tick_of_quote quote_tick1))]
  /\ aggregatedCandleData (replay ta_ema_spec (js_int 60) chart_init [quote_tick0; quote_tick1])
     = aggregateCandleData [tick_of_quote quote_tick0; tick_of_quote quote_tick1] (js_int 60).
Proof. split; vm_compute; reflexivity. Qed.

(** ** TimestampSynthesizer *)

Section SynthNumbers.
Local Open Scope Q_scope.

(** The millisecond offset computed with the rounded increment is the
    exact [floor(i * 1000 / k)] or one less, and stays within the second. *)
Lemma msOffsetOf_bounds (k i : nat) :
  (i < k)%nat -> (Z.of_nat k <= 2 ^ 32)%Z ->
  let e := (Z.of_nat i * 1000 / Z.of_nat k)%Z in
  (e - 1 <= msOffsetOf k i <= e)%Z /\ (0 <= msOffsetOf k i <= 999)%Z.
Proof.
  intros LT KB e. unfold msOffsetOf, math_floor_Z, js_mul, js_div, js_int.
  set (K := inject_Z (Z.of_nat k)). set (I := inject_Z (Z.of_nat i)).
  change (inject_Z 1000) with 1000.
  assert (K1 : 1 <= K).
  { unfold K. change 1 with (inject_Z 1). rewrite <- Zle_Qle. lia. }
  assert (K2 : K <= 4294967296).
  { unfold K. change 4294967296 with (inject_Z (2 ^ 32)). rewrite <- Zle_Qle. exact KB. }
  assert (I0 : 0 <= I).
  { unfold I. change 0 with (inject_Z 0). rewrite <- Zle_Qle. lia. }
  assert (I1 : I <= K - 1).
  { unfold I, K. apply inject_Z_le_pred. lia. }
  set (c := 1000 / K).
  assert (CK : c * K == 1000) by (unfold c; field; lra).
  assert (C0 : 0 < c) by (unfold c; apply Qlt_shift_div_l; lra).
  pose proof (fl_rel_err c) as Ra. pose proof (fl_nonneg c (Qlt_le_weak _ _ C0)) as A0.
  set (a := fl c) in *.
  assert (U : pow2 (-53) == 1 # 9007199254740992) by reflexivity.
  rewrite U in Ra. rewrite (Qabs_pos c (Qlt_le_weak _ _ C0)) in Ra.
  apply Qabs_Qle_condition in Ra. destruct Ra as [Ra1 Ra2].
  assert (Y0 : 0 <= I * a) by (apply Qmult_le_0_compat; assumption).
  pose proof (fl_rel_err (I * a)) as Ry. pose proof (fl_nonneg (I * a) Y0) as F0.
  rewrite U in Ry. rewrite (Qabs_pos _ Y0) in Ry.
  apply Qabs_Qle_condition in Ry. destruct Ry as [Ry1 Ry2].
  set (y := I * a) in *. set (z := fl y) in *.
  set (x := I * c).
  (* products needed below *)
  assert (P1 : y - x <= x * (1 # 9007199254740992)).
  { unfold y, x. nra. }
  assert (P2 : - (x * (1 # 9007199254740992)) <= y - x).
  { unfold y, x. nra. }
  assert (X0 : 0 <= x) by (unfold x; apply Qmult_le_0_compat; lra).
  assert (X1 : x <= 1000 - c) by (unfold x; nra).
  assert (C1 : 1000 <= c * 4294967296) by nra.
  (* the exact quotient *)
  pose proof (Z.div_mod (Z.of_nat i * 1000) (Z.of_nat k) ltac:(lia)) as DM.
  pose proof (Z.mod_pos_bound (Z.of_nat i * 1000) (Z.of_nat k) ltac:(lia)) as MB.
  fold e in DM. set (r := ((Z.of_nat i * 1000) mod Z.of_nat k)%Z) in *.
  assert (DQ : I * 1000 == K * inject_Z e + inject_Z r).
  { unfold I, K. change 1000 with (inject_Z 1000).
    rewrite <- !inject_Z_mult, <- inject_Z_plus, DM. reflexivity. }
  assert (R0 : 0 <= inject_Z r) by (change 0 with (inject_Z 0); rewrite <- Zle_Qle; lia).
  assert (R1 : inject_Z r <= K - 1).
  { unfold K. apply inject_Z_le_pred. lia. }
  set (E := inject_Z e) in *. set (R := inject_Z r) in *.
  assert (XE : x * 1000 == E * 1000 + R * c).
  { unfold x. transitivity (I * 1000 * c); [ring|]. rewrite DQ.
    transitivity (E * (c * K) + R * c); [ring|]. rewrite CK. ring. }
  assert (RC0 : 0 <= R * c) by (apply Qmult_le_0_compat; lra).
  assert (RC1 : R * c <= 1000 - c) by nra.
  assert (E0 : (0 <= e)%Z) by (unfold e; apply Z.div_pos; lia).
  assert (EQ0 : 0 <= E) by (unfold E; change 0 with (inject_Z 0); rewrite <- Zle_Qle; exact E0).
  (* floor of z *)
  assert (ZL : E - 1 < z) by lra.
  assert (ZU : z < E + 1) by lra.
  assert (FL : (e - 1 <= Qfloor z)%Z).
  { assert (inject_Z (e - 1) <= z).
    { rewrite inject_Z_pred. fold E. lra. }
    apply Qfloor_resp_le in H. rewrite Qfloor_Z in H. exact H. }
  assert (FU : (Qfloor z <= e)%Z).
  { assert (Qfloor z < e + 1)%Z; [|lia].
    rewrite Zlt_Qlt, inject_Z_plus. change (inject_Z 1) with 1. fold E.
    eapply Qle_lt_trans; [apply Qfloor_le|exact ZU]. }
  assert (F00 : (0 <= Qfloor z)%Z).
  { change 0%Z with (Qfloor 0). apply Qfloor_resp_le. exact F0. }
  assert (E9 : (e <= 999)%Z).
  { assert (e < 1000)%Z; [|lia]. rewrite Zlt_Qlt. fold E. change (inject_Z 1000) with 1000. lra. }
  split; split; lia.
Qed.

(** [s + m / 1000] for a millisecond offset [m]: a number in [[s, s + 1)],
    the second itself for [m = 0], and within rounding of the decimal. *)
Lemma adjusted_range (s m : Z) :
  (Z.abs s <= 8640000000000)%Z -> (0 <= m <= 999)%Z ->
  let A := js_add (js_int s) (js_div (js_int m) (js_int 1000)) in
  inject_Z s <= A < inject_Z s + 1 /\
  (m = 0%Z -> A = js_int s) /\
  Qabs (A - (inject_Z s + inject_Z m / 1000))
  <= (Qabs (inject_Z s) + 2) * (1 # 9007199254740992).
Proof.
  intros SB MB A. unfold js_add, js_div, js_int in A.
  change (inject_Z 1000) with 1000 in A.
  set (S := inject_Z s) in *. set (M := inject_Z m) in *.
  assert (S1 : Qabs S <= 8640000000000).
  { change 8640000000000 with (inject_Z 8640000000000). apply inject_Z_abs_le. exact SB. }
  pose proof (Qabs_nonneg S) as SN.
  assert (SA1 : S <= Qabs S) by apply Qle_Qabs.
  assert (SA2 : - S <= Qabs S) by (rewrite <- Qabs_opp; apply Qle_Qabs).
  apply Qabs_Qle_condition in S1.
  assert (M0 : 0 <= M) by (unfold M; change 0 with (inject_Z 0); rewrite <- Zle_Qle; lia).
  assert (M1 : M <= 999) by (unfold M; change 999 with (inject_Z 999); rewrite <- Zle_Qle; lia).
  assert (U : pow2 (-53) == 1 # 9007199254740992) by reflexivity.
  destruct (Z.eq_dec m 0) as [Z0|NZ].
  - (* no offset: the sum is the second itself *)
    assert (AE : A = S).
    { unfold A, M. rewrite Z0. change (fl (inject_Z 0 / 1000)) with 0.
      assert (E : S + 0 == S) by ring. rewrite (fl_compat _ _ E). apply fl_int.
      change (2 ^ 53)%Z with 9007199254740992%Z. lia. }
    rewrite AE. split; [lra|]. split; [intros _; reflexivity|].
    unfold M. rewrite Z0.
    assert (E : S - (S + inject_Z 0 / 1000) == 0) by (change (inject_Z 0) with 0; field).
    rewrite E. set (sa := Qabs S) in *. change (Qabs 0) with 0. lra.
  - assert (M2 : 1 <= M) by (unfold M; change 1 with (inject_Z 1); rewrite <- Zle_Qle; lia).
    set (q := M / 1000) in *.
    assert (QM : q * 1000 == M) by (unfold q; field).
    assert (Q0 : 0 <= q) by lra.
    pose proof (fl_rel_err q) as Rf. rewrite U, (Qabs_pos q Q0) in Rf.
    apply Qabs_Qle_condition in Rf. destruct Rf as [Rf1 Rf2].
    set (f := fl q) in *.
    pose proof (fl_rel_err (S + f)) as Ry. rewrite U in Ry.
    fold A in Ry.
    assert (YB : Qabs (S + f) <= 8640000000001).
    { apply Qabs_Qle_condition. lra. }
    assert (YC : Qabs (S + f) <= Qabs S + 1 + (1 # 1000)).
    { apply Qabs_Qle_condition. lra. }
    apply Qabs_Qle_condition in Ry. destruct Ry as [Ry1 Ry2].
    pose proof (Qabs_nonneg (S + f)) as YN.
    set (ya := Qabs (S + f)) in *. set (sa := Qabs S) in *.
    split; [split; lra|]. split; [intros C; contradiction|].
    apply Qabs_Qle_condition. fold q. split; lra.
Qed.

End SynthNumbers.

(** *** Grouping by second *)

Lemma map_get_push (m : SecondMap) (key key' : Z) (e : DecodedTick * nat) :
  map_get (map_push m key e) key'
  = if key' =? key then push (map_get m key) e else map_get m key'.
Proof.
  induction m as [|[k l] m IH]; cbn [map_push map_get].
  - rewrite (Z.eqb_sym key key'). reflexivity.
  - destruct (k =? key) eqn:K; cbn [map_get].
    + apply Z.eqb_eq in K. subst k.
      destruct (key =? key') eqn:K'.
      * apply Z.eqb_eq in K'. subst key'. rewrite Z.eqb_refl. reflexivity.
      * rewrite (Z.eqb_sym key' key), K'. reflexivity.
    + destruct (k =? key') eqn:K'.
      * apply Z.eqb_eq in K'. subst key'. rewrite K. reflexivity.
      * exact IH.
Qed.

Lemma map_push_keys (m : SecondMap) (key : Z) (e : DecodedTick * nat) :
  map fst (map_push m key e)
  = if existsb (Z.eqb key) (map fst m) then map fst m else map fst m ++ [key].
Proof.
  induction m as [|[k l] m IH]; cbn [map_push map fst existsb app]; [reflexivity|].
  rewrite (Z.eqb_sym key k). destruct (k =? key) eqn:K; cbn [map fst orb]; [reflexivity|].
  rewrite IH. destruct (existsb (Z.eqb key) (map fst m)); reflexivity.
Qed.

Lemma map_push_In (m : SecondMap) (key : Z) (e : DecodedTick * nat) s l :
  In (s, l) (map_push m key e) ->
  In (s, l) m \/ (s = key /\ l = push (map_get m key) e).
Proof.
  induction m as [|[k l0] m IH]; cbn [map_push map_get].
  - intros [E|[]]. inversion E; subst. right. split; reflexivity.
  - destruct (k =? key) eqn:K.
    + apply Z.eqb_eq in K. subst k. intros [E|I].
      * inversion E; subst. right. split; reflexivity.
      * left. right. exact I.
    + intros [E|I].
      * inversion E; subst. left. left. reflexivity.
      * destruct (IH I) as [I'|[E1 E2]].
        -- left. right. exact I'.
        -- right. split; assumption.
Qed.

Lemma map_get_In (m : SecondMap) (s : Z) :
  map_get m s <> [] -> In (s, map_get m s) m.
Proof.
  induction m as [|[k l] m IH]; cbn [map_get]; [intros C; contradiction|].
  destruct (k =? s) eqn:K.
  - apply Z.eqb_eq in K. subst k. intros _. left. reflexivity.
  - intros N. right. apply IH, N.
Qed.

Lemma In_map_get (m : SecondMap) (s : Z) l :
  NoDup (map fst m) -> In (s, l) m -> map_get m s = l.
Proof.
  induction m as [|[k l0] m IH]; cbn [map fst map_get]; intros ND I; [contradiction|].
  inversion ND as [|? ? NI ND']; subst.
  destruct I as [E|I].
  - inversion E; subst. rewrite Z.eqb_refl. reflexivity.
  - destruct (k =? s) eqn:K.
    + apply Z.eqb_eq in K. subst k. exfalso. apply NI.
      change s with (fst (s, l)). apply in_map, I.
    + apply IH; assumption.
Qed.

Lemma map_push_wf (m : SecondMap) (tick : DecodedTick) (index : nat) :
  SecondMap_wf m ->
  SecondMap_wf (map_push m (secondTimestampOf tick) (tick, index)).
Proof.
  intros [ND W]. split.
  - rewrite map_push_keys.
    destruct (existsb (Z.eqb (secondTimestampOf tick)) (map fst m)) eqn:X; [exact ND|].
    apply NoDup_app; [exact ND|constructor; [intros []|constructor]|].
    intros k Ik [E|[]]. subst k.
    assert (existsb (Z.eqb (secondTimestampOf tick)) (map fst m) = true); [|congruence].
    apply existsb_exists. exists (secondTimestampOf tick). split; [exact Ik|apply Z.eqb_refl].
  - intros s l I. destruct (map_push_In _ _ _ _ _ I) as [I'|[-> ->]]; [apply W, I'|].
    unfold push. split.
    + intro C. apply app_eq_nil in C. destruct C; discriminate.
    + intros e Ie. apply in_app_or in Ie. destruct Ie as [Ie|[<-|[]]]; [|reflexivity].
      assert (N : map_get m (secondTimestampOf tick) <> []).
      { intro C. rewrite C in Ie. contradiction. }
      destruct (W _ _ (map_get_In _ _ N)) as [_ Q]. apply Q, Ie.
Qed.

Lemma groupBySecond_wf (data : list DecodedTick) :
  forall index m, SecondMap_wf m -> SecondMap_wf (groupBySecond data index m).
Proof.
  induction data as [|t data IH]; intros index m W; cbn [groupBySecond]; [exact W|].
  apply IH, map_push_wf, W.
Qed.

(** The array of a second lists, in order, the ticks of that second. *)
Lemma groupBySecond_get (data : list DecodedTick) (s : Z) :
  forall index m,
    map fst (map_get (groupBySecond data index m) s)
    = map fst (map_get m s) ++ filter (inSecond s) data.
Proof.
  induction data as [|t data IH]; intros index m; cbn [groupBySecond filter].
  - rewrite app_nil_r. reflexivity.
  - rewrite IH, map_get_push. unfold inSecond at 2.
    rewrite (Z.eqb_sym (secondTimestampOf t) s).
    destruct (s =? secondTimestampOf t) eqn:E; [|reflexivity].
    apply Z.eqb_eq in E. subst s. unfold push. rewrite map_app, <- app_assoc. reflexivity.
Qed.

(** *** Sorting *)

Lemma sort_insert_In (x p : ProcessedTick) (l : list ProcessedTick) :
  In p (sort_insert x l) <-> p = x \/ In p l.
Proof.
  induction l as [|y l IH]; cbn [sort_insert].
  - simpl. intuition congruence.
  - destruct (Qle_bool _ _); simpl; [intuition congruence|].
    rewrite IH. simpl. intuition congruence.
Qed.

Lemma sortByAdjusted_In (p : ProcessedTick) (l : list ProcessedTick) :
  In p (sortByAdjusted l) <-> In p l.
Proof.
  unfold sortByAdjusted. induction l as [|x l IH]; cbn [fold_right]; [reflexivity|].
  rewrite sort_insert_In, IH. simpl. intuition congruence.
Qed.

(** *** Spreading the ticks of one second *)

Lemma spread_nth s k (ticks : list (DecodedTick * nat)) :
  forall index i t n,
    nth_error ticks i = Some (t, n) ->
    In (mkProcessedTick t (adjustedOf s k (index + i))) (spread s k ticks index).
Proof.
  induction ticks as [|[t0 n0] ticks IH]; intros index i t n E.
  - destruct i; discriminate.
  - cbn [spread]. destruct i as [|i]; simpl in E.
    + inversion E; subst. rewrite Nat.add_0_r. left. reflexivity.
    + right. replace (index + S i)%nat with (S index + i)%nat by lia. eapply IH, E.
Qed.

Lemma spread_In s k (ticks : list (DecodedTick * nat)) :
  forall index p,
    In p (spread s k ticks index) ->
    exists i t n,
      nth_error ticks i = Some (t, n) /\
      p = mkProcessedTick t (adjustedOf s k (index + i)).
Proof.
  induction ticks as [|[t0 n0] ticks IH]; intros index p I; cbn [spread] in I.
  - contradiction.
  - destruct I as [<-|I].
    + exists 0%nat, t0, n0. rewrite Nat.add_0_r. split; reflexivity.
    + destruct (IH _ _ I) as (i & t & n & E & ->).
      exists (S i), t, n. split; [exact E|].
      replace (index + S i)%nat with (S index + i)%nat by lia. reflexivity.
Qed.

(** What a second contributes: its only tick at the second itself, or its
    ticks spread by the rounded increment. *)
Lemma emitSecond_cases (s : Z) (ticks : list (DecodedTick * nat)) :
  (exists t n, ticks = [(t, n)] /\ emitSecond (s, ticks) = [mkProcessedTick t (js_int s)]) \/
  (List.length ticks <> 1%nat /\
   emitSecond (s, ticks) = spread s (List.length ticks) ticks 0).
Proof.
  unfold emitSecond. destruct ticks as [|[t n] [|e ticks]].
  - right. split; [discriminate|reflexivity].
  - left. exists t, n. split; reflexivity.
  - right. split; [discriminate|reflexivity].
Qed.

(** Position of an element of a list within the elements filtered. *)
Lemma filter_nth {A : Type} (f : A -> bool) (l : list A) :
  forall j x,
    nth_error l j = Some x -> f x = true ->
    nth_error (filter f l) (List.length (filter f (firstn j l))) = Some x.
Proof.
  induction l as [|a l IH]; intros j x E F.
  - destruct j; discriminate.
  - destruct j as [|j]; simpl in E.
    + inversion E; subst. cbn [firstn filter List.length]. rewrite F. reflexivity.
    + cbn [firstn filter]. destruct (f a); cbn [List.length nth_error]; apply IH; assumption.
Qed.

(** *** The synthesizer *)

Lemma preprocessTimestamps_In (data : list DecodedTick) (p : ProcessedTick) :
  In p (preprocessTimestamps data) <->
  exists s ticks, In (s, ticks) (groupBySecond data 0 []) /\ In p (emitSecond (s, ticks)).
Proof.
  unfold preprocessTimestamps. destruct data as [|t data].
  - cbn [groupBySecond]. split; [intros []|intros (s & l & [] & _)].
  - rewrite sortByAdjusted_In, in_flat_map. split.
    + intros ([s l] & I & E). exists s, l. split; assumption.
    + intros (s & l & I & E). exists (s, l). split; assumption.
Qed.

Lemma empty_map_wf : SecondMap_wf [].
Proof. split; [constructor|intros s l []]. Qed.

(** The array of the second [s] after grouping: one entry per tick of
    that second, in arrival order. *)
Lemma group_ticks (data : list DecodedTick) (s : Z) :
  map fst (map_get (groupBySecond data 0 []) s) = filter (inSecond s) data /\
  List.length (map_get (groupBySecond data 0 []) s) = countInSecond s data.
Proof.
  pose proof (groupBySecond_get data s 0 []) as G. cbn [map_get map app] in G.
  split; [exact G|]. unfold countInSecond. rewrite <- G, length_map. reflexivity.
Qed.

Lemma nth_error_map_fst {A B : Type} (l : list (A * B)) i a :
  nth_error (map fst l) i = Some a -> exists b, nth_error l i = Some (a, b).
Proof.
  rewrite nth_error_map. destruct (nth_error l i) as [[a' b]|]; simpl; intros E;
    inversion E; subst. exists b. reflexivity.
Qed.

(** C4 (as amended).  The i-th of the [k > 1] ticks of a second [s], in
    arrival order, is emitted with [s + m / 1000] where [m] is
    [Math.floor(i * (1000 / k))] computed on doubles; [m] is the exact
    [floor(i * 1000 / k)] or, when the rounded product falls just below an
    integer, one less. *)
Theorem spread_uses_rounded_increment (data : list DecodedTick) (j : nat)
        (tick : DecodedTick) :
  nth_error data j = Some tick ->
  let s := secondTimestampOf tick in
  let k := countInSecond s data in
  let i := countInSecond s (firstn j data) in
  (1 < k)%nat ->
  In (mkProcessedTick tick
        (js_add (js_int s) (js_div (js_int (msOffsetOf k i)) (js_int 1000))))
     (preprocessTimestamps data) /\
  (Z.of_nat (List.length data) <= 2 ^ 32 ->
   Z.of_nat i * 1000 / Z.of_nat k - 1 <= msOffsetOf k i <= Z.of_nat i * 1000 / Z.of_nat k).
Proof.
  intros E s k i K.
  destruct (group_ticks data s) as [GF GL].
  set (l := map_get (groupBySecond data 0 []) s) in *.
  assert (IS : inSecond s tick = true) by (unfold inSecond, s; apply Z.eqb_refl).
  pose proof (filter_nth (inSecond s) data j tick E IS) as N.
  fold (countInSecond s (firstn j data)) in N. fold i in N.
  rewrite <- GF in N. destruct (nth_error_map_fst _ _ _ N) as [n Nl].
  assert (IK : (i < k)%nat).
  { unfold k. rewrite <- GL. apply nth_error_Some. congruence. }
  split.
  - apply preprocessTimestamps_In. exists s, l. split.
    + apply map_get_In. fold l. intro C. rewrite C in GL. simpl in GL. fold k in GL. lia.
    + destruct (emitSecond_cases s l) as [(t & n' & L & _)|[_ ->]].
      * rewrite L in GL. simpl in GL. fold k in GL. lia.
      * rewrite GL. fold k. apply (spread_nth s k l 0 i tick n Nl).
  - intros LB.
    assert (KL : (k <= List.length data)%nat).
    { unfold k, countInSecond. apply filter_length_le. }
    apply (msOffsetOf_bounds k i IK). lia.
Qed.

Lemma spread_uses_rounded_increment_witness :
  In (mkProcessedTick
        (mkDecodedTick 1700000000700 1700000000700
                       "1.50100" "1.50300" "0.50" "0.50" "1.50100" "1.50300" "0.50" "0.50")
        (js_add (js_int 1700000000) (js_div (js_int 500) (js_int 1000))))
     (preprocessTimestamps example_three_ticks).
Proof.
  assert (S : secondTimestampOf
                (mkDecodedTick 1700000000700 1700000000700
                   "1.50100" "1.50300" "0.50" "0.50" "1.50100" "1.50300" "0.50" "0.50")
              = 1700000000) by (vm_compute; reflexivity).
  assert (M : msOffsetOf 2 1 = 500) by (vm_compute; reflexivity).
  pose proof (spread_uses_rounded_increment example_three_ticks 1 _ eq_refl) as W.
  cbv zeta in W. rewrite S in W.
  assert (K : countInSecond 1700000000 example_three_ticks = 2%nat) by (vm_compute; reflexivity).
  assert (I : countInSecond 1700000000 (firstn 1 example_three_ticks) = 1%nat)
    by (vm_compute; reflexivity).
  rewrite K, I, M in W. apply W. lia.
Defined.

(** C4, counterexample.  For the twentieth of 38 ticks of one second
    ([i = 19]), [19 * (1000 / 38)] is 499.99999999999994 in doubles: the
    tick is emitted 499 ms into the second, and no tick 500 ms into it. *)
Lemma spread_is_exact_floor_counterexample :
  ~ spread_is_exact_floor example_crowded_second.
Proof.
  intro C.
  assert (S : secondTimestampOf (example_tick_at 1700000000380) = 1700000000)
    by (vm_compute; reflexivity).
  assert (K : countInSecond 1700000000 example_crowded_second = 38%nat)
    by (vm_compute; reflexivity).
  assert (I : countInSecond 1700000000 (firstn 19 example_crowded_second) = 19%nat)
    by (vm_compute; reflexivity).
  pose proof (C 19%nat (example_tick_at 1700000000380) eq_refl) as W. cbv zeta in W.
  rewrite S, K, I in W. specialize (W ltac:(lia)).
  assert (F : forallb (fun p => negb (Qeq_bool (adjustedTimestamp p)
                                       (js_add (js_int 1700000000)
                                               (js_div (js_int (Z.of_nat 19 * 1000 / Z.of_nat 38))
                                                       (js_int 1000)))))
                      (preprocessTimestamps example_crowded_second) = true)
    by (vm_compute; reflexivity).
  rewrite forallb_forall in F. specialize (F _ W). cbn [adjustedTimestamp] in F.
  rewrite Qeq_bool_refl in F. discriminate.
Qed.

(** That tick is emitted 499 ms into the second. *)
Example crowded_second_tick_19 :
  nth_error (preprocessTimestamps example_crowded_second) 19
  = Some (mkProcessedTick (example_tick_at 1700000000380)
                          (js_add (js_int 1700000000) (js_div (js_int 499) (js_int 1000)))).
Proof. vm_compute. reflexivity. Qed.

(** The offset of that tick. *)
Example msOffsetOf_38_19 : msOffsetOf 38 19 = 499 /\ (19 * 1000 / 38 = 500)%Z.
Proof. split; vm_compute; reflexivity. Qed.

(** No tick is lost: every tick of the input is emitted. *)
Lemma every_tick_is_emitted (data : list DecodedTick) (j : nat) (tick : DecodedTick) :
  nth_error data j = Some tick ->
  exists p, In p (preprocessTimestamps data) /\ p_tick p = tick.
Proof.
  intros E. set (s := secondTimestampOf tick).
  destruct (group_ticks data s) as [GF GL].
  set (l := map_get (groupBySecond data 0 []) s) in *.
  assert (IS : inSecond s tick = true) by (unfold inSecond, s; apply Z.eqb_refl).
  pose proof (filter_nth (inSecond s) data j tick E IS) as N.
  set (i := List.length (filter (inSecond s) (firstn j data))) in *.
  rewrite <- GF in N. destruct (nth_error_map_fst _ _ _ N) as [n Nl].
  assert (NE : l <> []) by (intro C; rewrite C in Nl; destruct i; discriminate).
  destruct (emitSecond_cases s l) as [(t & n' & L & EM)|[_ EM]].
  - exists (mkProcessedTick t (js_int s)). split.
    + apply preprocessTimestamps_In. exists s, l. split; [apply map_get_In; exact NE|].
      rewrite EM. left. reflexivity.
    + rewrite L in Nl. destruct i as [|[|?]]; simpl in Nl; inversion Nl; reflexivity.
  - eexists. split.
    + apply preprocessTimestamps_In. exists s, l. split; [apply map_get_In; exact NE|].
      rewrite EM. apply (spread_nth s _ l 0 _ tick n Nl).
    + reflexivity.
Qed.

(** The second of a tick with a valid time is [floor(timestamp / 1000)]
    in exact arithmetic: the rounding of the division does not reach it. *)
Lemma secondTimestampOf_exact (tick : DecodedTick) :
  valid_time tick ->
  secondTimestampOf tick = timestamp tick / 1000 /\
  Z.abs (secondTimestampOf tick) <= 8640000000000.
Proof.
  unfold valid_time, maxTimeValue. intros V.
  assert (B : Z.abs (timestamp tick) <= 2 ^ 53)
    by (change (2 ^ 53) with 9007199254740992; lia).
  destruct (fl_div1000 (timestamp tick) B) as [F _].
  unfold secondTimestampOf, math_floor_Z, js_div, js_int. rewrite F.
  split; [reflexivity|].
  pose proof (Z.div_mod (timestamp tick) 1000 ltac:(lia)).
  pose proof (Z.mod_pos_bound (timestamp tick) 1000 ltac:(lia)). lia.
Qed.

(** C10.  Every tick is emitted with an adjusted time [s + m / 1000] for a
    whole number [m] of milliseconds, [0 <= m <= 999], where [s] is the
    floor of the tick's own timestamp in seconds: a number in [[s, s + 1)],
    equal to the decimal [s + m / 1000] up to the rounding of doubles.  What
    the timestamp holds below the second is not used; a tick alone in its
    second is emitted at [s] exactly. *)
Theorem adjusted_within_second (data : list DecodedTick) (p : ProcessedTick) :
  Z.of_nat (List.length data) <= 2 ^ 32 ->
  Forall valid_time data ->
  In p (preprocessTimestamps data) ->
  let s := timestamp (p_tick p) / 1000 in
  In (p_tick p) data /\
  secondTimestampOf (p_tick p) = s /\
  (exists m,
      0 <= m <= 999 /\
      adjustedTimestamp p = js_add (js_int s) (js_div (js_int m) (js_int 1000)) /\
      (Qabs (adjustedTimestamp p - (inject_Z s + inject_Z m / 1000))
       <= (Qabs (inject_Z s) + 2) * (1 # 9007199254740992))%Q) /\
  (inject_Z s <= adjustedTimestamp p < inject_Z s + 1)%Q /\
  (countInSecond s data = 1%nat -> adjustedTimestamp p = js_int s).
Proof.
  intros LB V I s.
  apply preprocessTimestamps_In in I. destruct I as (s0 & l & IG & IE).
  pose proof (groupBySecond_wf data 0 [] empty_map_wf) as [ND W].
  destruct (W _ _ IG) as [NE SEC].
  pose proof (In_map_get _ _ _ ND IG) as MG.
  destruct (group_ticks data s0) as [GF GL]. rewrite MG in GF, GL.
  assert (KL : (List.length l <= List.length data)%nat).
  { rewrite GL. unfold countInSecond. apply filter_length_le. }
  (* every tick of the array comes from [data] and has second [s0] *)
  assert (FromData : forall i t n, nth_error l i = Some (t, n) ->
                                   In t data /\ secondTimestampOf t = s0 /\
                                   (i < List.length l)%nat).
  { intros i t n E. split; [|split].
    - assert (In t (map fst l)) by (change t with (fst (t, n)); eapply in_map, nth_error_In, E).
      rewrite GF in H. apply filter_In in H. apply H.
    - apply (SEC (t, n)). eapply nth_error_In, E.
    - apply nth_error_Some. congruence. }
  assert (Main : exists i t n m,
             nth_error l i = Some (t, n) /\ p_tick p = t /\ 0 <= m <= 999 /\
             adjustedTimestamp p = js_add (js_int s0) (js_div (js_int m) (js_int 1000)) /\
             (List.length l = 1%nat -> m = 0)).
  { destruct (emitSecond_cases s0 l) as [(t & n & L & EM)|[L1 EM]]; rewrite EM in IE.
    - destruct IE as [<-|[]]. exists 0%nat, t, n, 0. rewrite L.
      split; [reflexivity|]. split; [reflexivity|]. split; [lia|].
      split; [|reflexivity]. cbn [adjustedTimestamp].
      assert (T : In t data /\ secondTimestampOf t = s0 /\ (0 < List.length l)%nat)
        by (apply (FromData 0%nat t n); rewrite L; reflexivity).
      destruct T as (Td & Ts & _).
      assert (Vt : valid_time t) by (rewrite Forall_forall in V; apply V, Td).
      destruct (secondTimestampOf_exact t Vt) as [_ SB]. rewrite Ts in SB.
      destruct (adjusted_range s0 0 SB ltac:(lia)) as (_ & Z0 & _).
      symmetry. apply Z0. reflexivity.
    - destruct (spread_In _ _ _ _ _ IE) as (i & t & n & E & ->).
      destruct (FromData i t n E) as (_ & _ & IL).
      exists i, t, n, (msOffsetOf (List.length l) i).
      split; [exact E|]. split; [reflexivity|].
      split; [apply (msOffsetOf_bounds _ _ IL); lia|].
      split; [reflexivity|]. intros C. contradiction. }
  destruct Main as (i & t & n & m & E & PT & MB & ADJ & ONE).
  destruct (FromData i t n E) as (Td & Ts & _).
  assert (Vt : valid_time t) by (rewrite Forall_forall in V; apply V, Td).
  destruct (secondTimestampOf_exact t Vt) as [SE SB].
  assert (S0 : s0 = s) by (unfold s; rewrite PT, <- SE, Ts; reflexivity).
  rewrite Ts in SB. rewrite S0 in *. clear S0.
  destruct (adjusted_range s m SB MB) as (RG & Z0 & ER).
  rewrite PT. split; [exact Td|]. split; [exact Ts|].
  split; [exists m; rewrite ADJ; split; [exact MB|split; [reflexivity|exact ER]]|].
  split; [rewrite ADJ; exact RG|].
  intros C. rewrite ADJ. apply Z0, ONE. rewrite GL. exact C.
Qed.

Lemma adjusted_within_second_witness :
  adjustedTimestamp
    (mkProcessedTick
       (mkDecodedTick 1700000001300 1700000001300
                      "1.50200" "1.50400" "0.50" "0.50" "1.50200" "1.50400" "0.50" "0.50")
       (js_int 1700000001))
  = js_int (1700000001300 / 1000).
Proof.
  assert (L : Z.of_nat (List.length example_three_ticks) <= 2 ^ 32)
    by (vm_compute; discriminate).
  assert (V : Forall valid_time example_three_ticks).
  { repeat constructor; vm_compute; discriminate. }
  assert (I : In (mkProcessedTick
                    (mkDecodedTick 1700000001300 1700000001300
                       "1.50200" "1.50400" "0.50" "0.50" "1.50200" "1.50400" "0.50" "0.50")
                    (js_int 1700000001))
                 (preprocessTimestamps example_three_ticks)).
  { assert (O : nth_error (preprocessTimestamps example_three_ticks) 2
                = Some (mkProcessedTick
                          (mkDecodedTick 1700000001300 1700000001300
                             "1.50200" "1.50400" "0.50" "0.50"
                             "1.50200" "1.50400" "0.50" "0.50")
                          (js_int 1700000001)))
      by (vm_compute; reflexivity).
    eapply nth_error_In, O. }
  destruct (adjusted_within_second example_three_ticks _ L V I) as (_ & _ & _ & _ & One).
  apply One. vm_compute. reflexivity.
Defined.

(** The spec's example: two ticks 300 ms and 700 ms into one second are
    emitted at 0 ms and 500 ms past it; the tick alone in the next second
    is emitted at that second. *)
Example preprocess_example_three_ticks :
  map adjustedTimestamp (preprocessTimestamps example_three_ticks)
  = [js_int 1700000000; (3400000001 # 2)%Q; js_int 1700000001].
Proof. vm_compute. reflexivity. Qed.

(** ** JavaScript numbers: rounding is monotone *)

Section RoundingMonotone.
Local Open Scope Q_scope.

Lemma rne_mono (x y : Q) : x <= y -> (rne x <= rne y)%Z.
Proof.
  intros L. destruct (Z_le_gt_dec (rne x) (rne y)) as [|G]; [assumption|exfalso].
  pose proof (rne_err x) as Ex. pose proof (rne_err y) as Ey.
  apply Qabs_Qle_condition in Ex. apply Qabs_Qle_condition in Ey.
  assert (G' : inject_Z (rne y) + 1 <= inject_Z (rne x)).
  { change 1 with (inject_Z 1). rewrite <- inject_Z_plus, <- Zle_Qle. lia. }
  assert (E : x == y) by lra.
  rewrite (rne_compat _ _ E) in G. lia.
Qed.

Lemma rne_opp (x : Q) : rne (- x) = (- rne x)%Z.
Proof.
  unfold rne.
  pose proof (Qfloor_le x) as L. pose proof (Qlt_floor x) as U.
  rewrite inject_Z_plus in U. change (inject_Z 1) with 1 in U.
  set (f := Qfloor x) in *.
  destruct (Qeq_dec x (inject_Z f)) as [I|NI].
  - (* an integer *)
    assert (F : Qfloor (- x) = (- f)%Z).
    { rewrite (Qfloor_comp (- x) (inject_Z (- f))); [apply Qfloor_Z|].
      rewrite inject_Z_opp, I. reflexivity. }
    rewrite F.
    destruct (Qcompare_spec (- x - inject_Z (- f)) (1 # 2)) as [C|C|C];
      rewrite inject_Z_opp in C; try lra.
    destruct (Qcompare_spec (x - inject_Z f) (1 # 2)) as [D|D|D]; try lra. reflexivity.
  - assert (F : Qfloor (- x) = (- f - 1)%Z).
    { assert (A : inject_Z (- f - 1) <= - x).
      { rewrite inject_Z_pred, inject_Z_opp. lra. }
      assert (B : - x < inject_Z (- f)).
      { rewrite inject_Z_opp. assert (inject_Z f < x); [|lra].
        destruct (Qlt_le_dec (inject_Z f) x) as [|C]; [assumption|]. exfalso. apply NI. lra. }
      apply Qfloor_resp_le in A. rewrite Qfloor_Z in A.
      assert (Qfloor (- x) < - f)%Z; [|lia].
      rewrite Zlt_Qlt. eapply Qle_lt_trans; [apply Qfloor_le|exact B]. }
    rewrite F.
    assert (P : inject_Z (- f - 1) == - inject_Z f - 1).
    { rewrite inject_Z_pred, inject_Z_opp. reflexivity. }
    destruct (Qcompare_spec (- x - inject_Z (- f - 1)) (1 # 2)) as [C|C|C];
      rewrite P in C;
      destruct (Qcompare_spec (x - inject_Z f) (1 # 2)) as [D|D|D]; try lra; try lia.
    replace (- f - 1)%Z with (- (f + 1))%Z by lia. rewrite Z.even_opp.
    replace (f + 1)%Z with (Z.succ f) by lia. rewrite Z.even_succ, <- Z.negb_even.
    destruct (Z.even f); simpl; lia.
Qed.

Lemma Qabs_opp_eq (a : Q) : Qabs (- a) = Qabs a.
Proof. destruct a as [n d]. unfold Qabs, Qopp. simpl. rewrite Z.abs_opp. reflexivity. Qed.

(** Rounding commutes with negation. *)
Lemma fl_opp (q : Q) : fl (- q) = (- fl q)%Q.
Proof.
  unfold fl. cbv zeta. rewrite Qred_opp, Qabs_opp_eq.
  destruct (Qeq_bool (Qred q) 0) eqn:Z.
  - apply Qeq_bool_iff in Z.
    assert (B : Qeq_bool (- Qred q) 0 = true).
    { apply Qeq_bool_iff. rewrite Z. reflexivity. }
    rewrite B. reflexivity.
  - assert (B : Qeq_bool (- Qred q) 0 = false).
    { destruct (Qeq_bool (- Qred q) 0) eqn:C; [|reflexivity].
      apply Qeq_bool_iff in C.
      assert (Qeq_bool (Qred q) 0 = true); [|congruence].
      apply Qeq_bool_iff. lra. }
    rewrite B. set (e := binade (Qabs (Qred q))).
    rewrite <- (Qred_opp (inject_Z (rne (Qred q * pow2 (52 - e))) * pow2 (e - 52))).
    apply Qred_complete.
    assert (R : - Qred q * pow2 (52 - e) == - (Qred q * pow2 (52 - e))) by ring.
    rewrite (rne_compat _ _ R), rne_opp, inject_Z_opp. ring.
Qed.

(** Between the powers of two around it, a positive number rounds within
    the same bounds. *)
Lemma fl_pos_bounds (q : Q) (e : Z) :
  pow2 e <= q < pow2 (e + 1) -> pow2 e <= fl q <= pow2 (e + 1).
Proof.
  intros [L U]. pose proof (pow2_pos e) as P.
  assert (NZ : ~ q == 0) by lra.
  destruct (fl_exp_spec q NZ) as [L' U']. rewrite (Qabs_pos q) in L', U' by lra.
  assert (EE : fl_exp q = e).
  { assert (fl_exp q < e + 1)%Z by (apply pow2_lt_inv; lra).
    assert (e < fl_exp q + 1)%Z by (apply pow2_lt_inv; lra). lia. }
  rewrite (fl_eq q NZ), EE.
  pose proof (pow2_pos (e - 52)) as P1. pose proof (pow2_pos (52 - e)) as P2.
  assert (I1 : pow2 52 == pow2 e * pow2 (52 - e)).
  { rewrite <- pow2_plus. replace (e + (52 - e))%Z with 52%Z by lia. reflexivity. }
  assert (I2 : pow2 53 == pow2 (e + 1) * pow2 (52 - e)).
  { rewrite <- pow2_plus. replace (e + 1 + (52 - e))%Z with 53%Z by lia. reflexivity. }
  assert (J1 : pow2 e == inject_Z (2 ^ 52) * pow2 (e - 52)).
  { rewrite <- pow2_Z by lia. rewrite <- pow2_plus.
    replace (52 + (e - 52))%Z with e by lia. reflexivity. }
  assert (J2 : pow2 (e + 1) == inject_Z (2 ^ 53) * pow2 (e - 52)).
  { rewrite <- pow2_Z by lia. rewrite <- pow2_plus.
    replace (53 + (e - 52))%Z with (e + 1)%Z by lia. reflexivity. }
  assert (S1 : inject_Z (2 ^ 52) <= q * pow2 (52 - e)).
  { rewrite <- pow2_Z by lia. rewrite I1. apply Qmult_le_compat_r; lra. }
  assert (S2 : q * pow2 (52 - e) <= inject_Z (2 ^ 53)).
  { rewrite <- pow2_Z by lia. rewrite I2. apply Qmult_le_compat_r; lra. }
  apply rne_mono in S1. apply rne_mono in S2.
  rewrite (rne_int _ _ (Qeq_refl _)) in S1. rewrite (rne_int _ _ (Qeq_refl _)) in S2.
  rewrite J1, J2. split; apply Qmult_le_compat_r; try lra; rewrite <- Zle_Qle; assumption.
Qed.

Lemma fl_mono_pos (x y : Q) : 0 < x -> x <= y -> fl x <= fl y.
Proof.
  intros X L.
  assert (NX : ~ x == 0) by lra. assert (NY : ~ y == 0) by lra.
  destruct (fl_exp_spec x NX) as [Lx Ux]. destruct (fl_exp_spec y NY) as [Ly Uy].
  rewrite (Qabs_pos x) in Lx, Ux by lra. rewrite (Qabs_pos y) in Ly, Uy by lra.
  assert (EL : (fl_exp x <= fl_exp y)%Z).
  { assert (fl_exp x < fl_exp y + 1)%Z by (apply pow2_lt_inv; lra). lia. }
  destruct (Z.eq_dec (fl_exp x) (fl_exp y)) as [EQ|NE].
  - rewrite (fl_eq x NX), (fl_eq y NY), EQ.
    pose proof (pow2_pos (fl_exp y - 52)) as P1. pose proof (pow2_pos (52 - fl_exp y)) as P2.
    apply Qmult_le_compat_r; [|lra]. rewrite <- Zle_Qle. apply rne_mono.
    apply Qmult_le_compat_r; lra.
  - destruct (fl_pos_bounds x (fl_exp x) (conj Lx Ux)) as [_ B1].
    destruct (fl_pos_bounds y (fl_exp y) (conj Ly Uy)) as [B2 _].
    assert (pow2 (fl_exp x + 1) <= pow2 (fl_exp y)) by (apply pow2_le; lia). lra.
Qed.

(** Rounding to the nearest double is monotone. *)
Lemma fl_mono (x y : Q) : x <= y -> fl x <= fl y.
Proof.
  intros L. destruct (Qlt_le_dec 0 x) as [X|X].
  - apply fl_mono_pos; assumption.
  - destruct (Qlt_le_dec y 0) as [Y|Y].
    + assert (M : fl (- y) <= fl (- x)) by (apply fl_mono_pos; lra).
      rewrite !fl_opp in M. lra.
    + pose proof (fl_nonpos x X). pose proof (fl_nonneg y Y). lra.
Qed.

End RoundingMonotone.

(** ** TimestampSynthesizer: what the output holds, and in which order *)

Lemma sort_insert_perm (x : ProcessedTick) (l : list ProcessedTick) :
  Permutation (sort_insert x l) (x :: l).
Proof.
  induction l as [|y l IH]; cbn [sort_insert]; [reflexivity|].
  destruct (Qle_bool _ _); [reflexivity|].
  rewrite IH. apply perm_swap.
Qed.

Lemma sortByAdjusted_perm (l : list ProcessedTick) : Permutation (sortByAdjusted l) l.
Proof.
  induction l as [|x l IH]; [reflexivity|].
  change (sortByAdjusted (x :: l)) with (sort_insert x (sortByAdjusted l)).
  rewrite sort_insert_perm, IH. reflexivity.
Qed.

Lemma sort_insert_sorted (x : ProcessedTick) (l : list ProcessedTick) :
  StronglySorted adjusted_le l -> StronglySorted adjusted_le (sort_insert x l).
Proof.
  induction l as [|y l IH]; intros S; cbn [sort_insert].
  - constructor; constructor.
  - inversion S as [|? ? S' F]; subst.
    destruct (Qle_bool (adjustedTimestamp x) (adjustedTimestamp y)) eqn:C.
    + apply Qle_bool_iff in C. constructor; [exact S|].
      constructor; [exact C|].
      rewrite Forall_forall in F. apply Forall_forall. intros z Iz.
      unfold adjusted_le in *. specialize (F z Iz). lra.
    + assert (L : (adjustedTimestamp y <= adjustedTimestamp x)%Q).
      { destruct (Qlt_le_dec (adjustedTimestamp y) (adjustedTimestamp x)) as [A|A];
          [lra|]. apply Qle_bool_iff in A. congruence. }
      constructor; [apply IH; exact S'|].
      apply Forall_forall. intros z Iz. apply (proj1 (sort_insert_In _ _ _)) in Iz.
      destruct Iz as [->|Iz]; [exact L|].
      rewrite Forall_forall in F. apply F, Iz.
Qed.

Lemma sortByAdjusted_sorted (l : list ProcessedTick) :
  StronglySorted adjusted_le (sortByAdjusted l).
Proof.
  induction l as [|x l IH]; [constructor|].
  change (sortByAdjusted (x :: l)) with (sort_insert x (sortByAdjusted l)).
  apply sort_insert_sorted, IH.
Qed.

(** The sort is stable: entries that were in order stay in their order. *)
Lemma sort_insert_filter (P : ProcessedTick -> bool) (x : ProcessedTick)
      (l : list ProcessedTick) :
  (P x = true -> Forall (fun y => P y = true -> adjusted_le x y) l) ->
  filter P (sort_insert x l) = filter P (x :: l).
Proof.
  induction l as [|y l IH]; intros F; cbn [sort_insert]; [reflexivity|].
  destruct (Qle_bool (adjustedTimestamp x) (adjustedTimestamp y)) eqn:C; [reflexivity|].
  cbn [filter]. rewrite IH.
  - cbn [filter]. destruct (P x) eqn:Px; [|reflexivity].
    destruct (P y) eqn:Py; [|reflexivity].
    specialize (F eq_refl). inversion F as [|? ? Fy _]; subst.
    specialize (Fy Py). apply Qle_bool_iff in Fy. congruence.
  - intros Px. specialize (F Px). inversion F; assumption.
Qed.

Lemma sortByAdjusted_filter (P : ProcessedTick -> bool) (l : list ProcessedTick) :
  StronglySorted adjusted_le (filter P l) ->
  filter P (sortByAdjusted l) = filter P l.
Proof.
  induction l as [|x l IH]; intros S; [reflexivity|].
  change (sortByAdjusted (x :: l)) with (sort_insert x (sortByAdjusted l)).
  rewrite sort_insert_filter.
  - cbn [filter] in *. destruct (P x).
    + inversion S; subst. f_equal. apply IH. assumption.
    + apply IH, S.
  - intros Px. cbn [filter] in S. rewrite Px in S. inversion S as [|? ? _ F]; subst.
    apply Forall_forall. intros y Iy Py. apply (proj1 (sortByAdjusted_In _ _)) in Iy.
    rewrite Forall_forall in F. apply F. apply filter_In. split; assumption.
Qed.

Lemma filter_map_comm {A B : Type} (f : B -> bool) (g : A -> B) (l : list A) :
  filter f (map g l) = map g (filter (fun a => f (g a)) l).
Proof.
  induction l as [|a l IH]; [reflexivity|]. cbn [map filter].
  destruct (f (g a)); cbn [map]; rewrite IH; reflexivity.
Qed.

Section SynthOrder.
Local Open Scope Q_scope.

Lemma msOffsetOf_mono (k i j : nat) : (i <= j)%nat -> (msOffsetOf k i <= msOffsetOf k j)%Z.
Proof.
  intros L. unfold msOffsetOf, math_floor_Z, js_mul, js_div, js_int. cbv zeta.
  set (inc := fl (inject_Z 1000 / inject_Z (Z.of_nat k))).
  assert (I0 : 0 <= inc).
  { apply fl_nonneg. destruct k as [|k].
    - cbv. discriminate.
    - apply Qle_shift_div_l.
      + change 0 with (inject_Z 0). rewrite <- Zlt_Qlt. lia.
      + rewrite Qmult_0_l. change 0 with (inject_Z 0). rewrite <- Zle_Qle. lia. }
  apply Qfloor_resp_le, fl_mono.
  apply Qmult_le_compat_r; [|exact I0]. rewrite <- Zle_Qle. lia.
Qed.

Lemma adjustedOf_mono (s : Z) (k i j : nat) :
  (i <= j)%nat -> adjustedOf s k i <= adjustedOf s k j.
Proof.
  intros L. unfold adjustedOf, js_add, js_div, js_int.
  apply fl_mono. apply Qplus_le_r. apply fl_mono.
  apply Qmult_le_compat_r; [|unfold Qinv; simpl; unfold Qle; simpl; lia].
  rewrite <- Zle_Qle. apply msOffsetOf_mono, L.
Qed.

Lemma spread_sorted (s : Z) (k : nat) (ticks : list (DecodedTick * nat)) :
  forall index, StronglySorted adjusted_le (spread s k ticks index).
Proof.
  induction ticks as [|[t n] ticks IH]; intros index; cbn [spread]; constructor.
  - apply IH.
  - apply Forall_forall. intros p Ip.
    destruct (spread_In _ _ _ _ _ Ip) as (i & t' & n' & _ & ->).
    unfold adjusted_le. cbn [adjustedTimestamp]. apply adjustedOf_mono. lia.
Qed.

Lemma emitSecond_sorted (entry : Z * list (DecodedTick * nat)) :
  StronglySorted adjusted_le (emitSecond entry).
Proof.
  destruct entry as [s ticks].
  destruct (emitSecond_cases s ticks) as [(t & n & _ & ->)|[_ ->]].
  - constructor; constructor.
  - apply spread_sorted.
Qed.

End SynthOrder.

Lemma spread_ticks (s : Z) (k : nat) (ticks : list (DecodedTick * nat)) :
  forall index, map p_tick (spread s k ticks index) = map fst ticks.
Proof.
  induction ticks as [|[t n] ticks IH]; intros index; cbn [spread map]; [reflexivity|].
  rewrite IH. reflexivity.
Qed.

Lemma emitSecond_ticks (s : Z) (ticks : list (DecodedTick * nat)) :
  map p_tick (emitSecond (s, ticks)) = map fst ticks.
Proof.
  destruct (emitSecond_cases s ticks) as [(t & n & -> & ->)|[_ ->]].
  - reflexivity.
  - apply spread_ticks.
Qed.

Lemma map_get_absent (m : SecondMap) (s : Z) : ~ In s (map fst m) -> map_get m s = [].
Proof.
  induction m as [|[k ticks] m IH]; intros N; cbn [map_get]; [reflexivity|].
  destruct (Z.eqb_spec k s) as [->|_].
  - exfalso. apply N. left. reflexivity.
  - apply IH. intro C. apply N. right. exact C.
Qed.

Lemma filter_all {A : Type} (f : A -> bool) (l : list A) :
  (forall a, In a l -> f a = true) -> filter f l = l.
Proof.
  induction l as [|a l IH]; intros F; [reflexivity|]. cbn [filter].
  rewrite (F a (or_introl eq_refl)). f_equal. apply IH. intros b Ib. apply F. right. exact Ib.
Qed.

Lemma filter_none {A : Type} (f : A -> bool) (l : list A) :
  (forall a, In a l -> f a = false) -> filter f l = [].
Proof.
  induction l as [|a l IH]; intros F; [reflexivity|]. cbn [filter].
  rewrite (F a (or_introl eq_refl)). apply IH. intros b Ib. apply F. right. exact Ib.
Qed.

(** What one second emits all belongs to that second. *)
Lemma emitSecond_second (k : Z) (ticks : list (DecodedTick * nat)) (p : ProcessedTick) :
  (forall e, In e ticks -> secondTimestampOf (fst e) = k) ->
  In p (emitSecond (k, ticks)) -> secondOf p = k.
Proof.
  intros SEC I. apply (in_map p_tick) in I. rewrite emitSecond_ticks in I.
  apply in_map_iff in I. destruct I as (e & E & Ie).
  unfold secondOf. rewrite <- E. apply SEC, Ie.
Qed.

(** Among all that is emitted, the entries of second [s] are those of the
    array stored under [s], in their order. *)
Lemma emitted_of_second (m : SecondMap) (s : Z) :
  SecondMap_wf m ->
  filter (fun p => secondOf p =? s) (flat_map emitSecond m) = emitSecond (s, map_get m s).
Proof.
  intros [ND W]. induction m as [|[k ticks] m IH]; [reflexivity|].
  cbn [flat_map map_get]. rewrite filter_app.
  inversion ND as [|? ? NI ND']; subst.
  assert (SEC : forall e, In e ticks -> secondTimestampOf (fst e) = k)
    by (apply (W k ticks); left; reflexivity).
  assert (W' : forall s0 ticks0, In (s0, ticks0) m ->
                 ticks0 <> [] /\ forall e, In e ticks0 -> secondTimestampOf (fst e) = s0)
    by (intros s0 ticks0 I0; apply W; right; exact I0).
  destruct (Z.eqb_spec k s) as [->|NE].
  - rewrite filter_all.
    + rewrite (IH ND' W'), (map_get_absent m s NI).
      change (emitSecond (s, [])) with (@nil ProcessedTick). apply app_nil_r.
    + intros p Ip. apply Z.eqb_eq. eapply emitSecond_second; eassumption.
  - rewrite filter_none.
    + apply (IH ND' W').
    + intros p Ip. apply Z.eqb_neq. rewrite (emitSecond_second k ticks p SEC Ip). exact NE.
Qed.

Lemma map_push_ticks (m : SecondMap) (key : Z) (e : DecodedTick * nat) :
  Permutation (flat_map (fun g => map fst (snd g)) (map_push m key e))
              (flat_map (fun g => map fst (snd g)) m ++ [fst e]).
Proof.
  induction m as [|[k ticks] m IH]; cbn [map_push flat_map]; [reflexivity|].
  destruct (k =? key); cbn [flat_map snd].
  - unfold push. rewrite map_app. cbn [map].
    rewrite <- !app_assoc. apply Permutation_app_head, Permutation_app_comm.
  - rewrite IH, app_assoc. reflexivity.
Qed.

Lemma groupBySecond_ticks (data : list DecodedTick) :
  forall index m,
    Permutation (flat_map (fun g => map fst (snd g)) (groupBySecond data index m))
                (flat_map (fun g => map fst (snd g)) m ++ data).
Proof.
  induction data as [|t data IH]; intros index m; cbn [groupBySecond].
  - rewrite app_nil_r. reflexivity.
  - rewrite IH, map_push_ticks. cbn [fst]. rewrite <- app_assoc. reflexivity.
Qed.

Lemma emitted_ticks (m : SecondMap) :
  map p_tick (flat_map emitSecond m) = flat_map (fun g => map fst (snd g)) m.
Proof.
  induction m as [|[k ticks] m IH]; [reflexivity|].
  cbn [flat_map snd]. rewrite map_app, IH, emitSecond_ticks. reflexivity.
Qed.

(** X1.  Nothing is lost and nothing is made up: the ticks of the output are
    those of the input, each as often as it came. *)
Theorem preprocess_keeps_every_tick (data : list DecodedTick) :
  Permutation (map p_tick (preprocessTimestamps data)) data /\
  List.length (preprocessTimestamps data) = List.length data.
Proof.
  assert (P : Permutation (map p_tick (preprocessTimestamps data)) data).
  { destruct data as [|t data]; [reflexivity|].
    unfold preprocessTimestamps. cbv zeta.
    rewrite (Permutation_map p_tick (sortByAdjusted_perm _)), emitted_ticks.
    rewrite groupBySecond_ticks. reflexivity. }
  split; [exact P|].
  apply Permutation_length in P. rewrite length_map in P. exact P.
Qed.

Lemma preprocess_output_sorted_aux (data : list DecodedTick) :
  StronglySorted adjusted_le (preprocessTimestamps data).
Proof.
  destruct data as [|t data]; [constructor|].
  unfold preprocessTimestamps. apply sortByAdjusted_sorted.
Qed.

(** X2.  The output is in non-decreasing order of [adjustedTimestamp]. *)
Theorem preprocess_output_sorted (data : list DecodedTick) :
  StronglySorted adjusted_le (preprocessTimestamps data).
Proof.
  destruct data as [|t data]; [constructor|].
  unfold preprocessTimestamps. apply sortByAdjusted_sorted.
Qed.

Lemma preprocess_of_second (data : list DecodedTick) (s : Z) :
  filter (inSecond s) (map p_tick (preprocessTimestamps data)) = filter (inSecond s) data.
Proof.
  destruct data as [|t0 data0]; [reflexivity|].
  set (data := t0 :: data0).
  change (preprocessTimestamps data)
    with (sortByAdjusted (flat_map emitSecond (groupBySecond data 0 []))).
  pose proof (groupBySecond_wf data 0 [] empty_map_wf) as WF.
  rewrite filter_map_comm.
  change (fun a : ProcessedTick => inSecond s (p_tick a)) with (fun p => secondOf p =? s).
  rewrite sortByAdjusted_filter; rewrite (emitted_of_second _ s WF).
  - rewrite emitSecond_ticks. apply group_ticks.
  - apply emitSecond_sorted.
Qed.

(** X3.  Ticks of one second leave in the order in which they came: restricted
    to any second, the output lists the same ticks as the input, in the
    same order. *)
Theorem preprocess_keeps_order_within_second (data : list DecodedTick) (s : Z) :
  filter (inSecond s) (map p_tick (preprocessTimestamps data)) = filter (inSecond s) data.
Proof.
  destruct data as [|t0 data0]; [reflexivity|].
  set (data := t0 :: data0).
  change (preprocessTimestamps data)
    with (sortByAdjusted (flat_map emitSecond (groupBySecond data 0 []))).
  pose proof (groupBySecond_wf data 0 [] empty_map_wf) as WF.
  rewrite filter_map_comm.
  change (fun a : ProcessedTick => inSecond s (p_tick a)) with (fun p => secondOf p =? s).
  rewrite sortByAdjusted_filter; rewrite (emitted_of_second _ s WF).
  - rewrite emitSecond_ticks. apply group_ticks.
  - apply emitSecond_sorted.
Qed.

(** Each entry of the output lies in the second of its tick: at or after
    the second, and before the next one. *)
Lemma emitted_in_its_second (data : list DecodedTick) (p : ProcessedTick) :
  Z.of_nat (List.length data) <= 2 ^ 32 ->
  Forall valid_time data ->
  In p (preprocessTimestamps data) ->
  (inject_Z (secondOf p) <= adjustedTimestamp p < inject_Z (secondOf p) + 1)%Q.
Proof.
  intros LB V I.
  apply preprocessTimestamps_In in I. destruct I as (s0 & l & IG & IE).
  pose proof (groupBySecond_wf data 0 [] empty_map_wf) as [ND W].
  destruct (W _ _ IG) as [NE SEC].
  pose proof (In_map_get _ _ _ ND IG) as MG.
  destruct (group_ticks data s0) as [GF GL]. rewrite MG in GF, GL.
  assert (KL : (List.length l <= List.length data)%nat).
  { rewrite GL. unfold countInSecond. apply filter_length_le. }
  assert (PS : secondOf p = s0) by (eapply emitSecond_second; eassumption).
  assert (PD : In (p_tick p) data).
  { apply (in_map p_tick) in IE. rewrite emitSecond_ticks, GF in IE.
    apply filter_In in IE. apply IE. }
  assert (Vt : valid_time (p_tick p)) by (rewrite Forall_forall in V; apply V, PD).
  destruct (secondTimestampOf_exact _ Vt) as [_ SB].
  fold (secondOf p) in SB. rewrite PS in *.
  assert (M : exists m, 0 <= m <= 999 /\
                adjustedTimestamp p = js_add (js_int s0) (js_div (js_int m) (js_int 1000))).
  { destruct (emitSecond_cases s0 l) as [(t & n & L & EM)|[L1 EM]]; rewrite EM in IE.
    - destruct IE as [<-|[]]. exists 0. split; [lia|]. cbn [adjustedTimestamp].
      destruct (adjusted_range s0 0 SB ltac:(lia)) as (_ & Z0 & _).
      symmetry. apply Z0. reflexivity.
    - destruct (spread_In _ _ _ _ _ IE) as (i & t & n & E & ->).
      exists (msOffsetOf (List.length l) i). split; [|reflexivity].
      apply msOffsetOf_bounds; [|lia].
      apply nth_error_Some. congruence. }
  destruct M as (m & MB & ->).
  apply (adjusted_range s0 m SB MB).
Qed.

Lemma StronglySorted_map_weaken {A B : Type} (R : A -> A -> Prop) (R' : B -> B -> Prop)
      (f : A -> B) (l : list A) :
  (forall a b, In a l -> In b l -> R a b -> R' (f a) (f b)) ->
  StronglySorted R l -> StronglySorted R' (map f l).
Proof.
  induction l as [|a l IH]; intros W S; [constructor|].
  inversion S as [|? ? S' F]; subst. cbn [map]. constructor.
  - apply IH; [|exact S']. intros x y Ix Iy. apply W; right; assumption.
  - apply Forall_forall. intros y Iy. apply in_map_iff in Iy. destruct Iy as (b & <- & Ib).
    rewrite Forall_forall in F. apply W; [left; reflexivity|right; exact Ib|apply F, Ib].
Qed.

Lemma preprocess_seconds_sorted (data : list DecodedTick) :
  Z.of_nat (List.length data) <= 2 ^ 32 ->
  Forall valid_time data ->
  StronglySorted Z.le (map secondOf (preprocessTimestamps data)).
Proof.
  intros LB V.
  apply (StronglySorted_map_weaken adjusted_le); [|apply preprocess_output_sorted_aux].
  intros a b Ia Ib L. unfold adjusted_le in L.
  pose proof (emitted_in_its_second data a LB V Ia) as [A1 _].
  pose proof (emitted_in_its_second data b LB V Ib) as [_ B2].
  assert (C : (inject_Z (secondOf a) < inject_Z (secondOf b) + 1)%Q) by lra.
  change 1%Q with (inject_Z 1) in C. rewrite <- inject_Z_plus, <- Zlt_Qlt in C. lia.
Qed.

(** Lists in the order of their keys that agree key by key are equal. *)
Lemma sorted_by_key_unique {A : Type} (key : A -> Z) (l1 : list A) :
  forall l2,
    StronglySorted Z.le (map key l1) ->
    StronglySorted Z.le (map key l2) ->
    (forall s, filter (fun a => key a =? s) l1 = filter (fun a => key a =? s) l2) ->
    l1 = l2.
Proof.
  assert (Min : forall (a : A) l b,
             StronglySorted Z.le (map key (a :: l)) -> In b (a :: l) -> key a <= key b).
  { intros a l b S [->|I]; [lia|]. cbn [map] in S. inversion S as [|? ? _ F]; subst.
    rewrite Forall_forall in F. apply F, in_map, I. }
  assert (Hd : forall (b : A) l, In b (filter (fun a => key a =? key b) (b :: l))).
  { intros b l. apply filter_In. split; [left; reflexivity|apply Z.eqb_refl]. }
  induction l1 as [|a l1 IH]; intros l2 S1 S2 F.
  - destruct l2 as [|b l2]; [reflexivity|].
    pose proof (Hd b l2) as C. rewrite <- F in C. destruct C.
  - destruct l2 as [|b l2].
    + pose proof (Hd a l1) as C. rewrite F in C. destruct C.
    + assert (K : key a = key b).
      { pose proof (Hd b l2) as C1. rewrite <- F in C1. apply filter_In in C1.
        pose proof (Hd a l1) as C2. rewrite F in C2. apply filter_In in C2.
        pose proof (Min a l1 b S1 (proj1 C1)). pose proof (Min b l2 a S2 (proj1 C2)). lia. }
      pose proof (F (key a)) as Fa. cbn [filter] in Fa.
      rewrite Z.eqb_refl in Fa. rewrite <- K, Z.eqb_refl in Fa.
      inversion Fa as [[E Ft]]. subst b. f_equal. apply IH.
      * cbn [map] in S1. inversion S1; assumption.
      * cbn [map] in S2. inversion S2; assumption.
      * intros s. destruct (Z.eq_dec (key a) s) as [<-|NE]; [exact Ft|].
        pose proof (F s) as Fs. cbn [filter] in Fs.
        apply Z.eqb_neq in NE. rewrite NE in Fs. exact Fs.
Qed.

(** X4.  The seconds of the output never go backward: all ticks of an earlier
    second come before all ticks of a later one, whatever the order of
    arrival. *)
Theorem preprocess_orders_seconds (data : list DecodedTick) :
  Z.of_nat (List.length data) <= 2 ^ 32 ->
  Forall valid_time data ->
  StronglySorted Z.le (map secondOf (preprocessTimestamps data)).
Proof.
  intros LB V.
  apply (StronglySorted_map_weaken adjusted_le); [|apply preprocess_output_sorted_aux].
  intros a b Ia Ib L. unfold adjusted_le in L.
  pose proof (emitted_in_its_second data a LB V Ia) as [A1 _].
  pose proof (emitted_in_its_second data b LB V Ib) as [_ B2].
  assert (C : (inject_Z (secondOf a) < inject_Z (secondOf b) + 1)%Q) by lra.
  change 1%Q with (inject_Z 1) in C. rewrite <- inject_Z_plus, <- Zlt_Qlt in C. lia.
Qed.

Lemma preprocess_orders_seconds_witness :
  StronglySorted Z.le (map secondOf (preprocessTimestamps example_out_of_order)).
Proof.
  apply (preprocess_orders_seconds example_out_of_order).
  - vm_compute. discriminate.
  - repeat constructor; vm_compute; discriminate.
Defined.

Lemma preprocess_chronological (data : list DecodedTick) :
  Z.of_nat (List.length data) <= 2 ^ 32 ->
  Forall valid_time data ->
  StronglySorted Z.le (map secondTimestampOf data) ->
  map p_tick (preprocessTimestamps data) = data.
Proof.
  intros LB V S.
  apply (sorted_by_key_unique secondTimestampOf).
  - rewrite map_map. apply preprocess_seconds_sorted; assumption.
  - exact S.
  - intros s. apply (preprocess_of_second data s).
Qed.

(** X5.  Ticks that arrive in the order of their seconds leave in the order of
    arrival: the output is the input, each tick with its adjusted
    timestamp. *)
Theorem preprocess_keeps_chronological_input (data : list DecodedTick) :
  Z.of_nat (List.length data) <= 2 ^ 32 ->
  Forall valid_time data ->
  StronglySorted Z.le (map secondTimestampOf data) ->
  map p_tick (preprocessTimestamps data) = data.
Proof.
  intros LB V S.
  apply (sorted_by_key_unique secondTimestampOf).
  - rewrite map_map. apply preprocess_seconds_sorted; assumption.
  - exact S.
  - intros s. apply (preprocess_of_second data s).
Qed.

Lemma preprocess_keeps_chronological_input_witness :
  map p_tick (preprocessTimestamps example_three_ticks) = example_three_ticks.
Proof.
  apply (preprocess_keeps_chronological_input example_three_ticks).
  - vm_compute. discriminate.
  - repeat constructor; vm_compute; discriminate.
  - repeat constructor; vm_compute; discriminate.
Defined.

(** Ticks that arrive out of order are put in the order of their seconds,
    those of one second staying in their order of arrival. *)
Example preprocess_example_out_of_order :
  map (fun p => (timestamp (p_tick p), adjustedTimestamp p))
      (preprocessTimestamps example_out_of_order)
  = [(1700000000900, js_int 1700000000);
     (1700000001700, js_int 1700000001);
     (1700000001300, (3400000003 # 2)%Q)].
Proof. vm_compute. reflexivity. Qed.

(** ** TickCodec: the header, and what a decode depends on *)

Lemma bytes_eqb_eq (a b : list byte) : bytes_eqb a b = true <-> a = b.
Proof.
  revert b. induction a as [|x a IH]; intros [|y b]; cbn [bytes_eqb];
    try (split; [reflexivity|reflexivity]); try (split; discriminate).
  rewrite andb_true_iff, IH. split.
  - intros [E ->]. apply Byte.byte_dec_bl in E. rewrite E. reflexivity.
  - intros E. inversion E; subst. split; [apply Byte.byte_dec_lb|]; reflexivity.
Qed.

Lemma bytes_at_inside (buf : list byte) (off : Z) (n : nat) :
  0 <= off -> off + Z.of_nat n <= Z.of_nat (List.length buf) ->
  bytes_at buf off n = Return (firstn n (skipn (Z.to_nat off) buf)).
Proof.
  intros O L. destruct (bytes_at_spec buf off n) as [(_ & _ & E)|[[C|C] _]];
    [exact E|lia|lia].
Qed.

Lemma bytes_at_outside (buf : list byte) (off : Z) (n : nat) :
  Z.of_nat (List.length buf) < off + Z.of_nat n ->
  bytes_at buf off n = Throw (RangeError OffsetOutOfBounds).
Proof.
  intros L. destruct (bytes_at_spec buf off n) as [(_ & C & _)|[_ E]]; [lia|exact E].
Qed.

(** What a read inside the buffer returns does not depend on the bytes
    after the buffer. *)
Lemma bytes_at_app (buf extra : list byte) (off : Z) (n : nat) :
  0 <= off -> off + Z.of_nat n <= Z.of_nat (List.length buf) ->
  bytes_at (buf ++ extra) off n = bytes_at buf off n.
Proof.
  intros O L. rewrite (bytes_at_inside buf off n O L).
  rewrite bytes_at_inside; [|exact O|rewrite length_app; lia].
  f_equal. rewrite skipn_app, firstn_app.
  replace (n - List.length (skipn (Z.to_nat off) buf))%nat with 0%nat
    by (rewrite length_skipn; lia).
  cbn [firstn]. apply app_nil_r.
Qed.

Lemma parseRow_app (buf extra : list byte) (initial rowOffset : Z) :
  0 <= rowOffset -> rowOffset + rowSize <= Z.of_nat (List.length buf) ->
  parseRow (buf ++ extra) initial rowOffset = parseRow buf initial rowOffset.
Proof.
  unfold rowSize. intros O L.
  unfold parseRow, getBigInt64, getInt32.
  rewrite !bytes_at_app by (try change (Z.of_nat 8) with 8; try change (Z.of_nat 4) with 4; lia).
  reflexivity.
Qed.

Lemma parseRows_app (buf extra : list byte) (initial offset : Z) :
  forall remaining i data,
    0 <= offset + i * rowSize ->
    offset + (i + Z.of_nat remaining) * rowSize <= Z.of_nat (List.length buf) ->
    parseRows (buf ++ extra) initial offset i remaining data
    = parseRows buf initial offset i remaining data.
Proof.
  unfold rowSize.
  induction remaining as [|remaining IH]; intros i data O L; [reflexivity|].
  cbn [parseRows]. rewrite parseRow_app by (unfold rowSize; lia).
  destruct (parseRow buf initial (offset + i * rowSize)) as [tick|e]; cbn [bind];
    [|reflexivity].
  apply IH; lia.
Qed.

Lemma header_numRows_range (buffer : list byte) (N : Z) :
  header_numRows buffer = Some N -> 0 <= N < 2 ^ 32 /\ 9 <= Z.of_nat (List.length buffer).
Proof.
  unfold header_numRows, getUint32. intros E.
  destruct (bytes_at_spec buffer 5 4) as [(_ & L & B)|[_ B]]; rewrite B in E; cbn [bind] in E;
    [|discriminate].
  inversion E; subst. split; [|lia]. split; [apply le_value_nonneg|].
  pose proof (le_value_bound (firstn 4 (skipn (Z.to_nat 5) buffer))) as LB.
  rewrite (bytes_at_length _ _ _ _ B) in LB. exact LB.
Qed.

Lemma short_header_throws (buffer : list byte) :
  Z.of_nat (List.length buffer) < 17 ->
  parseBinaryData buffer = Throw (RangeError OffsetOutOfBounds).
Proof.
  intros L. unfold parseBinaryData, getUint8, getUint32, getBigUint64.
  destruct (bytes_at_spec buffer 0 4) as [(_ & _ & ->)|[_ ->]]; [|reflexivity]. cbn [bind].
  destruct (bytes_at_spec buffer 4 1) as [(_ & _ & ->)|[_ ->]]; [|reflexivity]. cbn [bind].
  destruct (bytes_at_spec buffer 5 4) as [(_ & _ & ->)|[_ ->]]; [|reflexivity]. cbn [bind].
  rewrite bytes_at_outside by (change (Z.of_nat 8) with 8; lia). reflexivity.
Qed.

(** X6.  A buffer that ends before its header does makes the decode throw the
    out-of-bounds error, whatever its first bytes are: the header is read
    before the magic is looked at. *)
Theorem short_header_is_out_of_bounds (buffer : list byte) :
  Z.of_nat (List.length buffer) < 17 ->
  parseBinaryData buffer = Throw (RangeError OffsetOutOfBounds).
Proof.
  intros L. unfold parseBinaryData, getUint8, getUint32, getBigUint64.
  destruct (bytes_at_spec buffer 0 4) as [(_ & _ & ->)|[_ ->]]; [|reflexivity]. cbn [bind].
  destruct (bytes_at_spec buffer 4 1) as [(_ & _ & ->)|[_ ->]]; [|reflexivity]. cbn [bind].
  destruct (bytes_at_spec buffer 5 4) as [(_ & _ & ->)|[_ ->]]; [|reflexivity]. cbn [bind].
  rewrite bytes_at_outside by (change (Z.of_nat 8) with 8; lia). reflexivity.
Qed.

Lemma short_header_is_out_of_bounds_witness :
  parseBinaryData example_short_header = Throw (RangeError OffsetOutOfBounds).
Proof.
  apply (short_header_is_out_of_bounds example_short_header).
  vm_compute. reflexivity.
Defined.

Lemma parseRows_not_format buffer initial offset :
  forall remaining i data,
    parseRows buffer initial offset i remaining data <> Throw Error_InvalidFormat.
Proof.
  induction remaining as [|remaining IH]; intros i data; cbn [parseRows]; [discriminate|].
  destruct (parseRow_result buffer initial (offset + i * rowSize)) as [[tick ->]|[m ->]];
    cbn [bind]; [apply IH|discriminate].
Qed.

(** X7.  The decode throws the format error exactly when the header is complete
    and the first four bytes are not "TICK". *)
Theorem invalid_format_iff (buffer : list byte) :
  parseBinaryData buffer = Throw Error_InvalidFormat <->
  17 <= Z.of_nat (List.length buffer) /\ firstn 4 buffer <> magic_TICK.
Proof.
  destruct (Z_lt_le_dec (Z.of_nat (List.length buffer)) 17) as [S|C].
  - rewrite (short_header_throws buffer S). split; [discriminate|lia].
  - unfold parseBinaryData, getUint8, getUint32, getBigUint64.
    rewrite (bytes_at_inside buffer 0 4) by (change (Z.of_nat 4) with 4; lia).
    rewrite (bytes_at_inside buffer 4 1) by (change (Z.of_nat 1) with 1; lia).
    rewrite (bytes_at_inside buffer 5 4) by (change (Z.of_nat 4) with 4; lia).
    rewrite (bytes_at_inside buffer 9 8) by (change (Z.of_nat 8) with 8; lia).
    cbn [bind]. change (skipn (Z.to_nat 0) buffer) with buffer.
    destruct (bytes_eqb (firstn 4 buffer) magic_TICK) eqn:M.
    + apply bytes_eqb_eq in M. split.
      * intros E. exfalso. eapply parseRows_not_format, E.
      * intros [_ N]. contradiction.
    + split; [|reflexivity]. intros _. split; [exact C|].
      intros E. apply bytes_eqb_eq in E. congruence.
Qed.

(** X8.  The decode reads the header and the rows that the header counts, and
    nothing after them: bytes that follow do not change the result, be it
    the ticks or the error. *)
Theorem bytes_after_the_rows_are_ignored (buffer extra : list byte) (N : Z) :
  header_numRows buffer = Some N ->
  17 + 24 * N <= Z.of_nat (List.length buffer) ->
  parseBinaryData (buffer ++ extra) = parseBinaryData buffer.
Proof.
  intros HN L. destruct (header_numRows_range buffer N HN) as [[N0 _] _].
  unfold header_numRows in HN.
  unfold parseBinaryData, getUint8, getBigUint64.
  unfold getUint32 in *.
  rewrite (bytes_at_app buffer extra 0 4) by (change (Z.of_nat 4) with 4; lia).
  rewrite (bytes_at_app buffer extra 4 1) by (change (Z.of_nat 1) with 1; lia).
  rewrite (bytes_at_app buffer extra 5 4) by (change (Z.of_nat 4) with 4; lia).
  rewrite (bytes_at_app buffer extra 9 8) by (change (Z.of_nat 8) with 8; lia).
  destruct (bytes_at buffer 0 4) as [magicBytes|e]; cbn [bind]; [|reflexivity].
  destruct (bytes_at buffer 4 1) as [vb|e]; cbn [bind]; [|reflexivity].
  destruct (bytes_at buffer 5 4) as [nb|e]; cbn [bind] in *; [|discriminate].
  inversion HN; subst N.
  destruct (bytes_at buffer 9 8) as [tb|e]; cbn [bind]; [|reflexivity].
  destruct (bytes_eqb magicBytes magic_TICK); [|reflexivity].
  apply parseRows_app; unfold rowSize; rewrite ?Z2Nat.id; lia.
Qed.

Lemma bytes_after_the_rows_are_ignored_witness :
  parseBinaryData (example_ticks ++ [xff; xff; xff]) = parseBinaryData example_ticks.
Proof.
  apply (bytes_after_the_rows_are_ignored example_ticks [xff; xff; xff] 2).
  - vm_compute. reflexivity.
  - vm_compute. discriminate.
Defined.

(** A read past a byte does not depend on that byte. *)
Lemma bytes_at_after (a c : list byte) (x y : byte) (off : Z) (n : nat) :
  Z.of_nat (List.length a) + 1 <= off ->
  bytes_at (a ++ x :: c) off n = bytes_at (a ++ y :: c) off n.
Proof.
  intros L. unfold bytes_at. rewrite !length_app. cbn [List.length].
  destruct ((0 <=? off) && _); [|reflexivity]. f_equal. f_equal.
  rewrite !skipn_app, !(skipn_all2 a) by lia.
  replace (Z.to_nat off - List.length a)%nat with (S (Z.to_nat off - List.length a - 1))
    by lia.
  reflexivity.
Qed.

Lemma parseRow_after (a c : list byte) (x y : byte) (initial rowOffset : Z) :
  Z.of_nat (List.length a) + 1 <= rowOffset ->
  parseRow (a ++ x :: c) initial rowOffset = parseRow (a ++ y :: c) initial rowOffset.
Proof.
  intros L. unfold parseRow, getBigInt64, getInt32.
  rewrite (bytes_at_after a c x y rowOffset) by lia.
  rewrite (bytes_at_after a c x y (rowOffset + 8)) by lia.
  rewrite (bytes_at_after a c x y (rowOffset + 12)) by lia.
  rewrite (bytes_at_after a c x y (rowOffset + 16)) by lia.
  rewrite (bytes_at_after a c x y (rowOffset + 20)) by lia.
  reflexivity.
Qed.

Lemma parseRows_after (a c : list byte) (x y : byte) (initial offset : Z) :
  forall remaining i data,
    Z.of_nat (List.length a) + 1 <= offset + i * rowSize ->
    parseRows (a ++ x :: c) initial offset i remaining data
    = parseRows (a ++ y :: c) initial offset i remaining data.
Proof.
  unfold rowSize.
  induction remaining as [|remaining IH]; intros i data L; [reflexivity|].
  cbn [parseRows]. rewrite (parseRow_after a c x y) by (unfold rowSize; lia).
  destruct (parseRow (a ++ y :: c) initial (offset + i * rowSize)) as [tick|e]; cbn [bind];
    [|reflexivity].
  apply IH. lia.
Qed.

(** X9.  The version byte is read and never used: two buffers that differ in
    their fifth byte only decode to the same result. *)
Theorem version_byte_is_ignored (magic rest : list byte) (version version' : byte) :
  List.length magic = 4%nat ->
  parseBinaryData (magic ++ version :: rest) = parseBinaryData (magic ++ version' :: rest).
Proof.
  intros L4. unfold parseBinaryData, getUint8, getUint32, getBigUint64.
  rewrite !(bytes_at_app magic _ 0 4) by (rewrite ?L4; cbn; lia).
  destruct (bytes_at magic 0 4) as [magicBytes|e]; cbn [bind]; [|reflexivity].
  rewrite !(bytes_at_inside (magic ++ _ :: rest) 4 1)
    by (rewrite ?length_app, ?L4; cbn [List.length]; lia).
  cbn [bind].
  rewrite (bytes_at_after magic rest version version' 5) by (rewrite L4; cbn; lia).
  destruct (bytes_at (magic ++ version' :: rest) 5 4) as [nb|e]; cbn [bind]; [|reflexivity].
  rewrite (bytes_at_after magic rest version version' 9) by (rewrite L4; cbn; lia).
  destruct (bytes_at (magic ++ version' :: rest) 9 8) as [tb|e]; cbn [bind]; [|reflexivity].
  destruct (bytes_eqb magicBytes magic_TICK); [|reflexivity].
  apply parseRows_after. rewrite L4. unfold rowSize. cbn. lia.
Qed.

Lemma version_byte_is_ignored_witness :
  parseBinaryData (magic_TICK ++ x01 :: skipn 5 example_ticks)
  = parseBinaryData (magic_TICK ++ x07 :: skipn 5 example_ticks).
Proof.
  apply (version_byte_is_ignored magic_TICK (skipn 5 example_ticks) x01 x07).
  reflexivity.
Defined.

(** A row that lies inside the buffer is read; what remains is whether
    its date is valid. *)
Lemma parseRow_complete (buffer : list byte) (initial rowOffset : Z) :
  0 <= rowOffset -> rowOffset + rowSize <= Z.of_nat (List.length buffer) ->
  exists delta,
    getBigInt64 buffer rowOffset = Return delta /\
    match timeValueOfUs (initial + delta) with
    | Some _ => exists tick, parseRow buffer initial rowOffset = Return tick
    | None => parseRow buffer initial rowOffset = Throw (RangeError InvalidTimeValue)
    end.
Proof.
  unfold rowSize. intros O L. unfold parseRow, getBigInt64, getInt32, timeValueOfUs.
  rewrite (bytes_at_inside buffer rowOffset 8) by (change (Z.of_nat 8) with 8; lia).
  rewrite (bytes_at_inside buffer (rowOffset + 8) 4) by (change (Z.of_nat 4) with 4; lia).
  rewrite (bytes_at_inside buffer (rowOffset + 12) 4) by (change (Z.of_nat 4) with 4; lia).
  rewrite (bytes_at_inside buffer (rowOffset + 16) 4) by (change (Z.of_nat 4) with 4; lia).
  rewrite (bytes_at_inside buffer (rowOffset + 20) 4) by (change (Z.of_nat 4) with 4; lia).
  cbn [bind]. eexists. split; [reflexivity|].
  destruct (newDate _) as [tv|]; cbn [toISOString bind]; [|reflexivity].
  eexists. reflexivity.
Qed.

Lemma parseRows_complete (buffer : list byte) (initial : Z) :
  forall remaining i data,
    0 <= i ->
    17 + (i + Z.of_nat remaining) * rowSize <= Z.of_nat (List.length buffer) ->
    if forallb (fun k => row_time_valid buffer initial (Z.of_nat k))
               (seq (Z.to_nat i) remaining)
    then exists ticks, parseRows buffer initial 17 i remaining data = Return ticks
    else parseRows buffer initial 17 i remaining data = Throw (RangeError InvalidTimeValue).
Proof.
  unfold rowSize.
  induction remaining as [|remaining IH]; intros i data I L.
  - cbn [seq forallb parseRows]. eexists. reflexivity.
  - cbn [seq forallb parseRows].
    destruct (parseRow_complete buffer initial (17 + i * rowSize)) as (delta & D & R);
      [unfold rowSize; lia|unfold rowSize; lia|].
    unfold row_time_valid at 1, row_deltaTimeUs. rewrite Z2Nat.id by lia. rewrite D.
    destruct (timeValueOfUs (initial + delta)) as [tv|].
    + destruct R as [tick ->]. cbn [bind andb].
      specialize (IH (i + 1) (push data tick) ltac:(lia) ltac:(lia)).
      replace (Z.to_nat (i + 1)) with (S (Z.to_nat i)) in IH by lia. exact IH.
    + rewrite R. reflexivity.
Qed.

(** X10.  A buffer that starts with "TICK" and holds the rows its header counts
    decodes unless the date of a row is invalid; it then throws the
    invalid-time error of [toISOString]. *)
Theorem complete_buffer_outcome (buffer : list byte) (N initial : Z) :
  firstn 4 buffer = magic_TICK ->
  header_numRows buffer = Some N ->
  header_initialTimestampUs buffer = Some initial ->
  17 + 24 * N <= Z.of_nat (List.length buffer) ->
  if all_row_times_valid buffer initial N
  then exists ticks, parseBinaryData buffer = Return ticks
  else parseBinaryData buffer = Throw (RangeError InvalidTimeValue).
Proof.
  intros M HN HI L. destruct (header_numRows_range buffer N HN) as [[N0 _] _].
  unfold header_numRows in HN. unfold header_initialTimestampUs in HI.
  unfold parseBinaryData, getUint8.
  rewrite (bytes_at_inside buffer 0 4) by (change (Z.of_nat 4) with 4; lia).
  rewrite (bytes_at_inside buffer 4 1) by (change (Z.of_nat 1) with 1; lia).
  cbn [bind]. change (skipn (Z.to_nat 0) buffer) with buffer.
  destruct (getUint32 buffer 5) as [n|e]; [|discriminate].
  destruct (getBigUint64 buffer 9) as [t|e]; [|discriminate].
  inversion HN; inversion HI; subst. cbn [bind].
  rewrite M. replace (bytes_eqb magic_TICK magic_TICK) with true by reflexivity.
  unfold all_row_times_valid.
  apply (parseRows_complete buffer initial (Z.to_nat N) 0 []); [lia|].
  unfold rowSize. rewrite Z2Nat.id by lia. lia.
Qed.

Lemma complete_buffer_outcome_witness :
  parseBinaryData example_far_future = Throw (RangeError InvalidTimeValue).
Proof.
  assert (V : all_row_times_valid example_far_future 18446744073709551615 1 = false)
    by (vm_compute; reflexivity).
  pose proof (complete_buffer_outcome example_far_future 1 18446744073709551615) as O.
  rewrite V in O. apply O.
  - reflexivity.
  - vm_compute. reflexivity.
  - vm_compute. reflexivity.
  - vm_compute. discriminate.
Defined.

(** ** L2Codec: the row area *)

Section L2Rows.
Local Open Scope Q_scope.

(** The loop bound [numRows], a quotient of numbers, is not below the
    exact quotient: the loop visits every byte for rows. *)
Lemma l2_numRows_covers (n : Z) :
  (0 < n < 2 ^ 53)%Z ->
  (n <= 14 * Qceiling (js_div (js_int n) (js_int l2_rowSize)))%Z.
Proof.
  intros [N0 N1]. unfold js_div, js_int, l2_rowSize.
  set (x := inject_Z n / inject_Z 14). set (y := fl x).
  pose proof (fl_rel_err x) as E. fold y in E.
  change (pow2 (-53)) with (1 # 9007199254740992) in E.
  pose proof (Qle_ceiling y) as C. set (R := Qceiling y) in *.
  assert (X0 : 0 < inject_Z n) by (change 0 with (inject_Z 0); rewrite <- Zlt_Qlt; lia).
  assert (X1 : inject_Z n < 9007199254740992).
  { change 9007199254740992 with (inject_Z (2 ^ 53)). rewrite <- Zlt_Qlt. lia. }
  assert (XE : x == inject_Z n * (1 # 14)) by (unfold x; reflexivity).
  assert (XA : Qabs x == x) by (apply Qabs_pos; lra).
  rewrite XA in E. apply Qabs_Qle_condition in E. destruct E as [E1 _].
  destruct (Z_le_gt_dec n (14 * R)) as [|G]; [assumption|exfalso].
  assert (G' : inject_Z R * 14 <= inject_Z n - 1).
  { change 14 with (inject_Z 14). change 1 with (inject_Z 1).
    rewrite <- inject_Z_mult. unfold Qminus. rewrite <- inject_Z_opp, <- inject_Z_plus.
    rewrite <- Zle_Qle. lia. }
  lra.
Qed.

Lemma Qceiling_nonpos (y : Q) : y <= 0 -> (Qceiling y <= 0)%Z.
Proof.
  intros Y. unfold Qceiling.
  assert (0 <= Qfloor (- y))%Z; [|lia].
  change 0%Z with (Qfloor 0). apply Qfloor_resp_le. lra.
Qed.

End L2Rows.

Section L2More.
Variable exchangeLabel : list byte -> Z -> string.

Lemma parseL2Row_fits buffer mappingBytes rowOffset st st' :
  parseL2Row exchangeLabel buffer mappingBytes rowOffset st = Return st' ->
  rowOffset + l2_rowSize <= Z.of_nat (List.length buffer) /\
  List.length (l2_data st') = S (List.length (l2_data st)).
Proof.
  unfold parseL2Row, getInt32, getUint8, l2_rowSize. intros R.
  destruct (bytes_at buffer rowOffset 4); cbn [bind] in R; [|discriminate].
  destruct (bytes_at buffer (rowOffset + 4) 4); cbn [bind] in R; [|discriminate].
  destruct (bytes_at buffer (rowOffset + 8) 4); cbn [bind] in R; [|discriminate].
  destruct (bytes_at buffer (rowOffset + 12) 1); cbn [bind] in R; [|discriminate].
  destruct (bytes_at_spec buffer (rowOffset + 13) 1) as [(_ & L & E)|[_ E]];
    rewrite E in R; cbn [bind] in R; [|discriminate].
  destruct (toISOString _); cbn [bind] in R; [|discriminate].
  inversion R; subst. cbn [l2_data]. unfold push. rewrite length_app. cbn [List.length].
  change (Z.of_nat 1) with 1 in L. split; lia.
Qed.

Lemma parseL2Rows_fits buffer mappingBytes offset :
  forall remaining i st st',
    parseL2Rows exchangeLabel buffer mappingBytes offset i remaining st = Return st' ->
    List.length (l2_data st') = (List.length (l2_data st) + remaining)%nat /\
    (remaining <> 0%nat ->
     offset + (i + Z.of_nat remaining) * l2_rowSize <= Z.of_nat (List.length buffer)).
Proof.
  induction remaining as [|remaining IH]; intros i st st' R; cbn [parseL2Rows] in R.
  - inversion R; subst. split; [lia|]. intros C. contradiction.
  - destruct (parseL2Row exchangeLabel buffer mappingBytes (offset + i * l2_rowSize) st)
      as [st1|e] eqn:R1; cbn [bind] in R; [|discriminate].
    destruct (parseL2Row_fits _ _ _ _ _ R1) as [F1 L1].
    destruct (IH _ _ _ R) as [L2 F2]. split; [lia|]. intros _.
    destruct remaining as [|r]; [unfold l2_rowSize in *; lia|].
    specialize (F2 ltac:(discriminate)). unfold l2_rowSize in *. lia.
Qed.

(** X11.  When the decode returns, the bytes after the mapping are a whole number
    of 14-byte rows, and there is one entry for each; a mapping length that
    reaches the end of the buffer or points past it gives no entry. *)
Theorem l2_rows_fill_the_buffer (buffer : list byte) (entries : list L2Entry)
        (mappingLength : Z) :
  Z.of_nat (List.length buffer) < 2 ^ 53 ->
  parseBinaryLevel2Data exchangeLabel buffer = Return entries ->
  l2_header_mappingLength buffer = Some mappingLength ->
  let n := Z.of_nat (List.length buffer) - (12 + mappingLength) in
  (n <= 0 /\ entries = []) \/
  (0 < n /\ n mod 14 = 0 /\ Z.of_nat (List.length entries) = n / 14).
Proof.
  intros LB P HM n. unfold l2_header_mappingLength in HM.
  unfold parseBinaryLevel2Data in P.
  destruct (getBigUint64 buffer 0) as [t0|e]; cbn [bind] in P; [|discriminate].
  destruct (getUint32 buffer 8) as [m|e] eqn:M; cbn [bind] in P; [|discriminate].
  inversion HM; subst m. fold n in P.
  set (R := Qceiling (js_div (js_int n) (js_int l2_rowSize))) in *.
  destruct (parseL2Rows exchangeLabel buffer _ _ 0 (Z.to_nat R) _) as [st|e] eqn:RS;
    cbn [bind] in P; [|discriminate].
  inversion P; subst entries.
  destruct (parseL2Rows_fits _ _ _ _ _ _ _ RS) as [LEN FIT]. cbn [l2_data List.length] in LEN.
  assert (M0 : 0 <= mappingLength).
  { unfold getUint32 in M. destruct (bytes_at buffer 8 4); cbn [bind] in M; [|discriminate].
    inversion M. apply le_value_nonneg. }
  destruct (Z_le_gt_dec n 0) as [NP|NP].
  - left. split; [exact NP|].
    assert (R0 : R <= 0).
    { apply Qceiling_nonpos, fl_nonpos. unfold js_int, l2_rowSize.
      unfold Qdiv. setoid_replace (/ inject_Z 14)%Q with (1 # 14)%Q by reflexivity.
      assert (inject_Z n <= 0)%Q; [|lra].
      change 0%Q with (inject_Z 0). rewrite <- Zle_Qle. exact NP. }
    replace (Z.to_nat R) with 0%nat in LEN by lia.
    destruct (l2_data st); [reflexivity|discriminate].
  - right. split; [lia|].
    assert (CV : n <= 14 * R) by (apply l2_numRows_covers; unfold n; lia).
    assert (RP : Z.to_nat R <> 0%nat) by lia.
    specialize (FIT RP). unfold l2_rowSize in FIT. rewrite Z2Nat.id in FIT by lia.
    assert (EQ : n = R * 14) by (unfold n; lia).
    rewrite LEN. cbn [Nat.add]. rewrite Z2Nat.id by lia.
    rewrite EQ. rewrite Z.mod_mul, Z.div_mul by lia. split; reflexivity.
Qed.

(** X12.  A buffer too short for the twelve bytes before the mapping, the empty
    buffer among them, makes the decode throw the out-of-bounds error. *)
Theorem l2_short_header_is_out_of_bounds (buffer : list byte) :
  Z.of_nat (List.length buffer) < 12 ->
  parseBinaryLevel2Data exchangeLabel buffer = Throw (RangeError OffsetOutOfBounds).
Proof.
  intros L. unfold parseBinaryLevel2Data, getBigUint64, getUint32.
  destruct (bytes_at_spec buffer 0 8) as [(_ & _ & ->)|[_ ->]]; [|reflexivity]. cbn [bind].
  rewrite bytes_at_outside by (change (Z.of_nat 4) with 4; lia). reflexivity.
Qed.

(** X13.  A mapping length that reaches the end of the buffer or points past it
    is not an error: the mapping is cut at the end of the buffer, no row is
    read, and the decode returns no entry. *)
Theorem l2_overlong_mapping_gives_no_entry (buffer : list byte) (mappingLength : Z) :
  l2_header_mappingLength buffer = Some mappingLength ->
  Z.of_nat (List.length buffer) <= 12 + mappingLength ->
  parseBinaryLevel2Data exchangeLabel buffer = Return [].
Proof.
  intros HM L. unfold l2_header_mappingLength in HM.
  unfold parseBinaryLevel2Data.
  assert (L12 : 12 <= Z.of_nat (List.length buffer)).
  { unfold getUint32 in HM.
    destruct (bytes_at_spec buffer 8 4) as [(_ & B & _)|[_ E]];
      [change (Z.of_nat 4) with 4 in B; lia|rewrite E in HM; discriminate]. }
  unfold getBigUint64 at 1.
  rewrite (bytes_at_inside buffer 0 8) by (change (Z.of_nat 8) with 8; lia). cbn [bind].
  destruct (getUint32 buffer 8) as [m'|e]; [|discriminate]. inversion HM; subst m'.
  cbn [bind].
  set (R := Qceiling _).
  assert (R0 : R <= 0).
  { apply Qceiling_nonpos, fl_nonpos. unfold js_int, l2_rowSize.
    unfold Qdiv. setoid_replace (/ inject_Z 14)%Q with (1 # 14)%Q by reflexivity.
    assert (inject_Z (Z.of_nat (List.length buffer) - (12 + mappingLength)) <= 0)%Q; [|lra].
    change 0%Q with (inject_Z 0). rewrite <- Zle_Qle. lia. }
  replace (Z.to_nat R) with 0%nat by lia. reflexivity.
Qed.

End L2More.

Lemma l2_rows_fill_the_buffer_witness :
  (14 mod 14 = 0) /\
  Z.of_nat (List.length [mkL2Entry 1700000000005 (js_int 1700000000005)
                                   (fl (12346 # 10000)) 100 "NASDAQ" 0]) = 14 / 14.
Proof.
  assert (P : parseBinaryLevel2Data example_labels example_l2
              = Return [mkL2Entry 1700000000005 (js_int 1700000000005)
                                  (fl (12346 # 10000)) 100 "NASDAQ" 0])
    by (vm_compute; reflexivity).
  assert (B : Z.of_nat (List.length example_l2) < 2 ^ 53) by (vm_compute; reflexivity).
  assert (M : l2_header_mappingLength example_l2 = Some 8) by (vm_compute; reflexivity).
  destruct (l2_rows_fill_the_buffer example_labels example_l2 _ 8 B P M) as [[C _]|[_ R]].
  - exfalso. revert C. vm_compute. intros C. apply C. reflexivity.
  - exact R.
Defined.

Lemma l2_short_header_is_out_of_bounds_witness :
  parseBinaryLevel2Data example_labels [] = Throw (RangeError OffsetOutOfBounds).
Proof.
  apply (l2_short_header_is_out_of_bounds example_labels []).
  vm_compute. reflexivity.
Defined.

Lemma l2_overlong_mapping_gives_no_entry_witness :
  parseBinaryLevel2Data example_labels example_l2_overlong = Return [].
Proof.
  apply (l2_overlong_mapping_gives_no_entry example_labels example_l2_overlong 1000).
  - vm_compute. reflexivity.
  - vm_compute. discriminate.
Defined.

(** ** Aggregator: points and candles, run by run *)

Section ChartRunsProofs.
Context {number : Type} `{JsNumberOps number}.

Lemma runs_from_ticks (tf : number) (ticks : list (Tick number)) :
  forall first rest,
    List.concat (map run_ticks (runs_from tf first rest ticks)) = first :: rest ++ ticks.
Proof.
  induction ticks as [|t ticks IH]; intros first rest; cbn [runs_from].
  - cbn [map List.concat run_ticks fst snd]. rewrite !app_nil_r. reflexivity.
  - destruct (strict_ne _ _).
    + cbn [map List.concat run_ticks fst snd]. rewrite IH. reflexivity.
    + rewrite IH, <- app_assoc. reflexivity.
Qed.

Lemma run_last_snoc (first : Tick number) (rest : list (Tick number)) (t : Tick number) :
  run_last (first, rest ++ [t]) = t.
Proof. unfold run_last. cbn [fst snd]. apply last_last. Qed.

Lemma run_candle_snoc (tf : number) (first : Tick number) (rest : list (Tick number))
      (t : Tick number) :
  run_candle tf (first, rest ++ [t])
  = mkCandle (c_time (run_candle tf (first, rest))) (open (run_candle tf (first, rest)))
             (math_max (high (run_candle tf (first, rest))) (mid t))
             (math_min (low (run_candle tf (first, rest))) (mid t))
             (mid t).
Proof.
  unfold run_candle. rewrite run_last_snoc. cbn [fst snd c_time open high low].
  rewrite map_app, !fold_left_app. reflexivity.
Qed.

Lemma candleLoop_runs (tf : number) (ticks : list (Tick number)) :
  forall first rest done,
    candleLoop_flush
      (fold_left (candleLoop_body tf) ticks
                 (mkCandleLoop done (Some (run_candle tf (first, rest)))
                               (Some (bucketOf (time first) tf))))
    = done ++ map (run_candle tf) (runs_from tf first rest ticks).
Proof.
  induction ticks as [|t ticks IH]; intros first rest done; cbn [fold_left runs_from].
  - reflexivity.
  - unfold candleLoop_body at 2. cbn [currentCandleTime currentCandle candles].
    destruct (strict_ne (bucketOf (time first) tf) (bucketOf (time t) tf)).
    + change (mkCandle (bucketOf (time t) tf) (mid t) (mid t) (mid t) (mid t))
        with (run_candle tf (t, [])).
      rewrite IH. unfold candleLoop_flush, push. cbn [currentCandle candles map].
      rewrite <- app_assoc. reflexivity.
    + rewrite <- run_candle_snoc. apply IH.
Qed.

Lemma lineLoop_body_run (tf : number) (first : Tick number) (rest : list (Tick number))
      (bd ad md : list (LinePoint number)) (t : Tick number) :
  lineLoop_body tf
    (mkLineLoop bd ad md
                (Some (bucketOf (time first) tf, bid (run_last (first, rest)),
                       ask (run_last (first, rest)), mid (run_last (first, rest)))))
    t
  = if strict_ne (bucketOf (time first) tf) (bucketOf (time t) tf)
    then mkLineLoop (push bd (run_point tf bid (first, rest)))
                    (push ad (run_point tf ask (first, rest)))
                    (push md (run_point tf mid (first, rest)))
                    (Some (bucketOf (time t) tf, bid (run_last (t, [])),
                           ask (run_last (t, [])), mid (run_last (t, []))))
    else mkLineLoop bd ad md
                    (Some (bucketOf (time first) tf,
                           bid (run_last (first, rest ++ [t])),
                           ask (run_last (first, rest ++ [t])),
                           mid (run_last (first, rest ++ [t])))).
Proof.
  unfold lineLoop_body. cbn [current].
  destruct (strict_ne _ _).
  - reflexivity.
  - rewrite run_last_snoc. reflexivity.
Qed.

Lemma lineLoop_runs (tf : number) (ticks : list (Tick number)) :
  forall first rest bd ad md st,
    st = lineLoop_flush
           (fold_left (lineLoop_body tf) ticks
                      (mkLineLoop bd ad md
                                  (Some (bucketOf (time first) tf,
                                         bid (run_last (first, rest)),
                                         ask (run_last (first, rest)),
                                         mid (run_last (first, rest)))))) ->
    bidData st = bd ++ map (run_point tf bid) (runs_from tf first rest ticks) /\
    askData st = ad ++ map (run_point tf ask) (runs_from tf first rest ticks) /\
    midData st = md ++ map (run_point tf mid) (runs_from tf first rest ticks).
Proof.
  induction ticks as [|t ticks IH]; intros first rest bd ad md st ->;
    cbn [fold_left runs_from].
  - repeat split; reflexivity.
  - rewrite lineLoop_body_run.
    destruct (strict_ne (bucketOf (time first) tf) (bucketOf (time t) tf)).
    + destruct (IH t [] (push bd (run_point tf bid (first, rest)))
                   (push ad (run_point tf ask (first, rest)))
                   (push md (run_point tf mid (first, rest))) _ eq_refl) as (B & A & M).
      rewrite B, A, M. unfold push. cbn [map]. rewrite <- !app_assoc.
      repeat split; reflexivity.
    + apply (IH first (rest ++ [t]) bd ad md _ eq_refl).
Qed.

Lemma candles_by_runs_aux (ticks : list (Tick number)) (tf : number) :
  List.concat (map run_ticks (bucketRuns tf ticks)) = ticks /\
  aggregateCandleData ticks tf = map (run_candle tf) (bucketRuns tf ticks).
Proof.
  destruct ticks as [|t ticks]; [split; reflexivity|]. split.
  - cbn [bucketRuns]. rewrite runs_from_ticks. reflexivity.
  - unfold aggregateCandleData, candleLoop_run, bucketRuns. cbn [fold_left].
    unfold candleLoop_body at 2. cbn [currentCandleTime candleLoop_init].
    change (mkCandle (bucketOf (time t) tf) (mid t) (mid t) (mid t) (mid t))
      with (run_candle tf (t, [])).
    change (candleLoop_flush candleLoop_init) with (@nil (Candle number)).
    apply (candleLoop_runs tf ticks t [] []).
Qed.

(** X14.  Every tick belongs to exactly one candle, and the candles are those of
    the runs: a candle opens at the mid of the first tick of its run and
    closes at the mid of the last; its high and low are the maximum and
    the minimum of the mids of the run. *)
Theorem candles_by_runs (ticks : list (Tick number)) (tf : number) :
  List.concat (map run_ticks (bucketRuns tf ticks)) = ticks /\
  aggregateCandleData ticks tf = map (run_candle tf) (bucketRuns tf ticks).
Proof.
  destruct ticks as [|t ticks]; [split; reflexivity|]. split.
  - cbn [bucketRuns]. rewrite runs_from_ticks. reflexivity.
  - unfold aggregateCandleData, candleLoop_run, bucketRuns. cbn [fold_left].
    unfold candleLoop_body at 2. cbn [currentCandleTime candleLoop_init].
    change (mkCandle (bucketOf (time t) tf) (mid t) (mid t) (mid t) (mid t))
      with (run_candle tf (t, [])).
    change (candleLoop_flush candleLoop_init) with (@nil (Candle number)).
    apply (candleLoop_runs tf ticks t [] []).
Qed.

Lemma lines_by_runs_aux (ticks : list (Tick number)) (tf : number) :
  aggregateLineData ticks tf
  = mkLineData (map (run_point tf bid) (bucketRuns tf ticks))
               (map (run_point tf ask) (bucketRuns tf ticks))
               (map (run_point tf mid) (bucketRuns tf ticks)).
Proof.
  { destruct ticks as [|t ticks]; [reflexivity|].
    unfold aggregateLineData, lineLoop_run, bucketRuns. cbn [fold_left].
    change (lineLoop_body tf lineLoop_init t)
      with (@mkLineLoop number [] [] []
                        (Some (bucketOf (time t) tf, bid (run_last (t, [])),
                               ask (run_last (t, [])), mid (run_last (t, []))))).
    destruct (lineLoop_runs tf ticks t [] [] [] [] _ eq_refl) as (B & A & M).
    cbv zeta. rewrite B, A, M. reflexivity. }
Qed.

(** X15.  The three line series hold one point for each run, at the bucket time
    of its first tick, with the bid, ask and mid of its last tick: the
    series have the times of the candles, point for point. *)
Theorem lines_by_runs (ticks : list (Tick number)) (tf : number) :
  let rs := bucketRuns tf ticks in
  aggregateLineData ticks tf
  = mkLineData (map (run_point tf bid) rs) (map (run_point tf ask) rs)
               (map (run_point tf mid) rs) /\
  map lp_time (ld_mid (aggregateLineData ticks tf))
  = map c_time (aggregateCandleData ticks tf).
Proof.
  cbv zeta. split; [apply lines_by_runs_aux|].
  rewrite lines_by_runs_aux. cbn [ld_mid]. destruct (candles_by_runs_aux ticks tf) as [_ ->].
  rewrite !map_map. reflexivity.
Qed.

End ChartRunsProofs.

(** ** Aggregator: the order of bucket times *)

Section ChartOrder.
Local Open Scope Q_scope.

(** For a positive timeframe the bucket time does not decrease with time,
    roundings included. *)
Lemma bucketOf_mono (tf t1 t2 : Q) :
  0 < tf -> t1 <= t2 -> bucketOf t1 tf <= bucketOf t2 tf.
Proof.
  intros T L. unfold bucketOf. cbn [num_mul math_floor num_div JsDouble].
  unfold js_mul, js_div. apply fl_mono.
  apply Qmult_le_compat_r; [|lra].
  rewrite <- Zle_Qle. apply Qfloor_resp_le, fl_mono.
  apply Qmult_le_compat_r; [exact L|]. apply Qinv_le_0_compat. lra.
Qed.

Lemma strict_ne_neq (a b : Q) : strict_ne a b = true -> ~ a == b.
Proof.
  cbn [strict_ne JsDouble]. intros N E. apply Qeq_bool_iff in E. rewrite E in N. discriminate.
Qed.

Lemma runs_from_increase (tf : Q) (ticks : list (Tick Q)) :
  0 < tf ->
  forall first rest,
    StronglySorted time_le ticks ->
    Forall (time_le first) ticks ->
    StronglySorted Qlt (map (fun r => bucketOf (time (fst r)) tf)
                            (runs_from tf first rest ticks)) /\
    Forall (fun r => bucketOf (time first) tf <= bucketOf (time (fst r)) tf)
           (runs_from tf first rest ticks).
Proof.
  intros T. induction ticks as [|t ticks IH]; intros first rest S F; cbn [runs_from].
  - split.
    + cbn [map]. constructor; constructor.
    + constructor; [cbn [fst]; lra|constructor].
  - inversion S as [|? ? S' Ft]; subst. inversion F as [|? ? F1 F']; subst.
    destruct (strict_ne (bucketOf (time first) tf) (bucketOf (time t) tf)) eqn:NE.
    + apply strict_ne_neq in NE.
      pose proof (bucketOf_mono tf _ _ T F1) as M.
      destruct (IH t [] S' Ft) as [IS IF]. rewrite Forall_forall in IF.
      split.
      * cbn [map fst]. constructor; [exact IS|].
        apply Forall_forall. intros b Ib. apply in_map_iff in Ib.
        destruct Ib as (r & <- & Ir). specialize (IF r Ir). cbn beta in IF. lra.
      * constructor; [cbn [fst]; lra|].
        apply Forall_forall. intros r Ir. specialize (IF r Ir). cbn beta in IF. lra.
    + apply IH; assumption.
Qed.

Lemma bucketRuns_increase (tf : Q) (ticks : list (Tick Q)) :
  0 < tf -> StronglySorted time_le ticks ->
  StronglySorted Qlt (map (fun r => bucketOf (time (fst r)) tf) (bucketRuns tf ticks)).
Proof.
  intros T S. destruct ticks as [|t ticks]; [constructor|].
  inversion S; subst. apply runs_from_increase; assumption.
Qed.

Variable ta_ema : list Q -> nat -> list (option Q).

Lemma replay_is_aggregate (tf : Q) (qs : list (Quote Q)) :
  aggregatedCandleData (replay ta_ema tf chart_init qs)
  = aggregateCandleData (map tick_of_quote qs) tf /\
  aggregatedLineData (replay ta_ema tf chart_init qs)
  = aggregateLineData (map tick_of_quote qs) tf.
Proof.
  destruct (replay_sim ta_ema tf qs) as (_ & L & C). rewrite L, C.
  destruct qs as [|q qs]; split; reflexivity.
Qed.

(** X16.  When the ticks come in the order of their times and the timeframe is
    positive, the times of the candles and of the points of each line
    increase strictly, in a full aggregation and after any number of live
    ticks alike. *)
Theorem bucket_times_increase (tf : Q) (qs : list (Quote Q)) :
  0 < tf ->
  StronglySorted time_le (map tick_of_quote qs) ->
  let ticks := map tick_of_quote qs in
  let st := replay ta_ema tf chart_init qs in
  StronglySorted Qlt (map c_time (aggregateCandleData ticks tf)) /\
  StronglySorted Qlt (map lp_time (ld_bid (aggregateLineData ticks tf))) /\
  StronglySorted Qlt (map lp_time (ld_ask (aggregateLineData ticks tf))) /\
  StronglySorted Qlt (map lp_time (ld_mid (aggregateLineData ticks tf))) /\
  StronglySorted Qlt (map c_time (aggregatedCandleData st)) /\
  StronglySorted Qlt (map lp_time (ld_mid (aggregatedLineData st))).
Proof.
  intros T S ticks st.
  pose proof (bucketRuns_increase tf ticks T S) as R.
  destruct (candles_by_runs_aux ticks tf) as [_ C].
  pose proof (lines_by_runs_aux ticks tf) as L.
  destruct (replay_is_aggregate tf qs) as [RC RL]. fold ticks in RC, RL. fold st in RC, RL.
  rewrite RC, RL, C, L. cbn [ld_bid ld_ask ld_mid]. rewrite !map_map.
  repeat split; exact R.
Qed.

End ChartOrder.

Lemma bucket_times_increase_witness :
  StronglySorted Qlt
    (map c_time (aggregateCandleData
                   (map tick_of_quote [quote_a; quote_b; quote_c; quote_d]) (js_int 60))).
Proof.
  apply (bucket_times_increase (fun _ _ => []) (js_int 60)
                               [quote_a; quote_b; quote_c; quote_d]).
  - reflexivity.
  - repeat constructor; vm_compute; discriminate.
Defined.

(** ** The chart component: live ticks, timeframe changes and resets *)

Section ChartEffectsProofs.
Context {number : Type} `{JsNumberOps number}.
Variable ta_ema : list number -> nat -> list (option number).

Lemma aggregateLineData_flush (ticks : list (Tick number)) (tf : number) :
  aggregateLineData ticks tf
  = mkLineData (bidData (lineLoop_flush (lineLoop_run tf ticks)))
               (askData (lineLoop_flush (lineLoop_run tf ticks)))
               (midData (lineLoop_flush (lineLoop_run tf ticks))).
Proof. destruct ticks; reflexivity. Qed.

Lemma aggregateCandleData_flush (ticks : list (Tick number)) (tf : number) :
  aggregateCandleData ticks tf = candleLoop_flush (candleLoop_run tf ticks).
Proof. destruct ticks; reflexivity. Qed.

(** A live tick on a state that agrees with the full aggregation of its
    recorded ticks gives a state that does. *)
Lemma liveTick_consistent (tf : number) (st : ChartState number) (q : Quote number) :
  chart_consistent ta_ema tf st ->
  chart_consistent ta_ema tf (fst (liveTick ta_ema tf st q)) /\
  allTicksData (fst (liveTick ta_ema tf st q)) = push (allTicksData st) (tick_of_quote q).
Proof.
  intros (L & C & _).
  set (ticks := allTicksData st) in *.
  pose proof (lineLoop_step_sim tf (lineLoop_run tf ticks) (tick_of_quote q)
                                (lineLoop_run_wf tf ticks) SBid SAsk SMid) as (SB & SA & SM).
  pose proof (candleLoop_step_sim tf (candleLoop_run tf ticks) (tick_of_quote q)
                                  (candleLoop_run_wf tf ticks)) as SC.
  rewrite <- lineLoop_run_snoc in SB, SA, SM. rewrite <- candleLoop_run_snoc in SC.
  cbn [tick_of_quote time bid ask mid] in SB, SA, SM, SC.
  rewrite aggregateLineData_flush in L. rewrite aggregateCandleData_flush in C.
  unfold liveTick. cbv zeta. rewrite L, C. cbn [ld_bid ld_ask ld_mid].
  fold ticks.
  destruct (updateLineSeries _ SBid _ _) as [bidD e1].
  destruct (updateLineSeries _ SAsk _ _) as [askD e2].
  destruct (updateLineSeries _ SMid _ _) as [midD e3].
  destruct (updateCandles _ _ _) as [candleD e4].
  destruct (calculateEMAs ta_ema midD) as [updatedEMAs e5] eqn:E.
  cbn [fst] in *. subst bidD askD midD candleD.
  unfold chart_consistent. cbn [allTicksData aggregatedLineData aggregatedCandleData emaData ld_mid].
  change (mkTick (q_t q) (q_bid q) (q_ask q) (mid_of (q_bid q) (q_ask q)))
    with (tick_of_quote q).
  unfold push at 1 2 3. rewrite aggregateLineData_flush, aggregateCandleData_flush.
  cbn [ld_mid]. rewrite E. repeat split; reflexivity.
Qed.

Lemma timeframeEffect_consistent (tf tf' : number) (st : ChartState number) :
  allTicksData st <> [] \/ chart_consistent ta_ema tf st ->
  chart_consistent ta_ema tf' (fst (timeframeEffect ta_ema tf' st)) /\
  allTicksData (fst (timeframeEffect ta_ema tf' st)) = allTicksData st.
Proof.
  intros P. unfold timeframeEffect.
  destruct (allTicksData st) as [|t ticks] eqn:E.
  - destruct P as [P|(L & C & M)]; [contradiction|].
    cbn [fst]. rewrite E in *. split; [|reflexivity].
    unfold chart_consistent. rewrite E. repeat split; assumption.
  - cbn [fst]. split; [|reflexivity].
    unfold chart_consistent. cbn [allTicksData aggregatedLineData aggregatedCandleData emaData].
    repeat split; reflexivity.
Qed.

Lemma chart_init_consistent (tf : number) : chart_consistent ta_ema tf chart_init.
Proof. repeat split; reflexivity. Qed.

Lemma runEffects_snoc (c : Component number) (rs : list (EffectRun number))
      (r : EffectRun number) :
  runEffects ta_ema c (rs ++ [r]) = runEffect ta_ema (runEffects ta_ema c rs) r.
Proof. unfold runEffects. rewrite fold_left_app. reflexivity. Qed.

Lemma runEffects_invariant (tf0 : number) (rs : list (EffectRun number)) :
  let c := runEffects ta_ema (mkComponent tf0 0 chart_init) rs in
  chart_consistent ta_ema (c_timeframe c) (refs c) /\
  (allTicksData (refs c), lastQuoteCountRef c) = fold_left recordEffect rs ([], 0).
Proof.
  induction rs as [|r rs IH] using rev_ind.
  - split; [apply chart_init_consistent|reflexivity].
  - cbv zeta. rewrite runEffects_snoc, fold_left_app. cbn [fold_left].
    cbv zeta in IH. destruct IH as [IC IR]. rewrite <- IR.
    set (c := runEffects ta_ema (mkComponent tf0 0 chart_init) rs) in *.
    destruct r as [tf'|n|q]; cbn [runEffect recordEffect c_timeframe refs lastQuoteCountRef fst snd].
    + destruct (timeframeEffect_consistent (c_timeframe c) tf' (refs c) (or_intror IC))
        as [TC TA].
      split; [exact TC|]. rewrite TA. reflexivity.
    + unfold resetEffect. destruct ((0 <? lastQuoteCountRef c) && (n =? 0)).
      * cbn [c_timeframe refs lastQuoteCountRef]. split; [apply chart_init_consistent|reflexivity].
      * cbn [c_timeframe refs lastQuoteCountRef]. split; [exact IC|reflexivity].
    + destruct (liveTick_consistent (c_timeframe c) (refs c) q IC) as [LC LA].
      split; [exact LC|]. rewrite LA. reflexivity.
Qed.

(** X18.  After any sequence of live ticks, timeframe changes and resets, what
    the component keeps for the chart is the full aggregation, at the
    current timeframe, of the ticks recorded since the last reset. *)
Theorem effects_keep_aggregation (tf0 : number) (rs : list (EffectRun number)) :
  let c := runEffects ta_ema (mkComponent tf0 0 chart_init) rs in
  allTicksData (refs c) = recordedTicks rs /\
  aggregatedLineData (refs c) = aggregateLineData (recordedTicks rs) (c_timeframe c) /\
  aggregatedCandleData (refs c) = aggregateCandleData (recordedTicks rs) (c_timeframe c) /\
  emaData (refs c) = fst (calculateEMAs ta_ema (ld_mid (aggregatedLineData (refs c)))).
Proof.
  cbv zeta. destruct (runEffects_invariant tf0 rs) as [(L & C & E) R].
  cbv zeta in R. unfold recordedTicks. rewrite <- R. cbn [fst].
  repeat split; assumption.
Qed.

End ChartEffectsProofs.

(** ** EMA engine: what [calculateEMAs] keeps of the library's values *)

Section EMAFilter.
Context {number : Type} `{JsNumberOps number}.

Lemma zipEma_In (midData : list (LinePoint number)) :
  forall emaValues p,
    In p (zipEma midData emaValues) <-> kept_value midData emaValues p.
Proof.
  unfold kept_value.
  induction midData as [|d0 midData IH]; intros emaValues p; cbn [zipEma].
  - split; [intros []|]. intros (i & d & v & E & _). destruct i; discriminate.
  - rewrite in_app_iff, IH. split.
    + intros [I|(i & d & v & E1 & E2 & N & ->)].
      * destruct emaValues as [|[v|] rest]; try destruct I.
        destruct (is_nan v) eqn:N; [destruct I|].
        destruct I as [<-|[]]. exists 0%nat, d0, v. repeat split; try reflexivity. exact N.
      * exists (S i), d, v. repeat split; try assumption.
        destruct emaValues as [|o rest]; [destruct i; discriminate|exact E2].
    + intros (i & d & v & E1 & E2 & N & ->). destruct i as [|i].
      * left. cbn [nth_error] in E1, E2. inversion E1; subst d0.
        destruct emaValues as [|o rest]; [discriminate|]. inversion E2; subst o.
        rewrite N. left. reflexivity.
      * right. exists i, d, v. repeat split; try assumption.
        destruct emaValues as [|o rest]; [discriminate|exact E2].
Qed.

Lemma zipEma_length (midData : list (LinePoint number)) :
  forall emaValues, (List.length (zipEma midData emaValues) <= List.length midData)%nat.
Proof.
  induction midData as [|d0 midData IH]; intros emaValues; cbn [zipEma]; [apply Nat.le_refl|].
  rewrite length_app. specialize (IH (tl emaValues)). cbn [List.length].
  destruct emaValues as [|[v|] rest]; cbn [List.length]; try lia.
  destruct (is_nan v); cbn [List.length]; lia.
Qed.

Variable ta_ema : list number -> nat -> list (option number).

(** X19.  Whatever [ta.ema] returns, the two EMA series hold numbers only: the
    points of a series are the library's values that are neither [null]
    nor NaN, each at the time of the mid point of its index.  Values
    missing at the end of a result and warm-up [null]s are left out, so a
    series is never longer than the mid series; for no mid point at all
    the library is not called. *)
Theorem ema_series_hold_numbers (midData : list (LinePoint number)) :
  let r := fst (calculateEMAs ta_ema midData) in
  let closePrices := map value midData in
  (forall p, In p (ema9 r) <-> kept_value midData (ta_ema closePrices 9) p) /\
  (forall p, In p (ema20 r) <-> kept_value midData (ta_ema closePrices 20) p) /\
  Forall (fun p => is_nan (value p) = false) (ema9 r) /\
  Forall (fun p => is_nan (value p) = false) (ema20 r) /\
  (List.length (ema9 r) <= List.length midData)%nat /\
  (List.length (ema20 r) <= List.length midData)%nat /\
  (midData = [] -> calculateEMAs ta_ema midData = (mkEMAData [] [], [])).
Proof.
  cbv zeta.
  assert (E9 : ema9 (fst (calculateEMAs ta_ema midData))
               = zipEma midData (ta_ema (map value midData) 9))
    by (destruct midData; reflexivity).
  assert (E20 : ema20 (fst (calculateEMAs ta_ema midData))
                = zipEma midData (ta_ema (map value midData) 20))
    by (destruct midData; reflexivity).
  rewrite E9, E20. clear E9 E20.
  assert (NN : forall vals,
             Forall (fun p => is_nan (value p) = false) (zipEma midData vals)).
  { intros vals. apply Forall_forall. intros p Ip. apply zipEma_In in Ip.
    destruct Ip as (i & d & v & _ & _ & N & ->). exact N. }
  split; [intros p; apply zipEma_In|]. split; [intros p; apply zipEma_In|].
  split; [apply NN|]. split; [apply NN|].
  split; [apply zipEma_length|]. split; [apply zipEma_length|].
  intros ->. reflexivity.
Qed.

End EMAFilter.

(** ** Loading a session *)

Lemma parseBinaryData_length (buffer : list byte) (ticks : list DecodedTick) :
  parseBinaryData buffer = Return ticks ->
  exists N, header_numRows buffer = Some N /\ Z.of_nat (List.length ticks) = N /\
            0 <= N < 2 ^ 32.
Proof.
  intros P. unfold parseBinaryData in P.
  destruct (bytes_at buffer 0 4) as [mb|e]; cbn [bind] in P; [|discriminate].
  destruct (getUint8 buffer 4) as [v|e]; cbn [bind] in P; [|discriminate].
  destruct (getUint32 buffer 5) as [n|e] eqn:HN; cbn [bind] in P; [|discriminate].
  destruct (getBigUint64 buffer 9) as [t|e]; cbn [bind] in P; [|discriminate].
  destruct (bytes_eqb mb magic_TICK); [|discriminate].
  assert (HN' : header_numRows buffer = Some n) by (unfold header_numRows; rewrite HN; reflexivity).
  destruct (header_numRows_range buffer n HN') as [R _].
  destruct (parseRows_spec _ _ _ _ _ _ _ P) as (rows & -> & L & _).
  exists n. split; [exact HN'|]. split; [|exact R].
  cbn [app]. rewrite L. apply Z2Nat.id. lia.
Qed.

Section ApiProofs.
Variable exchangeLabel : list byte -> Z -> string.

(** X20.  A session that loads comes from a main file that decodes, whatever
    became of the level-2 file.  It holds one tick for each row the header
    counts; the ticks are in the order of their adjusted timestamps and of
    their seconds, and each adjusted timestamp lies in the second of its
    tick.  The decoder lets through nothing that the synthesizer could not
    handle. *)
Theorem loaded_session_is_ordered (main l2 : Download) (data : SessionData) :
  loadSessionData exchangeLabel main l2 = inr data ->
  exists buffer parsedData N,
    main = Inflated buffer /\
    parseBinaryData buffer = Return parsedData /\
    header_numRows buffer = Some N /\
    Z.of_nat (List.length (processedData data)) = N /\
    Permutation (map p_tick (processedData data)) parsedData /\
    StronglySorted adjusted_le (processedData data) /\
    StronglySorted Z.le (map secondOf (processedData data)) /\
    Forall (fun p => (inject_Z (secondOf p) <= adjustedTimestamp p
                      < inject_Z (secondOf p) + 1)%Q)
           (processedData data) /\
    level2Data data = loadLevel2 exchangeLabel l2.
Proof.
  intros L. unfold loadSessionData in L.
  destruct main as [| |buffer]; try discriminate.
  destruct (parseBinaryData buffer) as [parsedData|e] eqn:P; [|discriminate].
  inversion L; subst data. cbn [processedData level2Data].
  destruct (parseBinaryData_length buffer parsedData P) as (N & HN & LN & NB).
  pose proof (decoded_ticks_valid_time buffer parsedData P) as V.
  assert (LB : Z.of_nat (List.length parsedData) <= 2 ^ 32) by lia.
  assert (PM : Permutation (map p_tick (preprocessTimestamps parsedData)) parsedData).
  { destruct parsedData as [|t d]; [reflexivity|].
    unfold preprocessTimestamps. cbv zeta.
    rewrite (Permutation_map p_tick (sortByAdjusted_perm _)), emitted_ticks.
    rewrite groupBySecond_ticks. reflexivity. }
  exists buffer, parsedData, N.
  split; [reflexivity|]. split; [exact P|]. split; [exact HN|].
  split.
  { rewrite <- LN. f_equal. apply Permutation_length in PM. rewrite length_map in PM.
    exact PM. }
  split; [exact PM|].
  split; [apply preprocess_output_sorted_aux|].
  split; [apply preprocess_seconds_sorted; assumption|].
  split; [|reflexivity].
  apply Forall_forall. intros p Ip. apply emitted_in_its_second with (data := parsedData);
    assumption.
Qed.

End ApiProofs.

Lemma loaded_session_is_ordered_witness :
  exists buffer parsedData N,
    Inflated example_ticks = Inflated buffer /\
    parseBinaryData buffer = Return parsedData /\
    header_numRows buffer = Some N /\
    Z.of_nat (List.length (preprocessTimestamps example_decoded)) = N /\
    Permutation (map p_tick (preprocessTimestamps example_decoded)) parsedData /\
    StronglySorted adjusted_le (preprocessTimestamps example_decoded) /\
    StronglySorted Z.le (map secondOf (preprocessTimestamps example_decoded)) /\
    Forall (fun p => (inject_Z (secondOf p) <= adjustedTimestamp p
                      < inject_Z (secondOf p) + 1)%Q)
           (preprocessTimestamps example_decoded) /\
    None = loadLevel2 example_labels NotOk.
Proof.
  assert (L : loadSessionData example_labels (Inflated example_ticks) NotOk
              = inr (mkSessionData (preprocessTimestamps example_decoded) None)).
  { unfold loadSessionData. rewrite decode_example_ticks. reflexivity. }
  exact (loaded_session_is_ordered example_labels _ _ _ L).
Defined.

(** ** Session metadata: [parseFloat] on the decoder's strings *)

Lemma is_digit_plain (c : ascii) :
  is_digit c = true ->
  Ascii.eqb c "-"%char = false /\ Ascii.eqb c "+"%char = false /\
  Ascii.eqb c "."%char = false /\ may_be_space c = false /\
  Ascii.eqb "I"%char c = false.
Proof.
  destruct c as [[] [] [] [] [] [] [] []]; intros D; cbv in D; try discriminate D;
    repeat split; reflexivity.
Qed.

Lemma span_digits_all (ds rest : string) :
  all_digits ds = true -> starts_with is_digit rest = false ->
  span_digits (ds ++ rest) = (ds, rest).
Proof.
  intros A R. induction ds as [|c ds IH].
  - cbn [String.append]. destruct rest as [|c r]; [reflexivity|].
    cbn [span_digits]. cbn [starts_with] in R. rewrite R. reflexivity.
  - cbn [all_digits] in A. apply andb_true_iff in A. destruct A as [Dc A].
    cbn [String.append span_digits]. rewrite Dc, (IH A). reflexivity.
Qed.

Lemma append_empty_r (s : string) : (s ++ "")%string = s.
Proof. induction s as [|c s IH]; [reflexivity|]. cbn [String.append]. rewrite IH. reflexivity. Qed.

Lemma int_digits_length (fuel : nat) :
  forall n, (String.length (int_digits fuel n) <= S fuel)%nat.
Proof.
  induction fuel as [|fuel IH]; intros n; cbn [int_digits].
  - cbn [String.length]. lia.
  - destruct (n <? 10); [cbn [String.length]; lia|].
    rewrite string_length_app. cbn [String.length]. specialize (IH (n / 10)). lia.
Qed.

(** [parseFloat] on a sign, digits, a point and digits: the number nearest
    to the decimal written. *)
Lemma parseFloat_fixed (negative : bool) (intPart fracPart : string) :
  all_digits intPart = true -> intPart <> EmptyString ->
  all_digits fracPart = true ->
  (String.length intPart + String.length fracPart <= 20)%nat ->
  let f := Z.of_nat (String.length fracPart) in
  let mv := (inject_Z (digits_value intPart * 10 ^ f + digits_value fracPart)
             / inject_Z (10 ^ f))%Q in
  parseFloat ((if negative then "-" else "") ++ intPart ++ "." ++ fracPart)%string
  = PF_number (fl (if negative then - mv else mv)%Q).
Proof.
  intros AI NE AF LEN f mv.
  assert (SI : span_digits (intPart ++ "." ++ fracPart)%string
               = (intPart, ("." ++ fracPart)%string)).
  { apply span_digits_all; [exact AI|reflexivity]. }
  assert (SF : span_digits fracPart = (fracPart, EmptyString)).
  { rewrite <- (append_empty_r fracPart) at 1. apply span_digits_all; [exact AF|reflexivity]. }
  assert (DG : ((String.length intPart + String.length fracPart =? 0) = false)%nat).
  { apply Nat.eqb_neq. destruct intPart; [contradiction|]. cbn [String.length]. lia. }
  assert (L20 : ((20 <? String.length intPart + String.length fracPart) = false)%nat).
  { apply Nat.ltb_ge. exact LEN. }
  unfold parseFloat.
  destruct negative.
  - change ("-" ++ intPart ++ "." ++ fracPart)%string
      with (String "-"%char (intPart ++ "." ++ fracPart)%string).
    cbv iota. change (Ascii.eqb "-"%char "-"%char) with true. cbv iota.
    rewrite SI. change ("." ++ fracPart)%string with (String "."%char fracPart).
    cbv iota. change (Ascii.eqb "."%char "."%char) with true. cbv iota.
    rewrite SF, DG, L20. reflexivity.
  - change ("" ++ intPart ++ "." ++ fracPart)%string with (intPart ++ "." ++ fracPart)%string.
    destruct intPart as [|c intPart']; [contradiction|].
    assert (Dc : is_digit c = true).
    { cbn [all_digits] in AI. apply andb_true_iff in AI. apply AI. }
    destruct (is_digit_plain c Dc) as (M & P & _).
    change (String c intPart' ++ "." ++ fracPart)%string
      with (String c (intPart' ++ "." ++ fracPart)%string) in *.
    cbv iota. rewrite M, P. rewrite SI.
    change ("." ++ fracPart)%string with (String "."%char fracPart).
    cbv iota. change (Ascii.eqb "."%char "."%char) with true. cbv iota.
    rewrite SF, DG, L20. reflexivity.
Qed.

Section MetadataNumbers.
Local Open Scope Q_scope.

Lemma int_digits_length_pow (fuel : nat) :
  forall n d, (1 <= d)%nat -> (0 <= n < 10 ^ Z.of_nat d)%Z ->
              (String.length (int_digits fuel n) <= d)%nat.
Proof.
  induction fuel as [|fuel IH]; intros n d D N; cbn [int_digits].
  - cbn [String.length]. lia.
  - destruct (Z.ltb_spec n 10) as [L|L]; [cbn [String.length]; lia|].
    rewrite string_length_app. cbn [String.length].
    destruct d as [|[|d]]; [lia|change (10 ^ Z.of_nat 1)%Z with 10%Z in N; lia|].
    assert (String.length (int_digits fuel (n / 10)) <= S d)%nat; [|lia].
    apply IH; [lia|]. split; [apply Z.div_pos; lia|].
    apply Z.div_lt_upper_bound; [lia|].
    replace (Z.of_nat (S (S d))) with (Z.succ (Z.of_nat (S d))) in N by lia.
    rewrite Z.pow_succ_r in N by lia. lia.
Qed.

(** The decimal string of a scaled integer reads back as the number it was
    printed from. *)
Lemma parseFloat_decimal_of_scaled (v : Z) (f : nat) :
  (Z.abs v <= 2 ^ 31)%Z -> (f <= 10)%nat ->
  parseFloat (decimal_of_scaled v f)
  = PF_number (js_div (js_int v) (js_int (10 ^ Z.of_nat f))).
Proof.
  intros B F. unfold decimal_of_scaled. cbv zeta.
  set (scale := (10 ^ Z.of_nat f)%Z).
  assert (SP : (0 < scale)%Z) by (apply Z.pow_pos_nonneg; lia).
  set (intPart := string_of_int (Z.abs v / scale)).
  set (fracPart := frac_digits f (Z.abs v)).
  assert (N0 : (0 <= Z.abs v / scale)%Z) by (apply Z.div_pos; lia).
  destruct (int_digits_all (Z.to_nat (Z.log2 (Z.abs v / scale))) _ N0) as [AI NE].
  fold (string_of_int (Z.abs v / scale)) in AI, NE. fold intPart in AI, NE.
  destruct (frac_digits_all f (Z.abs v)) as [AF LF]. fold fracPart in AF, LF.
  assert (LI : (String.length intPart <= 10)%nat).
  { unfold intPart, string_of_int. apply int_digits_length_pow; [lia|].
    split; [exact N0|]. apply Z.div_lt_upper_bound; [exact SP|].
    change (10 ^ Z.of_nat 10)%Z with 10000000000%Z.
    change (2 ^ 31)%Z with 2147483648%Z in B. nia. }
  pose proof (decimal_of_scaled_value v f) as DV.
  fold scale in DV. fold intPart in DV. fold fracPart in DV.
  assert (PF : forall negative : bool,
             parseFloat ((if negative then "-" else "") ++ intPart ++ "." ++ fracPart)%string
             = PF_number (fl (if negative
                              then - (inject_Z (Z.abs v) / inject_Z scale)
                              else inject_Z (Z.abs v) / inject_Z scale))).
  { intros negative.
    rewrite (parseFloat_fixed negative intPart fracPart AI NE AF) by (rewrite LF; lia).
    cbv zeta. rewrite LF. fold scale. rewrite DV. reflexivity. }
  unfold js_div, js_int.
  destruct (Z.ltb_spec v 0) as [NEG|POS].
  - specialize (PF true). cbv iota in PF. rewrite PF. f_equal. apply fl_compat.
    rewrite Z.abs_neq by lia. rewrite inject_Z_opp. unfold Qdiv. ring.
  - specialize (PF false). cbv iota in PF.
    change ("" ++ intPart ++ "." ++ fracPart)%string
      with (intPart ++ "." ++ fracPart)%string in PF.
    rewrite PF. rewrite Z.abs_eq by lia. reflexivity.
Qed.

End MetadataNumbers.

(** The bid price string of a decoded tick is the decimal of the scaled
    bid of its row. *)
Lemma decoded_price (buffer : list byte) (ticks : list DecodedTick) (k : nat)
      (tick : DecodedTick) :
  parseBinaryData buffer = Return ticks ->
  nth_error ticks k = Some tick ->
  exists v, row_int32 buffer (Z.of_nat k) 8 = Some v /\
            parseFloat (priceBid tick) = PF_number (js_div (js_int v) (js_int PRICE_SCALE)).
Proof.
  intros P E. destruct (parseBinaryData_rows buffer ticks P) as (initial & _ & R).
  pose proof (parseRow_fields _ _ _ _ (R k tick E)) as F.
  destruct F as (pb & pa & sb & sa & RB & _ & _ & _ & EB & _).
  exists pb. split; [exact RB|]. rewrite EB.
  apply (parseFloat_decimal_of_scaled pb 5); [|lia].
  unfold row_int32 in RB.
  destruct (getInt32 buffer (17 + Z.of_nat k * rowSize + 8)) as [v|e] eqn:G; [|discriminate].
  inversion RB; subst. eapply getInt32_range, G.
Qed.

Lemma row_int32_range (buffer : list byte) (k field v : Z) :
  row_int32 buffer k field = Some v -> Z.abs v <= 2 ^ 31.
Proof.
  unfold row_int32. intros R.
  destruct (getInt32 buffer (17 + k * rowSize + field)) as [x|e] eqn:G; [|discriminate].
  inversion R; subst. eapply getInt32_range, G.
Qed.

(** X25.  The strings of a decoded tick lose nothing: read back with
    [parseFloat], a price string gives exactly the number the decoder had
    divided out, the scaled integer of the row over 100 000, and a size
    string the scaled integer over 100. *)
Theorem decoded_strings_read_back (buffer : list byte) (ticks : list DecodedTick)
        (k : nat) (tick : DecodedTick) :
  parseBinaryData buffer = Return ticks ->
  nth_error ticks k = Some tick ->
  exists priceBidScaled priceAskScaled sizeBidScaled sizeAskScaled,
    row_int32 buffer (Z.of_nat k) 8 = Some priceBidScaled /\
    row_int32 buffer (Z.of_nat k) 12 = Some priceAskScaled /\
    row_int32 buffer (Z.of_nat k) 16 = Some sizeBidScaled /\
    row_int32 buffer (Z.of_nat k) 20 = Some sizeAskScaled /\
    parseFloat (priceBid tick)
    = PF_number (js_div (js_int priceBidScaled) (js_int PRICE_SCALE)) /\
    parseFloat (priceAsk tick)
    = PF_number (js_div (js_int priceAskScaled) (js_int PRICE_SCALE)) /\
    parseFloat (sizeBid tick)
    = PF_number (js_div (js_int sizeBidScaled) (js_int SIZE_SCALE)) /\
    parseFloat (sizeAsk tick)
    = PF_number (js_div (js_int sizeAskScaled) (js_int SIZE_SCALE)) /\
    bid_price tick = priceBid tick /\ ask_price tick = priceAsk tick /\
    bid_size tick = sizeBid tick /\ ask_size tick = sizeAsk tick.
Proof.
  intros P E. destruct (parseBinaryData_rows buffer ticks P) as (initial & _ & R).
  pose proof (parseRow_fields _ _ _ _ (R k tick E)) as F.
  destruct F as (pb & pa & sb & sa & RB & RA & SB & SA & EB & EA & ESB & ESA & A1 & A2 & A3 & A4).
  exists pb, pa, sb, sa.
  split; [exact RB|]. split; [exact RA|]. split; [exact SB|]. split; [exact SA|].
  rewrite EB, EA, ESB, ESA in *.
  split; [apply (parseFloat_decimal_of_scaled pb 5); [eapply row_int32_range, RB|lia]|].
  split; [apply (parseFloat_decimal_of_scaled pa 5); [eapply row_int32_range, RA|lia]|].
  split; [apply (parseFloat_decimal_of_scaled sb 2); [eapply row_int32_range, SB|lia]|].
  split; [apply (parseFloat_decimal_of_scaled sa 2); [eapply row_int32_range, SA|lia]|].
  repeat split; assumption.
Qed.

Lemma last_In {A : Type} (l : list A) (d : A) : l <> [] -> In (last l d) l.
Proof.
  induction l as [|a l IH]; intros NE; [contradiction|].
  destruct l as [|b l]; [left; reflexivity|]. right. apply IH. discriminate.
Qed.

Lemma last_nth_error {A : Type} (l : list A) (d : A) :
  l <> [] -> nth_error l (List.length l - 1) = Some (last l d).
Proof.
  induction l as [|a l IH]; intros NE; [contradiction|].
  destruct l as [|b l]; [reflexivity|].
  specialize (IH ltac:(discriminate)).
  cbn [List.length] in *. replace (S (S (List.length l)) - 1)%nat with (S (List.length l)) by lia.
  replace (S (List.length l) - 1)%nat with (List.length l) in IH by lia.
  exact IH.
Qed.

Section MetadataProofs.
Variable exchangeLabel : list byte -> Z -> string.

Lemma getSessionMetadata_inv (main l2 : Download) (m : Metadata) :
  getSessionMetadata exchangeLabel main l2 = Some m ->
  exists buffer parsedData firstTick rest,
    main = Inflated buffer /\
    parseBinaryData buffer = Return parsedData /\
    preprocessTimestamps parsedData = firstTick :: rest /\
    let lastTick := last (firstTick :: rest) firstTick in
    m = mkMetadata (parseFloat (priceBid (p_tick firstTick)))
                   (parseFloat (priceBid (p_tick lastTick)))
                   (math_round (js_div (js_sub (js_int (timestamp (p_tick lastTick)))
                                               (js_int (timestamp (p_tick firstTick))))
                                       (js_int 60000)))
                   (Z.of_nat (List.length (firstTick :: rest)))
                   (timestamp (p_tick firstTick)) (timestamp (p_tick lastTick)).
Proof.
  unfold getSessionMetadata, loadSessionData. intros G.
  destruct main as [| |buffer]; try discriminate.
  destruct (parseBinaryData buffer) as [parsedData|e] eqn:P; [|discriminate].
  cbn [processedData] in G.
  destruct (preprocessTimestamps parsedData) as [|firstTick rest] eqn:PP; [discriminate|].
  inversion G; subst m. exists buffer, parsedData, firstTick, rest.
  repeat split; try reflexivity; assumption.
Qed.

Lemma duration_nonneg (t0 tN : Z) :
  tN - t0 >= -999 ->
  0 <= math_round (js_div (js_sub (js_int tN) (js_int t0)) (js_int 60000)).
Proof.
  intros D. unfold math_round, js_div, js_sub, js_int.
  assert (F1 : (inject_Z (-999) <= fl (inject_Z tN - inject_Z t0))%Q).
  { rewrite <- (fl_int (-999)) by (vm_compute; discriminate).
    apply fl_mono. unfold Qminus. rewrite <- inject_Z_opp, <- inject_Z_plus, <- Zle_Qle. lia. }
  assert (H12 : fl (- (1 # 2)) = (- (1 # 2))%Q) by (vm_compute; reflexivity).
  assert (F2 : (- (1 # 2) <= fl (fl (inject_Z tN - inject_Z t0) / inject_Z 60000))%Q).
  { rewrite <- H12 at 1. apply fl_mono.
    set (d := fl (inject_Z tN - inject_Z t0)) in *.
    assert (E : (d / inject_Z 60000 == d * (1 # 60000))%Q) by reflexivity.
    rewrite E. change (inject_Z (-999)) with (-999 # 1)%Q in F1. lra. }
  change 0 with (Qfloor 0). apply Qfloor_resp_le. lra.
Qed.

(** X21.  The metadata of a session that loads and holds a tick: the tick count
    is the header's row count; the duration is never negative, in whatever
    order the ticks of one second came; the start and end prices are bid
    prices of rows, as the numbers the decoder divided out: printing them
    with five decimals and reading them back loses nothing. *)
Theorem metadata_of_a_session (main l2 : Download) (m : Metadata) :
  getSessionMetadata exchangeLabel main l2 = Some m ->
  exists buffer N,
    main = Inflated buffer /\
    header_numRows buffer = Some N /\
    0 < N /\ tickCount m = N /\
    0 <= duration_m m /\
    (exists k v, 0 <= k < N /\ row_int32 buffer k 8 = Some v /\
                 px_start m = PF_number (js_div (js_int v) (js_int PRICE_SCALE))) /\
    (exists k v, 0 <= k < N /\ row_int32 buffer k 8 = Some v /\
                 px_end m = PF_number (js_div (js_int v) (js_int PRICE_SCALE))).
Proof.
  intros G.
  destruct (getSessionMetadata_inv main l2 m G)
    as (buffer & parsedData & firstTick & rest & -> & P & PP & M).
  cbv zeta in M. subst m. cbn [tickCount duration_m px_start px_end].
  set (out := firstTick :: rest) in *.
  set (lastTick := last out firstTick).
  destruct (parseBinaryData_length buffer parsedData P) as (N & HN & LN & NB).
  pose proof (decoded_ticks_valid_time buffer parsedData P) as V.
  assert (LB : Z.of_nat (List.length parsedData) <= 2 ^ 32) by lia.
  assert (PM : Permutation (map p_tick out) parsedData).
  { rewrite <- PP. destruct parsedData as [|t d]; [reflexivity|].
    unfold preprocessTimestamps. cbv zeta.
    rewrite (Permutation_map p_tick (sortByAdjusted_perm _)), emitted_ticks.
    rewrite groupBySecond_ticks. reflexivity. }
  assert (LO : List.length out = List.length parsedData).
  { apply Permutation_length in PM. rewrite length_map in PM. exact PM. }
  assert (IL : In lastTick out) by (apply last_In; discriminate).
  assert (IF : In firstTick out) by (left; reflexivity).
  assert (Row : forall p, In p out ->
                  valid_time (p_tick p) /\
                  exists k v, 0 <= k < N /\ row_int32 buffer k 8 = Some v /\
                              parseFloat (priceBid (p_tick p))
                              = PF_number (js_div (js_int v) (js_int PRICE_SCALE))).
  { intros p Ip.
    assert (Id : In (p_tick p) parsedData).
    { eapply Permutation_in; [exact PM|]. apply in_map, Ip. }
    split; [rewrite Forall_forall in V; apply V, Id|].
    destruct (In_nth_error _ _ Id) as (k & E).
    destruct (decoded_price buffer parsedData k _ P E) as (v & RI & PF).
    exists (Z.of_nat k), v. split; [|split; assumption].
    assert (k < List.length parsedData)%nat by (apply nth_error_Some; congruence). lia. }
  exists buffer, N. split; [reflexivity|]. split; [exact HN|].
  split; [unfold out in LO; cbn [List.length] in LO; lia|]. split; [rewrite LO; exact LN|].
  split.
  - apply duration_nonneg.
    pose proof (preprocess_seconds_sorted parsedData LB V) as SS. rewrite PP in SS.
    fold out in SS.
    assert (SL : secondOf firstTick <= secondOf lastTick).
    { destruct IL as [<-|IL]; [lia|].
      unfold out in SS. cbn [map] in SS. inversion SS as [|? ? _ F]; subst.
      rewrite Forall_forall in F. apply F, in_map, IL. }
    destruct (Row firstTick IF) as [VF _]. destruct (Row lastTick IL) as [VL _].
    destruct (secondTimestampOf_exact _ VF) as [EF _].
    destruct (secondTimestampOf_exact _ VL) as [EL _].
    unfold secondOf in SL. rewrite EF, EL in SL.
    pose proof (Z.div_mod (timestamp (p_tick firstTick)) 1000 ltac:(lia)).
    pose proof (Z.mod_pos_bound (timestamp (p_tick firstTick)) 1000 ltac:(lia)).
    pose proof (Z.div_mod (timestamp (p_tick lastTick)) 1000 ltac:(lia)).
    pose proof (Z.mod_pos_bound (timestamp (p_tick lastTick)) 1000 ltac:(lia)).
    lia.
  - split; [apply (Row firstTick IF)|apply (Row lastTick IL)].
Qed.

(** X22.  There is metadata exactly when the main file decodes to a tick or
    more; the level-2 file plays no part in it. *)
Theorem metadata_is_null_iff (main l2 : Download) :
  getSessionMetadata exchangeLabel main l2 = None <->
  (forall buffer, main = Inflated buffer ->
                  match parseBinaryData buffer with
                  | Return (_ :: _) => False
                  | _ => True
                  end).
Proof.
  unfold getSessionMetadata, loadSessionData.
  destruct main as [| |buffer].
  - split; [intros _ b E; discriminate|reflexivity].
  - split; [intros _ b E; discriminate|reflexivity].
  - destruct (parseBinaryData buffer) as [parsedData|e] eqn:P.
    + cbn [processedData].
      assert (LO : List.length (preprocessTimestamps parsedData) = List.length parsedData).
      { destruct parsedData as [|t d]; [reflexivity|].
        unfold preprocessTimestamps. cbv zeta.
        rewrite (Permutation_length (sortByAdjusted_perm _)).
        rewrite <- (length_map p_tick), emitted_ticks.
        rewrite (Permutation_length (groupBySecond_ticks _ _ _)). reflexivity. }
      destruct (preprocessTimestamps parsedData) as [|firstTick rest].
      * destruct parsedData; [|discriminate]. split; [|reflexivity].
        intros _ b E. inversion E; subst b. rewrite P. exact I.
      * destruct parsedData as [|t d]; [discriminate|]. split; [discriminate|].
        intros C. specialize (C buffer eq_refl). rewrite P in C. destruct C.
    + split; [|reflexivity]. intros _ b E. inversion E; subst b. rewrite P. exact I.
Qed.

Lemma last_map {A B : Type} (f : A -> B) (l : list A) (d : A) :
  last (map f l) (f d) = f (last l d).
Proof.
  induction l as [|a l IH]; [reflexivity|].
  destruct l as [|b l]; [reflexivity|]. exact IH.
Qed.

(** X23.  When the rows of the file are in the order of their seconds, the
    metadata start with the first row and end with the last: the times and
    bid prices are those of these two rows. *)
Theorem metadata_of_chronological_session (buffer : list byte) (l2 : Download)
        (parsedData : list DecodedTick) (m : Metadata) :
  parseBinaryData buffer = Return parsedData ->
  StronglySorted Z.le (map secondTimestampOf parsedData) ->
  getSessionMetadata exchangeLabel (Inflated buffer) l2 = Some m ->
  exists N first last v0 vN,
    header_numRows buffer = Some N /\
    nth_error parsedData 0 = Some first /\
    nth_error parsedData (Z.to_nat (N - 1)) = Some last /\
    startTime m = timestamp first /\ endTime m = timestamp last /\
    row_int32 buffer 0 8 = Some v0 /\
    px_start m = PF_number (js_div (js_int v0) (js_int PRICE_SCALE)) /\
    row_int32 buffer (N - 1) 8 = Some vN /\
    px_end m = PF_number (js_div (js_int vN) (js_int PRICE_SCALE)).
Proof.
  intros P S G.
  destruct (getSessionMetadata_inv _ l2 m G)
    as (buffer' & parsedData' & firstTick & rest & EB & P' & PP & M).
  inversion EB; subst buffer'. rewrite P in P'. inversion P'; subst parsedData'.
  cbv zeta in M. subst m. cbn [startTime endTime px_start px_end].
  destruct (parseBinaryData_length buffer parsedData P) as (N & HN & LN & NB).
  pose proof (decoded_ticks_valid_time buffer parsedData P) as V.
  assert (LB : Z.of_nat (List.length parsedData) <= 2 ^ 32) by lia.
  pose proof (preprocess_chronological parsedData LB V S) as K. rewrite PP in K.
  set (out := firstTick :: rest) in *.
  assert (NE : parsedData <> []) by (rewrite <- K; discriminate).
  assert (E0 : nth_error parsedData 0 = Some (p_tick firstTick)) by (rewrite <- K; reflexivity).
  assert (EN : nth_error parsedData (List.length parsedData - 1)
               = Some (p_tick (last out firstTick))).
  { rewrite (last_nth_error parsedData (p_tick firstTick) NE). f_equal.
    rewrite <- K at 1. apply last_map. }
  assert (NL : Z.to_nat (N - 1) = (List.length parsedData - 1)%nat) by lia.
  destruct (decoded_price buffer parsedData _ _ P E0) as (v0 & R0 & F0).
  destruct (decoded_price buffer parsedData _ _ P EN) as (vN & RN & FN).
  exists N, (p_tick firstTick), (p_tick (last out firstTick)), v0, vN.
  split; [exact HN|]. split; [exact E0|]. split; [rewrite NL; exact EN|].
  split; [reflexivity|]. split; [reflexivity|].
  split; [exact R0|]. split; [exact F0|].
  split; [|exact FN].
  replace (N - 1) with (Z.of_nat (List.length parsedData - 1)); [exact RN|].
  destruct parsedData; [contradiction|]. cbn [List.length] in *. lia.
Qed.

End MetadataProofs.

Lemma metadata_of_a_session_witness :
  exists buffer N,
    Inflated example_ticks = Inflated buffer /\
    header_numRows buffer = Some N /\
    0 < N /\ tickCount example_metadata = N /\
    0 <= duration_m example_metadata /\
    (exists k v, 0 <= k < N /\ row_int32 buffer k 8 = Some v /\
                 px_start example_metadata
                 = PF_number (js_div (js_int v) (js_int PRICE_SCALE))) /\
    (exists k v, 0 <= k < N /\ row_int32 buffer k 8 = Some v /\
                 px_end example_metadata
                 = PF_number (js_div (js_int v) (js_int PRICE_SCALE))).
Proof.
  assert (G : getSessionMetadata example_labels (Inflated example_ticks) NotOk
              = Some example_metadata) by (vm_compute; reflexivity).
  exact (metadata_of_a_session example_labels _ _ _ G).
Defined.

Lemma metadata_of_chronological_session_witness :
  exists N first last v0 vN,
    header_numRows example_ticks = Some N /\
    nth_error example_decoded 0 = Some first /\
    nth_error example_decoded (Z.to_nat (N - 1)) = Some last /\
    startTime example_metadata = timestamp first /\
    endTime example_metadata = timestamp last /\
    row_int32 example_ticks 0 8 = Some v0 /\
    px_start example_metadata = PF_number (js_div (js_int v0) (js_int PRICE_SCALE)) /\
    row_int32 example_ticks (N - 1) 8 = Some vN /\
    px_end example_metadata = PF_number (js_div (js_int vN) (js_int PRICE_SCALE)).
Proof.
  assert (G : getSessionMetadata example_labels (Inflated example_ticks) NotOk
              = Some example_metadata) by (vm_compute; reflexivity).
  apply (metadata_of_chronological_session example_labels example_ticks NotOk
                                           example_decoded example_metadata).
  - exact decode_example_ticks.
  - repeat constructor; vm_compute; discriminate.
  - exact G.
Defined.

Lemma decoded_strings_read_back_witness :
  parseFloat "1.50100" = PF_number (js_div (js_int 150100) (js_int PRICE_SCALE)) /\
  parseFloat "0.50" = PF_number (js_div (js_int 50) (js_int SIZE_SCALE)).
Proof.
  destruct (decoded_strings_read_back example_ticks example_decoded 1
              (mkDecodedTick 1700000000500 1700000000500
                             "1.50100" "1.50300" "0.50" "0.50"
                             "1.50100" "1.50300" "0.50" "0.50")
              decode_example_ticks eq_refl)
    as (pb & pa & sb & sa & RB & _ & SB & _ & PB & _ & PS & _).
  assert (EB : row_int32 example_ticks (Z.of_nat 1) 8 = Some 150100)
    by (vm_compute; reflexivity).
  assert (ES : row_int32 example_ticks (Z.of_nat 1) 16 = Some 50)
    by (vm_compute; reflexivity).
  rewrite EB in RB. rewrite ES in SB. inversion RB; inversion SB; subst.
  split; [exact PB|exact PS].
Defined.

(** ** TimestampSynthesizer: distinct timestamps *)

Section SynthDistinct.
Local Open Scope Q_scope.

(** With at most a thousand ticks in the second, the offset in
    milliseconds grows from one tick to the next. *)
Lemma msOffsetOf_step (k i : nat) :
  (k <= 1000)%nat -> (S i < k)%nat -> (msOffsetOf k i + 1 <= msOffsetOf k (S i))%Z.
Proof.
  intros K I. unfold msOffsetOf, math_floor_Z, js_mul, js_div, js_int. cbv zeta.
  set (inc := fl (inject_Z 1000 / inject_Z (Z.of_nat k))).
  assert (KP : 0 < inject_Z (Z.of_nat k))
    by (change 0 with (inject_Z 0); rewrite <- Zlt_Qlt; lia).
  assert (I0 : 0 <= inject_Z (Z.of_nat i))
    by (change 0 with (inject_Z 0); rewrite <- Zle_Qle; lia).
  assert (I1 : inject_Z (Z.of_nat i) <= 999).
  { change 999 with (inject_Z 999). rewrite <- Zle_Qle. lia. }
  assert (SI : inject_Z (Z.of_nat (S i)) == inject_Z (Z.of_nat i) + 1).
  { change 1 with (inject_Z 1). rewrite <- inject_Z_plus.
    replace (Z.of_nat (S i)) with (Z.of_nat i + 1)%Z by lia. reflexivity. }
  assert (Hi : 1 <= inc <= 1000 /\ (inc = 1 \/ 1001 # 1000 <= inc)).
  { destruct (Nat.eq_dec k 1000) as [->|NK].
    - assert (E : inc = 1) by (unfold inc; vm_compute; reflexivity).
      rewrite E. split; [lra|left; reflexivity].
    - assert (L : fl (1000 # 999) <= inc).
      { apply fl_mono. apply Qle_shift_div_l; [exact KP|].
        assert (inject_Z (Z.of_nat k) <= 999).
        { change 999 with (inject_Z 999). rewrite <- Zle_Qle. lia. }
        change (inject_Z 1000) with 1000. lra. }
      assert (U : inc <= fl 1000).
      { apply fl_mono. apply Qle_shift_div_r; [exact KP|].
        assert (1 <= inject_Z (Z.of_nat k)).
        { change 1 with (inject_Z 1). rewrite <- Zle_Qle. lia. }
        change (inject_Z 1000) with 1000. lra. }
      assert (C1 : 1001 # 1000 <= fl (1000 # 999)) by (vm_compute; discriminate).
      assert (C2 : fl 1000 = 1000) by (vm_compute; reflexivity).
      rewrite C2 in U. split; [lra|right; lra]. }
  destruct Hi as [[IL IU] IC].
  set (a := inject_Z (Z.of_nat i) * inc).
  assert (A0 : 0 <= a) by (unfold a; nra).
  assert (A1 : a <= 999000) by (unfold a; nra).
  assert (AE : Qabs (fl a - a) <= pow2 (19 - 53)).
  { apply fl_err_below. rewrite Qabs_pos by exact A0.
    change (pow2 (19 + 1)) with 1048576. lra. }
  change (pow2 (19 - 53)) with (1 # 17179869184) in AE.
  apply Qabs_Qle_condition in AE. destruct AE as [AE1 AE2].
  pose proof (Qfloor_le (fl a)) as FL.
  assert (MB : (0 <= Qfloor (fl a) <= 999001)%Z).
  { split.
    - change 0%Z with (Qfloor 0). apply Qfloor_resp_le. apply fl_nonneg, A0.
    - assert (B : inject_Z (Qfloor (fl a)) <= 999001) by lra.
      change 999001 with (inject_Z 999001) in B. rewrite <- Zle_Qle in B. exact B. }
  assert (G : inject_Z (Qfloor (fl a) + 1) <= fl (inject_Z (Z.of_nat (S i)) * inc)).
  { rewrite <- (fl_int (Qfloor (fl a) + 1)) by lia. apply fl_mono.
    rewrite SI, inject_Z_plus. change (inject_Z 1) with 1.
    assert (P : (inject_Z (Z.of_nat i) + 1) * inc == a + inc) by (unfold a; ring).
    rewrite P.
    destruct IC as [E1|E1].
    - (* a thousand ticks: the product is the index itself *)
      assert (AI : a == inject_Z (Z.of_nat i)) by (unfold a; rewrite E1; ring).
      assert (FA : fl a = inject_Z (Z.of_nat i)).
      { rewrite (fl_compat _ _ AI). apply fl_int. lia. }
      rewrite FA, Qfloor_Z, E1, AI. lra.
    - lra. }
  apply Qfloor_resp_le in G. rewrite Qfloor_Z in G. exact G.
Qed.

Lemma msOffsetOf_strict (k i j : nat) :
  (k <= 1000)%nat -> (i < j)%nat -> (j < k)%nat -> (msOffsetOf k i < msOffsetOf k j)%Z.
Proof.
  intros K IJ JK. induction j as [|j IH]; [lia|].
  pose proof (msOffsetOf_step k j K JK) as S.
  destruct (Nat.eq_dec i j) as [->|NE]; [lia|].
  specialize (IH ltac:(lia) ltac:(lia)). lia.
Qed.

(** Two offsets that differ give two adjusted timestamps that differ,
    for every second within the range of [Date]. *)
Lemma adjusted_strict (s m m' : Z) :
  (Z.abs s <= 8640000000000)%Z -> (0 <= m < m')%Z -> (m' <= 999)%Z ->
  js_add (js_int s) (js_div (js_int m) (js_int 1000))
  < js_add (js_int s) (js_div (js_int m') (js_int 1000)).
Proof.
  intros SB M M'. unfold js_add, js_div, js_int.
  set (S := inject_Z s).
  assert (SA : - (8640000000000) <= S <= 8640000000000).
  { unfold S. split.
    - change (- (8640000000000)) with (inject_Z (-8640000000000)). rewrite <- Zle_Qle. lia.
    - change 8640000000000 with (inject_Z 8640000000000). rewrite <- Zle_Qle. lia. }
  assert (Frac : forall n : Z, (0 <= n <= 999)%Z ->
                   let q := inject_Z n / inject_Z 1000 in
                   let x := S + fl q in
                   Qabs (fl q - q) <= 1 # 9007199254740992 /\
                   q == inject_Z n * (1 # 1000) /\
                   Qabs (fl x - x) <= 1 # 2048).
  { intros n N q x.
    assert (QE : q == inject_Z n * (1 # 1000)) by reflexivity.
    assert (N0 : 0 <= inject_Z n) by (change 0 with (inject_Z 0); rewrite <- Zle_Qle; lia).
    assert (N1 : inject_Z n <= 999).
    { change 999 with (inject_Z 999). rewrite <- Zle_Qle. lia. }
    assert (E1 : Qabs (fl q - q) <= 1 # 9007199254740992).
    { eapply Qle_trans; [apply fl_rel_err|].
      change (pow2 (-53)) with (1 # 9007199254740992).
      rewrite Qabs_pos by lra. lra. }
    split; [exact E1|]. split; [exact QE|].
    change (1 # 2048) with (pow2 (42 - 53)). apply fl_err_below.
    change (pow2 (42 + 1)) with 8796093022208.
    apply Qabs_Qle_condition in E1. destruct E1 as [E1 E2].
    apply Qabs_Qlt_condition. unfold x. split; lra. }
  destruct (Frac m ltac:(lia)) as (A1 & A2 & A3).
  destruct (Frac m' ltac:(lia)) as (B1 & B2 & B3).
  cbv zeta in A1, A2, A3, B1, B2, B3.
  set (q := inject_Z m / inject_Z 1000) in *.
  set (q' := inject_Z m' / inject_Z 1000) in *.
  assert (D : inject_Z m + 1 <= inject_Z m').
  { change 1 with (inject_Z 1). rewrite <- inject_Z_plus, <- Zle_Qle. lia. }
  apply Qabs_Qle_condition in A1, A3, B1, B3.
  lra.
Qed.

End SynthDistinct.

Section SynthDistinctLists.
Local Open Scope Q_scope.

Lemma spread_strict (s : Z) (k : nat) (ticks : list (DecodedTick * nat)) :
  (Z.abs s <= 8640000000000)%Z -> (k <= 1000)%nat ->
  forall index,
    (index + List.length ticks <= k)%nat ->
    StronglySorted adjusted_lt (spread s k ticks index).
Proof.
  intros SB K. induction ticks as [|[t n] ticks IH]; intros index L; cbn [spread];
    constructor.
  - apply IH. cbn [List.length] in L. lia.
  - apply Forall_forall. intros p Ip.
    destruct (spread_In _ _ _ _ _ Ip) as (i & t' & n' & E & ->).
    assert (IL : (i < List.length ticks)%nat) by (apply nth_error_Some; congruence).
    cbn [List.length] in L.
    unfold adjusted_lt. cbn [adjustedTimestamp]. unfold adjustedOf.
    assert (KB : (Z.of_nat k <= 2 ^ 32)%Z) by lia.
    destruct (msOffsetOf_bounds k index ltac:(lia) KB) as [_ B1].
    destruct (msOffsetOf_bounds k (S index + i) ltac:(lia) KB) as [_ B2].
    pose proof (msOffsetOf_strict k index (S index + i) K ltac:(lia) ltac:(lia)) as ST.
    apply adjusted_strict; lia.
Qed.

Lemma emitSecond_strict (s : Z) (ticks : list (DecodedTick * nat)) :
  (Z.abs s <= 8640000000000)%Z -> (List.length ticks <= 1000)%nat ->
  StronglySorted adjusted_lt (emitSecond (s, ticks)).
Proof.
  intros SB K. destruct (emitSecond_cases s ticks) as [(t & n & _ & ->)|[_ ->]].
  - constructor; constructor.
  - apply spread_strict; [exact SB|exact K|lia].
Qed.

Lemma sort_insert_strict (x : ProcessedTick) (l : list ProcessedTick) :
  StronglySorted adjusted_lt l -> Forall (adjusted_differ x) l ->
  StronglySorted adjusted_lt (sort_insert x l).
Proof.
  induction l as [|y l IH]; intros S D; cbn [sort_insert].
  - constructor; constructor.
  - inversion S as [|? ? S' F]; subst. inversion D as [|? ? Dy D']; subst.
    unfold adjusted_differ in Dy.
    destruct (Qle_bool (adjustedTimestamp x) (adjustedTimestamp y)) eqn:C.
    + apply Qle_bool_iff in C.
      assert (XY : adjusted_lt x y) by (unfold adjusted_lt; lra).
      constructor; [exact S|]. constructor; [exact XY|].
      rewrite Forall_forall in F. apply Forall_forall. intros z Iz.
      specialize (F z Iz). unfold adjusted_lt in *. lra.
    + assert (YX : adjusted_lt y x).
      { unfold adjusted_lt.
        destruct (Qlt_le_dec (adjustedTimestamp y) (adjustedTimestamp x)) as [A|A];
          [exact A|]. apply Qle_bool_iff in A. congruence. }
      constructor; [apply IH; assumption|].
      apply Forall_forall. intros z Iz. apply (proj1 (sort_insert_In _ _ _)) in Iz.
      destruct Iz as [->|Iz]; [exact YX|].
      rewrite Forall_forall in F. apply F, Iz.
Qed.

Lemma sortByAdjusted_strict (l : list ProcessedTick) :
  ForallOrdPairs adjusted_differ l -> StronglySorted adjusted_lt (sortByAdjusted l).
Proof.
  induction l as [|x l IH]; intros P; [constructor|].
  inversion P as [|? ? F P']; subst.
  change (sortByAdjusted (x :: l)) with (sort_insert x (sortByAdjusted l)).
  apply sort_insert_strict; [apply IH; exact P'|].
  apply Forall_forall. intros y Iy. apply (proj1 (sortByAdjusted_In _ _)) in Iy.
  rewrite Forall_forall in F. apply F, Iy.
Qed.

Lemma ForallOrdPairs_app {A : Type} (R : A -> A -> Prop) (l1 l2 : list A) :
  ForallOrdPairs R l1 -> ForallOrdPairs R l2 ->
  (forall a b, In a l1 -> In b l2 -> R a b) ->
  ForallOrdPairs R (l1 ++ l2).
Proof.
  intros P1 P2 C. induction P1 as [|a l1 F P1 IH]; [exact P2|].
  cbn [app]. constructor.
  - apply Forall_app. split; [exact F|].
    apply Forall_forall. intros b Ib. apply C; [left; reflexivity|exact Ib].
  - apply IH. intros x y Ix Iy. apply C; [right; exact Ix|exact Iy].
Qed.

Lemma strictly_sorted_differ (l : list ProcessedTick) :
  StronglySorted adjusted_lt l -> ForallOrdPairs adjusted_differ l.
Proof.
  induction 1 as [|a l S IH F]; constructor; [|exact IH].
  rewrite Forall_forall in F. apply Forall_forall. intros b Ib.
  specialize (F b Ib). unfold adjusted_lt, adjusted_differ in *. lra.
Qed.

(** When no second holds more than a thousand ticks, the output is in
    strictly increasing order. *)
Lemma sparse_seconds_distinct (data : list DecodedTick) :
  Forall valid_time data ->
  (forall s, (countInSecond s data <= 1000)%nat) ->
  StronglySorted adjusted_lt (preprocessTimestamps data).
Proof.
  intros V C.
  destruct data as [|t0 data0]; [constructor|].
  set (data := t0 :: data0) in *.
  change (preprocessTimestamps data)
    with (sortByAdjusted (flat_map emitSecond (groupBySecond data 0 []))).
  apply sortByAdjusted_strict.
  pose proof (groupBySecond_wf data 0 [] empty_map_wf) as [ND W].
  set (G := groupBySecond data 0 []) in *.
  (* what holds of every array of the map *)
  assert (Group : forall s ticks, In (s, ticks) G ->
            (Z.abs s <= 8640000000000)%Z /\ (List.length ticks <= 1000)%nat /\
            forall p, In p (emitSecond (s, ticks)) ->
                      secondOf p = s /\
                      inject_Z s <= adjustedTimestamp p < inject_Z s + 1).
  { intros s ticks IG. destruct (W _ _ IG) as [NE SEC].
    pose proof (In_map_get _ _ _ ND IG) as MG.
    destruct (group_ticks data s) as [GF GL]. fold G in GF, GL. rewrite MG in GF, GL.
    assert (LT : (List.length ticks <= 1000)%nat) by (rewrite GL; apply C).
    assert (SB : (Z.abs s <= 8640000000000)%Z).
    { destruct ticks as [|[t n] ticks']; [contradiction|].
      assert (Td : In t data).
      { assert (I : In t (map fst ((t, n) :: ticks'))) by (left; reflexivity).
        rewrite GF in I. apply filter_In in I. apply I. }
      assert (Vt : valid_time t) by (rewrite Forall_forall in V; apply V, Td).
      destruct (secondTimestampOf_exact t Vt) as [_ B].
      pose proof (SEC (t, n) (or_introl eq_refl)) as ES. cbn [fst] in ES.
      rewrite ES in B. exact B. }
    split; [exact SB|]. split; [exact LT|].
    intros p Ip. split; [eapply emitSecond_second; eassumption|].
    destruct (emitSecond_cases s ticks) as [(t & n & L & EM)|[L1 EM]]; rewrite EM in Ip.
    - destruct Ip as [<-|[]]. cbn [adjustedTimestamp].
      destruct (adjusted_range s 0 SB ltac:(lia)) as (R & Z0 & _).
      rewrite <- (Z0 eq_refl). exact R.
    - destruct (spread_In _ _ _ _ _ Ip) as (i & t & n & E & ->).
      cbn [adjustedTimestamp]. unfold adjustedOf.
      apply adjusted_range; [exact SB|].
      assert (IL : (i < List.length ticks)%nat) by (apply nth_error_Some; congruence).
      apply msOffsetOf_bounds; [cbn [Nat.add]; exact IL|lia]. }
  clearbody G.
  assert (Sub : forall g, In g G -> In g G) by (intros g I; exact I).
  revert Sub ND. generalize G at 1 3 4 as m.
  induction m as [|[k ticks] m IH]; intros Sub ND'; [constructor|].
  cbn [flat_map]. inversion ND' as [|? ? NI ND'']; subst.
  destruct (Group k ticks (Sub _ (or_introl eq_refl))) as (SB & LT & PK).
  apply ForallOrdPairs_app.
  - apply strictly_sorted_differ, emitSecond_strict; assumption.
  - apply IH; [|exact ND'']. intros g Ig. apply Sub. right. exact Ig.
  - intros a b Ia Ib. apply in_flat_map in Ib. destruct Ib as ([k' ticks'] & Ig & Ib).
    destruct (Group k' ticks' (Sub _ (or_intror Ig))) as (_ & _ & PK').
    destruct (PK a Ia) as [_ RA]. destruct (PK' b Ib) as [_ RB].
    assert (NE : k <> k').
    { intros ->. apply NI. change k' with (fst (k', ticks')). apply in_map, Ig. }
    unfold adjusted_differ. intros E.
    assert (L1 : inject_Z k < inject_Z k' + 1) by lra.
    assert (L2 : inject_Z k' < inject_Z k + 1) by lra.
    change 1 with (inject_Z 1) in L1, L2.
    rewrite <- inject_Z_plus, <- Zlt_Qlt in L1, L2. lia.
Qed.

End SynthDistinctLists.


(** *** More than a thousand ticks in one second *)

Lemma StronglySorted_filter {A : Type} (R : A -> A -> Prop) (f : A -> bool) (l : list A) :
  StronglySorted R l -> StronglySorted R (filter f l).
Proof.
  induction 1 as [|a l S IH F]; cbn [filter]; [constructor|].
  destruct (f a); [|exact IH]. constructor; [exact IH|].
  rewrite Forall_forall in F. apply Forall_forall. intros b Ib.
  apply filter_In in Ib. apply F, Ib.
Qed.

Lemma spread_adjusted (s : Z) (k : nat) (ticks : list (DecodedTick * nat)) :
  forall index,
    map adjustedTimestamp (spread s k ticks index)
    = map (adjustedOf s k) (seq index (List.length ticks)).
Proof.
  induction ticks as [|[t n] ticks IH]; intros index; cbn [spread map List.length seq];
    [reflexivity|].
  rewrite IH. reflexivity.
Qed.

Lemma strictly_increasing_NoDup {A : Type} (g : A -> Q) (l : list A) :
  StronglySorted Qlt (map g l) -> NoDup l.
Proof.
  induction l as [|a l IH]; intros S; [constructor|].
  cbn [map] in S. inversion S as [|? ? S' F]; subst. constructor; [|apply IH, S'].
  intros I. rewrite Forall_forall in F. specialize (F (g a) (in_map g _ _ I)).
  apply (Qlt_irrefl _ F).
Qed.

Lemma NoDup_map_of_composite {A B : Type} (h : A -> B) (g : B -> Q) (l : list A) :
  StronglySorted Qlt (map (fun a => g (h a)) l) -> NoDup (map h l).
Proof.
  intros S. apply (strictly_increasing_NoDup g). rewrite map_map. exact S.
Qed.

(** A second that holds more than a thousand ticks yields entries with
    the same adjusted timestamp: there are a thousand offsets only. *)
Lemma crowded_second_repeats (data : list DecodedTick) (s : Z) :
  Z.of_nat (List.length data) <= 2 ^ 32 ->
  (1000 < countInSecond s data)%nat ->
  ~ StronglySorted adjusted_lt (preprocessTimestamps data).
Proof.
  intros LB C S.
  destruct data as [|t0 data0]; [cbn in C; lia|].
  set (data := t0 :: data0) in *.
  change (preprocessTimestamps data)
    with (sortByAdjusted (flat_map emitSecond (groupBySecond data 0 []))) in S.
  pose proof (groupBySecond_wf data 0 [] empty_map_wf) as WF.
  destruct (group_ticks data s) as [_ GL].
  set (ticks := map_get (groupBySecond data 0 []) s) in *.
  set (k := List.length ticks) in *.
  assert (KL : (k <= List.length data)%nat).
  { rewrite GL. unfold countInSecond. apply filter_length_le. }
  apply (StronglySorted_filter _ (fun p => secondOf p =? s)) in S.
  rewrite sortByAdjusted_filter in S;
    rewrite (emitted_of_second _ s WF) in *; [|apply emitSecond_sorted].
  fold ticks in S.
  destruct (emitSecond_cases s ticks) as [(t & n & L & _)|[_ EM]].
  - unfold k in GL. rewrite L in GL. cbn [List.length] in GL. lia.
  - rewrite EM in S. fold k in S.
    apply (StronglySorted_map_weaken adjusted_lt Qlt adjustedTimestamp) in S;
      [|intros a b _ _ L; exact L].
    rewrite spread_adjusted in S. fold k in S. unfold adjustedOf in S.
    apply (NoDup_map_of_composite
             (msOffsetOf k)
             (fun m => js_add (js_int s) (js_div (js_int m) (js_int 1000)))) in S.
    assert (I : incl (map (msOffsetOf k) (seq 0 k)) (map Z.of_nat (seq 0 1000))).
    { intros m Im. apply in_map_iff in Im. destruct Im as (i & <- & Ii).
      apply in_seq in Ii.
      destruct (msOffsetOf_bounds k i ltac:(lia) ltac:(lia)) as [_ B].
      apply in_map_iff. exists (Z.to_nat (msOffsetOf k i)). split; [lia|].
      apply in_seq. lia. }
    pose proof (NoDup_incl_length S I) as N.
    rewrite !length_map, !length_seq in N. lia.
Qed.

(** X24.  The adjusted timestamps of the output are all different, that is, the
    output is in strictly increasing order, exactly when no second holds
    more than a thousand ticks.  This holds for every date that [Date] can
    hold: up to there neighbouring doubles are less than a millisecond
    apart. *)
Theorem distinct_adjusted_timestamps (data : list DecodedTick) :
  Z.of_nat (List.length data) <= 2 ^ 32 ->
  Forall valid_time data ->
  (forall s, (countInSecond s data <= 1000)%nat) <->
  StronglySorted adjusted_lt (preprocessTimestamps data).
Proof.
  intros LB V. split.
  - apply sparse_seconds_distinct, V.
  - intros S s. destruct (Nat.le_gt_cases (countInSecond s data) 1000) as [L|G];
      [exact L|].
    exfalso. exact (crowded_second_repeats data s LB G S).
Qed.

Lemma distinct_adjusted_timestamps_witness :
  StronglySorted adjusted_lt (preprocessTimestamps example_three_ticks).
Proof.
  apply (distinct_adjusted_timestamps example_three_ticks).
  - vm_compute. discriminate.
  - repeat constructor; vm_compute; discriminate.
  - intros s. unfold countInSecond.
    eapply Nat.le_trans; [apply filter_length_le|]. cbn [example_three_ticks List.length]. lia.
Defined.

(** ** L2Codec: the fields copied from a row *)

Lemma getUint8_range (buf : list byte) (off v : Z) :
  getUint8 buf off = Return v -> 0 <= v <= 255.
Proof.
  unfold getUint8. intros G.
  destruct (bytes_at buf off 1) as [bs|e] eqn:B; cbn [bind] in G; [|discriminate].
  inversion G; subst.
  pose proof (le_value_nonneg bs). pose proof (le_value_bound bs) as U.
  rewrite (bytes_at_length _ _ _ _ B) in U. change (256 ^ Z.of_nat 1) with 256 in U. lia.
Qed.

Section L2Fields.
Variable exchangeLabel : list byte -> Z -> string.

Lemma parseL2Row_fields buffer mappingBytes offset j st st' :
  List.length (l2_data st) = j ->
  (forall k e, nth_error (l2_data st) k = Some e ->
               l2_entry_of_row exchangeLabel buffer mappingBytes offset k e) ->
  parseL2Row exchangeLabel buffer mappingBytes (offset + Z.of_nat j * l2_rowSize) st
  = Return st' ->
  List.length (l2_data st') = S j /\
  forall k e, nth_error (l2_data st') k = Some e ->
              l2_entry_of_row exchangeLabel buffer mappingBytes offset k e.
Proof.
  intros IL IE. unfold parseL2Row.
  destruct (getInt32 buffer (offset + Z.of_nat j * l2_rowSize)) as [dt|e]; cbn [bind];
    [|discriminate].
  destruct (getInt32 buffer (offset + Z.of_nat j * l2_rowSize + 4)) as [dp|e]; cbn [bind];
    [|discriminate].
  destruct (getInt32 buffer (offset + Z.of_nat j * l2_rowSize + 8)) as [sz|e] eqn:E8;
    cbn [bind]; [|discriminate].
  destruct (getUint8 buffer (offset + Z.of_nat j * l2_rowSize + 12)) as [ty|e] eqn:E12;
    cbn [bind]; [|discriminate].
  destruct (getUint8 buffer (offset + Z.of_nat j * l2_rowSize + 13)) as [code|e] eqn:E13;
    cbn [bind]; [|discriminate].
  unfold newDate.
  destruct (Qle_bool _ (inject_Z maxTimeValue)) eqn:V; cbn [bind toISOString]; [|discriminate].
  intros R. inversion R; subst st'; clear R. cbn [l2_data].
  apply Qle_bool_iff in V.
  split; [unfold push; rewrite length_app, IL; cbn [List.length]; lia|].
  intros k e Ek. unfold push in Ek.
  destruct (Nat.lt_ge_cases k j) as [LT|GE].
  - rewrite nth_error_app1 in Ek by lia. apply IE, Ek.
  - rewrite nth_error_app2 in Ek by lia. rewrite IL in Ek.
    destruct (k - j)%nat as [|d] eqn:D; [|destruct d; discriminate].
    assert (k = j) by lia. subst k. cbn [nth_error] in Ek. inversion Ek; subst e; clear Ek.
    unfold l2_entry_of_row, l2_row_int32, l2_row_uint8.
    cbn [size entry_type exchange l2_timestamp]. rewrite E8, E12, E13.
    split; [reflexivity|]. split; [reflexivity|]. split; [reflexivity|].
    split; [eapply getUint8_range, E12|]. apply js_trunc_bound, V.
Qed.

Lemma parseL2Rows_fields buffer mappingBytes offset :
  forall remaining j st st',
    List.length (l2_data st) = j ->
    (forall k e, nth_error (l2_data st) k = Some e ->
                 l2_entry_of_row exchangeLabel buffer mappingBytes offset k e) ->
    parseL2Rows exchangeLabel buffer mappingBytes offset (Z.of_nat j) remaining st
    = Return st' ->
    forall k e, nth_error (l2_data st') k = Some e ->
                l2_entry_of_row exchangeLabel buffer mappingBytes offset k e.
Proof.
  induction remaining as [|remaining IH]; intros j st st' IL IE R; cbn [parseL2Rows] in R.
  - inversion R; subst. exact IE.
  - destruct (parseL2Row exchangeLabel buffer mappingBytes
                         (offset + Z.of_nat j * l2_rowSize) st) as [st1|e] eqn:R1;
      cbn [bind] in R; [|discriminate].
    destruct (parseL2Row_fields _ _ _ _ _ _ IL IE R1) as [L1 E1].
    replace (Z.of_nat j + 1) with (Z.of_nat (S j)) in R by lia.
    exact (IH (S j) st1 st' L1 E1 R).
Qed.

(** X26.  Besides its time and price, the entry of a row holds the row's size
    and entry type as read, and the label that the exchange table gives
    for the row's exchange code; the entry type is any byte value, 0 and 1
    or not; the time of every entry is a valid date. *)
Theorem l2_entries_copy_the_rows (buffer : list byte) (entries : list L2Entry)
        (mappingLength : Z) :
  parseBinaryLevel2Data exchangeLabel buffer = Return entries ->
  l2_header_mappingLength buffer = Some mappingLength ->
  forall k e,
    nth_error entries k = Some e ->
    l2_entry_of_row exchangeLabel buffer
                    (firstn (Z.to_nat mappingLength) (skipn 12 buffer))
                    (12 + mappingLength) k e.
Proof.
  intros P HM. unfold l2_header_mappingLength in HM.
  unfold parseBinaryLevel2Data in P.
  destruct (getBigUint64 buffer 0) as [t0|e]; cbn [bind] in P; [|discriminate].
  destruct (getUint32 buffer 8) as [m|e]; cbn [bind] in P; [|discriminate].
  inversion HM; subst m.
  destruct (parseL2Rows exchangeLabel buffer _ _ 0 _ _) as [st|e] eqn:RS;
    cbn [bind] in P; [|discriminate].
  inversion P; subst entries.
  refine (parseL2Rows_fields _ _ _ _ 0%nat (mkL2Loop (js_of_bigint t0) 0%Q []) st
                              eq_refl _ RS).
  intros k e Ek. destruct k; discriminate.
Qed.

End L2Fields.

Lemma l2_entries_copy_the_rows_witness :
  l2_entry_of_row example_labels example_l2
                  (firstn (Z.to_nat 8) (skipn 12 example_l2)) (12 + 8) 0
                  (mkL2Entry 1700000000005 (js_int 1700000000005)
                             (fl (12346 # 10000)) 100 "NASDAQ" 0).
Proof.
  apply (l2_entries_copy_the_rows example_labels example_l2 _ 8 decode_example_l2).
  - vm_compute. reflexivity.
  - reflexivity.
Defined.

(** ** The sessions of a listing *)

Lemma substring_all (s : string) : substring 0 (String.length s) s = s.
Proof. induction s as [|c s IH]; [reflexivity|]. cbn [String.length substring]. rewrite IH. reflexivity. Qed.

Lemma substring_skip (a b : string) (n : nat) :
  substring (String.length a) n (a ++ b) = substring 0 n b.
Proof. induction a as [|c a IH]; [reflexivity|]. cbn [String.length String.append substring]. exact IH. Qed.

Lemma endsWith_app (a suffix : string) : endsWith (a ++ suffix) suffix = true.
Proof.
  unfold endsWith. rewrite string_length_app.
  replace (String.length a + String.length suffix - String.length suffix)%nat
    with (String.length a) by lia.
  rewrite substring_skip, substring_all, String.eqb_refl.
  rewrite andb_true_r. apply Nat.leb_le. lia.
Qed.

Lemma append_assoc (a b c : string) : ((a ++ b) ++ c = a ++ (b ++ c))%string.
Proof. induction a as [|x a IH]; [reflexivity|]. cbn [String.append]. rewrite IH. reflexivity. Qed.

Lemma has_char_app (c : ascii) (a b : string) :
  has_char c (a ++ b) = has_char c a || has_char c b.
Proof.
  induction a as [|d a IH]; [reflexivity|]. cbn [String.append has_char].
  rewrite IH, orb_assoc. reflexivity.
Qed.

Lemma replaceFirst_suffix (x : string) :
  has_char "."%char x = false ->
  replaceFirst ".bin.gz" "" (x ++ ".bin.gz") = x.
Proof.
  induction x as [|c x IH]; intros N; [reflexivity|].
  cbn [has_char] in N. apply orb_false_iff in N. destruct N as [Nc N].
  cbn [String.append replaceFirst prefix].
  destruct (ascii_dec "."%char c) as [E|_].
  - subst c. discriminate Nc.
  - rewrite (IH N). reflexivity.
Qed.

Lemma splitOn_whole (sep : ascii) (s : string) :
  has_char sep s = false -> splitOn sep s = [s].
Proof.
  induction s as [|c s IH]; intros N; [reflexivity|].
  cbn [has_char] in N. apply orb_false_iff in N. destruct N as [Nc N].
  cbn [splitOn]. rewrite Nc, (IH N). reflexivity.
Qed.

Lemma splitOn_first (sep : ascii) (a b : string) :
  has_char sep a = false ->
  splitOn sep (a ++ String sep b) = a :: splitOn sep b.
Proof.
  induction a as [|c a IH]; intros N.
  - cbn [String.append splitOn]. rewrite Ascii.eqb_refl. reflexivity.
  - cbn [has_char] in N. apply orb_false_iff in N. destruct N as [Nc N].
    cbn [String.append splitOn]. rewrite Nc, (IH N). reflexivity.
Qed.

(** A string of eight characters, spelled out. *)
Lemma eight_chars (d : string) :
  String.length d = 8%nat ->
  exists c1 c2 c3 c4 c5 c6 c7 c8,
    d = String c1 (String c2 (String c3 (String c4
          (String c5 (String c6 (String c7 (String c8 EmptyString))))))).
Proof.
  intros L.
  destruct d as [|c1 [|c2 [|c3 [|c4 [|c5 [|c6 [|c7 [|c8 [|c9 d]]]]]]]]]; try discriminate L.
  exists c1, c2, c3, c4, c5, c6, c7, c8. reflexivity.
Qed.

(** X27.  A file named SYMBOL-YYYYMMDD.bin.gz of type "file", the symbol and
    the date without hyphen and point, is listed as the session
    SYMBOL-YYYYMMDD of that symbol, dated YYYY-MM-DD, with the file's size
    and URL. *)
Theorem session_of_standard_name (file : RepoFile) (symbol date : string) :
  file_name file = (symbol ++ "-" ++ date ++ ".bin.gz")%string ->
  file_type file = "file"%string ->
  has_char "-"%char symbol = false -> has_char "."%char symbol = false ->
  has_char "-"%char date = false -> has_char "."%char date = false ->
  String.length date = 8%nat ->
  isSessionFile file = true /\
  sessionOfFile file
  = mkSessionInfo (symbol ++ "-" ++ date) (symbol ++ "-" ++ date) symbol
                  (Some (slice 0 4 date ++ "-" ++ slice 4 6 date ++ "-" ++ slice 6 8 date)%string)
                  (file_size file) (file_download_url file) None None None None.
Proof.
  intros EN ET NS PS ND PD LD.
  assert (NX : file_name file = ((symbol ++ "-" ++ date) ++ ".bin.gz")%string).
  { rewrite EN, append_assoc. reflexivity. }
  assert (PX : has_char "."%char (symbol ++ "-" ++ date) = false).
  { rewrite has_char_app, PS. cbn [String.append has_char orb]. rewrite PD. reflexivity. }
  split.
  - unfold isSessionFile. rewrite ET, NX, endsWith_app.
    replace (String.eqb "file" "file") with true by reflexivity.
    rewrite andb_true_r. cbn [andb]. apply negb_true_iff.
    destruct (eight_chars date LD) as (c1 & c2 & c3 & c4 & c5 & c6 & c7 & c8 & ->).
    assert (N6 : Ascii.eqb c6 "-"%char = false).
    { cbn [has_char] in ND.
      do 5 (apply orb_false_iff in ND; destruct ND as [_ ND]).
      apply orb_false_iff in ND. apply ND. }
    set (a := (symbol ++ "-" ++ String c1 (String c2 (String c3 (String c4 (String c5 "")))))%string).
    set (b := String c6 (String c7 (String c8 ".bin.gz"))).
    assert (E : ((symbol ++ "-" ++ String c1 (String c2 (String c3 (String c4
                   (String c5 (String c6 (String c7 (String c8 "")))))))) ++ ".bin.gz"
                 = a ++ b)%string).
    { unfold a, b. rewrite !append_assoc. reflexivity. }
    rewrite E. unfold endsWith. rewrite string_length_app.
    change (String.length b) with 10%nat. change (String.length "-l2.bin.gz") with 10%nat.
    replace (String.length a + 10 - 10)%nat with (String.length a) by lia.
    rewrite substring_skip. unfold b. cbn [substring String.eqb].
    rewrite N6. apply andb_false_r.
  - unfold sessionOfFile. cbv zeta. rewrite NX, (replaceFirst_suffix _ PX).
    replace (symbol ++ "-" ++ date)%string with (symbol ++ String "-"%char date)%string
      by reflexivity.
    rewrite (splitOn_first "-"%char symbol date NS), (splitOn_whole "-"%char date ND).
    cbn [hd nth_error]. rewrite LD. reflexivity.
Qed.

(** X28.  A level-2 file in the listing gives no session and changes nothing
    else. *)
Theorem level2_files_are_skipped (before after : list RepoFile) (file : RepoFile)
        (base : string) (ok : bool) :
  file_name file = (base ++ "-l2.bin.gz")%string ->
  getSessions ok (before ++ file :: after) = getSessions ok (before ++ after).
Proof.
  intros EN. unfold getSessions. destruct ok; [|reflexivity].
  rewrite !filter_app. cbn [filter].
  assert (K : isSessionFile file = false).
  { unfold isSessionFile. rewrite EN, (endsWith_app base "-l2.bin.gz").
    cbn [negb]. rewrite andb_false_r. reflexivity. }
  rewrite K. reflexivity.
Qed.

Lemma session_of_standard_name_witness :
  sessionOfFile example_session_file
  = mkSessionInfo "AAPL-20240115" "AAPL-20240115" "AAPL" (Some "2024-01-15"%string)
                  4096 "https://example.org/AAPL-20240115.bin.gz" None None None None.
Proof.
  apply (session_of_standard_name example_session_file "AAPL" "20240115");
    reflexivity.
Defined.

Lemma level2_files_are_skipped_witness :
  getSessions true [example_session_file; example_l2_file]
  = getSessions true [example_session_file].
Proof.
  apply (level2_files_are_skipped [example_session_file] [] example_l2_file
                                  "AAPL-20240115" true).
  reflexivity.
Defined.

(** ** The live-tick effect: what the series are told *)

Section LiveTickCalls.
Context {number : Type} `{JsNumberOps number}.

Lemma lastOnly_snoc {A : Type} (l : list A) (x : A) : lastOnly (l ++ [x]) = [x].
Proof. unfold lastOnly. change (l ++ [x]) with (push l x). rewrite unsnoc_push. reflexivity. Qed.

Lemma candleUpdates_app (a b : list (Event number)) :
  candleUpdates (a ++ b) = candleUpdates a ++ candleUpdates b.
Proof.
  induction a as [|e a IH]; [reflexivity|].
  destruct e; cbn [app candleUpdates]; rewrite IH; reflexivity.
Qed.

Lemma updateLineSeries_last b s (data : list (LinePoint number)) v :
  map value (lastOnly (fst (updateLineSeries b s data v))) = [v].
Proof.
  unfold updateLineSeries. destruct (unsnoc data) as [[init lst]|].
  - destruct (strict_ne _ _); cbn [fst]; unfold push; rewrite lastOnly_snoc; reflexivity.
  - cbn [fst]. unfold push. rewrite lastOnly_snoc. reflexivity.
Qed.

Lemma updateLineSeries_no_candle b s (data : list (LinePoint number)) v :
  candleUpdates (snd (updateLineSeries b s data v)) = [].
Proof. rewrite updateLineSeries_events. reflexivity. Qed.

Lemma updateCandles_shown b (data : list (Candle number)) m :
  candleUpdates (snd (updateCandles b data m)) = lastOnly (fst (updateCandles b data m)) /\
  map close (lastOnly (fst (updateCandles b data m))) = [m].
Proof.
  unfold updateCandles. destruct (unsnoc data) as [[init lst]|].
  - destruct (strict_ne _ _); cbn [fst snd]; unfold push; rewrite lastOnly_snoc;
      split; reflexivity.
  - cbn [fst snd]. unfold push. rewrite lastOnly_snoc. split; reflexivity.
Qed.

Variable ta_ema : list number -> nat -> list (option number).

(** X29.  On a live tick each of the three line series is handed one point, at
    the bucket time of the tick and with the tick's bid, ask or mid, and
    the candle series is handed one candle: the last candle stored, which
    closes at the tick's mid.  The last points stored carry the values of
    the tick. *)
Theorem live_tick_updates_the_series (timeframe : number)
        (st : ChartState number) (q : Quote number) :
  let st' := fst (liveTick ta_ema timeframe st q) in
  let events := snd (liveTick ta_ema timeframe st q) in
  let b := bucketOf (q_t q) timeframe in
  let m := mid_of (q_bid q) (q_ask q) in
  seriesUpdates SBid events = [mkPoint b (q_bid q)] /\
  seriesUpdates SAsk events = [mkPoint b (q_ask q)] /\
  seriesUpdates SMid events = [mkPoint b m] /\
  candleUpdates events = lastOnly (aggregatedCandleData st') /\
  map close (lastOnly (aggregatedCandleData st')) = [m] /\
  map value (lastOnly (ld_bid (aggregatedLineData st'))) = [q_bid q] /\
  map value (lastOnly (ld_ask (aggregatedLineData st'))) = [q_ask q] /\
  map value (lastOnly (ld_mid (aggregatedLineData st'))) = [m].
Proof.
  cbv zeta. unfold liveTick. cbv zeta.
  pose proof (updateLineSeries_events (bucketOf (q_t q) timeframe) SBid
                (ld_bid (aggregatedLineData st)) (q_bid q)) as E1.
  pose proof (updateLineSeries_events (bucketOf (q_t q) timeframe) SAsk
                (ld_ask (aggregatedLineData st)) (q_ask q)) as E2.
  pose proof (updateLineSeries_events (bucketOf (q_t q) timeframe) SMid
                (ld_mid (aggregatedLineData st)) (mid_of (q_bid q) (q_ask q))) as E3.
  pose proof (updateLineSeries_last (bucketOf (q_t q) timeframe) SBid
                (ld_bid (aggregatedLineData st)) (q_bid q)) as L1.
  pose proof (updateLineSeries_last (bucketOf (q_t q) timeframe) SAsk
                (ld_ask (aggregatedLineData st)) (q_ask q)) as L2.
  pose proof (updateLineSeries_last (bucketOf (q_t q) timeframe) SMid
                (ld_mid (aggregatedLineData st)) (mid_of (q_bid q) (q_ask q))) as L3.
  pose proof (updateCandles_no_ema (bucketOf (q_t q) timeframe)
                (aggregatedCandleData st) (mid_of (q_bid q) (q_ask q))) as [_ E4].
  pose proof (updateCandles_shown (bucketOf (q_t q) timeframe)
                (aggregatedCandleData st) (mid_of (q_bid q) (q_ask q))) as [C1 C2].
  destruct (updateLineSeries _ SBid _ _) as [bidD e1].
  destruct (updateLineSeries _ SAsk _ _) as [askD e2].
  destruct (updateLineSeries _ SMid _ _) as [midD e3].
  destruct (updateCandles _ _ _) as [candleD e4].
  cbn [fst snd] in E1, E2, E3, E4, L1, L2, L3, C1, C2. subst e1 e2 e3.
  assert (EM : forall s, (s = SBid \/ s = SAsk \/ s = SMid) ->
                 seriesUpdates s (snd (calculateEMAs ta_ema midD)
                                  ++ updateLastEma SEma9 (ema9 (fst (calculateEMAs ta_ema midD)))
                                  ++ updateLastEma SEma20 (ema20 (fst (calculateEMAs ta_ema midD))))
                 = [] /\
                 candleUpdates (snd (calculateEMAs ta_ema midD)
                                ++ updateLastEma SEma9 (ema9 (fst (calculateEMAs ta_ema midD)))
                                ++ updateLastEma SEma20 (ema20 (fst (calculateEMAs ta_ema midD))))
                 = []).
  { intros s S. unfold calculateEMAs, updateLastEma.
    destruct midD as [|d midD]; cbn [fst snd ema9 ema20 app unsnoc].
    - destruct S as [-> | [-> | ->] ]; split; reflexivity.
    - repeat match goal with
             | |- context [unsnoc ?x] => destruct (unsnoc x) as [[? ?]|]
             end; destruct S as [-> | [-> | ->] ]; split; reflexivity. }
  destruct (calculateEMAs ta_ema midD) as [updatedEMAs e5].
  cbn [fst snd aggregatedLineData aggregatedCandleData ld_bid ld_ask ld_mid] in *.
  destruct (EM SBid (or_introl eq_refl)) as [B1 K].
  destruct (EM SAsk (or_intror (or_introl eq_refl))) as [B2 _].
  destruct (EM SMid (or_intror (or_intror eq_refl))) as [B3 _].
  repeat split.
  - cbn [app seriesUpdates SeriesId_eqb]. rewrite seriesUpdates_app, E4, B1. reflexivity.
  - cbn [app seriesUpdates SeriesId_eqb]. rewrite seriesUpdates_app, E4, B2. reflexivity.
  - cbn [app seriesUpdates SeriesId_eqb]. rewrite seriesUpdates_app, E4, B3. reflexivity.
  - cbn [app candleUpdates]. rewrite candleUpdates_app, K, C1. apply app_nil_r.
  - exact C2.
  - exact L1.
  - exact L2.
  - exact L3.
Qed.

End LiveTickCalls.

(** ** TickCodec: the order of times *)

Section DecodedOrder.
Local Open Scope Q_scope.

Lemma js_trunc_mono (a b : Q) : a <= b -> (js_trunc a <= js_trunc b)%Z.
Proof.
  intros L. unfold js_trunc.
  destruct (Qle_bool 0 a) eqn:A; destruct (Qle_bool 0 b) eqn:B.
  - apply Qfloor_resp_le, L.
  - apply Qle_bool_iff in A.
    assert (NB : ~ 0 <= b) by (intro C; apply Qle_bool_iff in C; congruence).
    exfalso. apply NB. lra.
  - apply Qle_bool_iff in B.
    assert (NA : ~ 0 <= a) by (intro C; apply Qle_bool_iff in C; congruence).
    assert (CA : (Qceiling a <= 0)%Z).
    { apply Qceiling_nonpos. destruct (Qlt_le_dec a 0) as [C|C]; [lra|contradiction]. }
    assert (FB : (0 <= Qfloor b)%Z) by (change 0%Z with (Qfloor 0); apply Qfloor_resp_le, B).
    lia.
  - apply Qceiling_resp_le, L.
Qed.

Lemma timeValueOfUs_mono (us us' tv tv' : Z) :
  (us <= us')%Z -> timeValueOfUs us = Some tv -> timeValueOfUs us' = Some tv' ->
  (tv <= tv')%Z.
Proof.
  unfold timeValueOfUs, newDate, js_div, js_of_bigint, js_int. intros L T T'.
  destruct (Qle_bool _ _); [|discriminate]. inversion T; subst tv.
  destruct (Qle_bool _ _); [|discriminate]. inversion T'; subst tv'.
  apply js_trunc_mono, fl_mono.
  apply Qmult_le_compat_r; [|unfold Qinv; simpl; unfold Qle; simpl; lia].
  apply fl_mono. rewrite <- Zle_Qle. exact L.
Qed.

Lemma secondTimestampOf_mono (a b : DecodedTick) :
  (timestamp a <= timestamp b)%Z -> (secondTimestampOf a <= secondTimestampOf b)%Z.
Proof.
  intros L. unfold secondTimestampOf, math_floor_Z, js_div, js_int.
  apply Qfloor_resp_le, fl_mono.
  apply Qmult_le_compat_r; [|unfold Qinv; simpl; unfold Qle; simpl; lia].
  rewrite <- Zle_Qle. exact L.
Qed.

End DecodedOrder.

Lemma StronglySorted_by_index {A : Type} (R : A -> A -> Prop) (l : list A) :
  (forall j k x y, (j < k)%nat -> nth_error l j = Some x -> nth_error l k = Some y -> R x y) ->
  StronglySorted R l.
Proof.
  induction l as [|a l IH]; intros P; [constructor|]. constructor.
  - apply IH. intros j k x y JK Ex Ey. apply (P (S j) (S k) x y); [lia|exact Ex|exact Ey].
  - apply Forall_forall. intros y Iy. apply In_nth_error in Iy. destruct Iy as [k Ek].
    apply (P 0%nat (S k) a y); [lia|reflexivity|exact Ek].
Qed.

(** X30.  The decoder keeps the order of times, the division by 1000 and
    its rounding included: of two rows, the one with the larger delta gives
    the later timestamp, or the same, and the later second, or the same.
    So when the deltas never decrease from row to row, the ticks come out in
    the order of their seconds, and the timestamp synthesizer returns them
    in the order of the rows. *)
Theorem decoder_keeps_time_order (buffer : list byte) (ticks : list DecodedTick) :
  parseBinaryData buffer = Return ticks ->
  (forall j k tick_j tick_k delta_j delta_k,
      nth_error ticks j = Some tick_j -> nth_error ticks k = Some tick_k ->
      row_deltaTimeUs buffer (Z.of_nat j) = Some delta_j ->
      row_deltaTimeUs buffer (Z.of_nat k) = Some delta_k ->
      delta_j <= delta_k ->
      timestamp tick_j <= timestamp tick_k /\
      secondTimestampOf tick_j <= secondTimestampOf tick_k) /\
  ((forall j k delta_j delta_k,
       (j < k)%nat ->
       row_deltaTimeUs buffer (Z.of_nat j) = Some delta_j ->
       row_deltaTimeUs buffer (Z.of_nat k) = Some delta_k ->
       delta_j <= delta_k) ->
   StronglySorted Z.le (map secondTimestampOf ticks) /\
   map p_tick (preprocessTimestamps ticks) = ticks).
Proof.
  intros P.
  destruct (parseBinaryData_rows buffer ticks P) as (initial & _ & Rows).
  assert (Row : forall k tick, nth_error ticks k = Some tick ->
                  exists delta, row_deltaTimeUs buffer (Z.of_nat k) = Some delta /\
                                timeValueOfUs (initial + delta) = Some (timestamp tick)).
  { intros k tick E. destruct (parseRow_timestamp _ _ _ _ (Rows k tick E)) as (delta & G & T).
    exists delta. split; [|exact T]. unfold row_deltaTimeUs. rewrite G. reflexivity. }
  assert (Pair : forall j k tick_j tick_k delta_j delta_k,
             nth_error ticks j = Some tick_j -> nth_error ticks k = Some tick_k ->
             row_deltaTimeUs buffer (Z.of_nat j) = Some delta_j ->
             row_deltaTimeUs buffer (Z.of_nat k) = Some delta_k ->
             delta_j <= delta_k ->
             timestamp tick_j <= timestamp tick_k /\
             secondTimestampOf tick_j <= secondTimestampOf tick_k).
  { intros j k tj tk dj dk Ej Ek Dj Dk L.
    destruct (Row j tj Ej) as (dj' & Dj' & Tj). destruct (Row k tk Ek) as (dk' & Dk' & Tk).
    rewrite Dj in Dj'. rewrite Dk in Dk'. inversion Dj'; inversion Dk'; subst dj' dk'.
    assert (T : timestamp tj <= timestamp tk).
    { eapply (timeValueOfUs_mono (initial + dj) (initial + dk)); [lia|exact Tj|exact Tk]. }
    split; [exact T|apply secondTimestampOf_mono, T]. }
  split; [exact Pair|].
  intros Mono.
  assert (S : StronglySorted Z.le (map secondTimestampOf ticks)).
  { apply StronglySorted_by_index. intros j k x y JK Ex Ey.
    rewrite nth_error_map in Ex, Ey.
    destruct (nth_error ticks j) as [tj|] eqn:Ej; [|discriminate].
    destruct (nth_error ticks k) as [tk|] eqn:Ek; [|discriminate].
    cbn [option_map] in Ex, Ey. inversion Ex; inversion Ey; subst x y.
    destruct (Row j tj Ej) as (dj & Dj & _). destruct (Row k tk Ek) as (dk & Dk & _).
    apply (Pair j k tj tk dj dk Ej Ek Dj Dk). apply (Mono j k dj dk JK Dj Dk). }
  split; [exact S|].
  destruct (parseBinaryData_length buffer ticks P) as (N & _ & LN & NB).
  apply preprocess_chronological; [lia|apply (decoded_ticks_valid_time buffer ticks P)|exact S].
Qed.

Lemma decoder_keeps_time_order_witness :
  map p_tick (preprocessTimestamps example_decoded) = example_decoded.
Proof.
  destruct (decoder_keeps_time_order example_ticks example_decoded decode_example_ticks)
    as [_ M].
  apply M. intros j k dj dk JK Dj Dk.
  destruct k as [|[|k]]; [lia| |].
  - assert (j = 0%nat) by lia. subst j.
    assert (E0 : row_deltaTimeUs example_ticks (Z.of_nat 0) = Some 0)
      by (vm_compute; reflexivity).
    assert (E1 : row_deltaTimeUs example_ticks (Z.of_nat 1) = Some 500000)
      by (vm_compute; reflexivity).
    rewrite E0 in Dj. rewrite E1 in Dk. inversion Dj; inversion Dk; subst. lia.
  - exfalso. unfold row_deltaTimeUs in Dk.
    destruct (getBigInt64_spec example_ticks (17 + Z.of_nat (S (S k)) * rowSize))
      as [(_ & B & _)|[_ T]].
    + revert B. unfold rowSize. change (Z.of_nat (List.length example_ticks)) with 65. lia.
    + rewrite T in Dk. discriminate.
Defined.

(** ** Truncated buffers: which error *)

(** Rows that lie inside the buffer are decoded one after the other until
    one has an invalid date; the first row that does not fit throws the
    out-of-bounds error. *)
Lemma parseRows_truncated_outcome (buffer : list byte) (initial : Z) :
  forall inside i remaining data,
    0 <= i ->
    17 + (i + Z.of_nat inside) * rowSize <= Z.of_nat (List.length buffer) ->
    Z.of_nat (List.length buffer) < 17 + (i + Z.of_nat inside + 1) * rowSize ->
    (inside < remaining)%nat ->
    parseRows buffer initial 17 i remaining data
    = Throw (RangeError
               (if forallb (fun k => row_time_valid buffer initial (Z.of_nat k))
                           (seq (Z.to_nat i) inside)
                then OffsetOutOfBounds else InvalidTimeValue)).
Proof.
  unfold rowSize.
  induction inside as [|inside IH]; intros i remaining data I Fit Cut Lt.
  - cbn [seq forallb]. destruct remaining as [|remaining]; [lia|].
    cbn [parseRows]. rewrite parseRow_truncated by (unfold rowSize; lia). reflexivity.
  - destruct remaining as [|remaining]; [lia|].
    cbn [seq forallb parseRows].
    destruct (parseRow_complete buffer initial (17 + i * rowSize)) as (delta & D & R);
      [unfold rowSize; lia|unfold rowSize; lia|].
    unfold row_time_valid at 1, row_deltaTimeUs. rewrite Z2Nat.id by lia. rewrite D.
    destruct (timeValueOfUs (initial + delta)) as [tv|].
    + destruct R as [tick ->]. cbn [bind andb].
      specialize (IH (i + 1) remaining (push data tick) ltac:(lia) ltac:(lia) ltac:(lia)
                     ltac:(lia)).
      replace (Z.to_nat (i + 1)) with (S (Z.to_nat i)) in IH by lia. exact IH.
    + rewrite R. reflexivity.
Qed.

(** C5 (as amended).  A buffer that starts with the magic "TICK" and holds
    fewer than [17 + 24 * N] bytes, [N] being the row count of its header
    (or fewer than the 17 bytes of a header), makes [parseBinaryData] throw,
    so that the caller gets no ticks.  The exception is the out-of-bounds
    [RangeError] of the read that passes the end of the buffer, unless one
    of the rows that lie wholly inside the buffer has an invalid date: the
    decode then stops there, with the invalid-time [RangeError] of
    [toISOString]. *)
Theorem truncated_buffer_throws (buffer : list byte) :
  firstn 4 buffer = magic_TICK ->
  (Z.of_nat (List.length buffer) < 17 \/
   exists N, header_numRows buffer = Some N /\
             Z.of_nat (List.length buffer) < 17 + 24 * N) ->
  match header_initialTimestampUs buffer with
  | None => parseBinaryData buffer = Throw (RangeError OffsetOutOfBounds)
  | Some initial =>
      if all_row_times_valid buffer initial ((Z.of_nat (List.length buffer) - 17) / 24)
      then parseBinaryData buffer = Throw (RangeError OffsetOutOfBounds)
      else parseBinaryData buffer = Throw (RangeError InvalidTimeValue)
  end.
Proof.
  intros Magic Short.
  destruct (Z_lt_le_dec (Z.of_nat (List.length buffer)) 17) as [S|C].
  - unfold header_initialTimestampUs, getBigUint64.
    rewrite bytes_at_outside by (change (Z.of_nat 8) with 8; lia). cbn [bind].
    apply short_header_throws, S.
  - destruct Short as [S|(N & HN & S)]; [lia|].
    destruct (header_numRows_range buffer N HN) as [[N0 _] _].
    unfold header_numRows in HN. unfold header_initialTimestampUs.
    unfold parseBinaryData, getUint8.
    rewrite (bytes_at_inside buffer 0 4) by (change (Z.of_nat 4) with 4; lia).
    rewrite (bytes_at_inside buffer 4 1) by (change (Z.of_nat 1) with 1; lia).
    cbn [bind]. change (skipn (Z.to_nat 0) buffer) with buffer.
    destruct (getUint32 buffer 5) as [n|e]; [|discriminate].
    inversion HN; subst n. cbn [bind].
    unfold getBigUint64.
    rewrite (bytes_at_inside buffer 9 8) by (change (Z.of_nat 8) with 8; lia).
    cbn [bind]. rewrite Magic. replace (bytes_eqb magic_TICK magic_TICK) with true by reflexivity.
    set (initial := le_value _).
    set (inside := (Z.of_nat (List.length buffer) - 17) / 24).
    assert (IB : 0 <= inside /\ 17 + inside * 24 <= Z.of_nat (List.length buffer)
                 /\ Z.of_nat (List.length buffer) < 17 + (inside + 1) * 24).
    { unfold inside.
      pose proof (Z.div_mod (Z.of_nat (List.length buffer) - 17) 24 ltac:(lia)) as DM.
      pose proof (Z.mod_pos_bound (Z.of_nat (List.length buffer) - 17) 24 ltac:(lia)) as MB.
      split; [apply Z.div_pos; lia|]. lia. }
    destruct IB as (I0 & I1 & I2).
    pose proof (parseRows_truncated_outcome buffer initial (Z.to_nat inside) 0 (Z.to_nat N) [])
      as O.
    unfold rowSize in O. rewrite Z2Nat.id in O by lia.
    specialize (O ltac:(lia) ltac:(lia) ltac:(lia) ltac:(nia)).
    unfold all_row_times_valid. change (Z.to_nat 0) with 0%nat in O.
    destruct (forallb _ _); exact O.
Qed.

Example truncated_far_future_error :
  parseBinaryData example_truncated_far_future = Throw (RangeError InvalidTimeValue).
Proof. vm_compute. reflexivity. Qed.

Lemma truncated_buffer_throws_witness :
  parseBinaryData example_truncated = Throw (RangeError OffsetOutOfBounds).
Proof.
  assert (I : header_initialTimestampUs example_truncated = Some 1700000000000000)
    by (vm_compute; reflexivity).
  assert (V : all_row_times_valid example_truncated 1700000000000000
                ((Z.of_nat (List.length example_truncated) - 17) / 24) = true)
    by (vm_compute; reflexivity).
  pose proof (truncated_buffer_throws example_truncated) as O.
  rewrite I, V in O. apply O.
  - reflexivity.
  - right. exists 2. split; [reflexivity|]. vm_compute. reflexivity.
Defined.

(** C5, counterexample.  A truncated buffer whose first row has a date out
    of range fails on that date, before any read passes the end of the
    buffer. *)
Lemma truncated_fails_out_of_bounds_counterexample :
  ~ truncated_fails_out_of_bounds example_truncated_far_future.
Proof.
  intro C.
  assert (E : parseBinaryData example_truncated_far_future
              = Throw (RangeError OffsetOutOfBounds)).
  { apply (C eq_refl 2); [vm_compute; reflexivity|vm_compute; reflexivity]. }
  rewrite truncated_far_future_error in E. discriminate.
Qed.
